(** * The MT5 TCP bridge: a shallow embedding of [server/bridge.py] and of the
    command helper of [server/api.py], with the properties of its
    specification.

    The bridge is cooperative (asyncio) code: between two [await]s a coroutine
    runs alone.  Each coroutine is therefore cut at its suspension points into
    atomic segments, written as functions on an explicit world state; an event
    resumes one suspended coroutine with the outcome of what it awaited.

    Layout: [Py] (the Python values and exceptions the code handles), [Env]
    (library calls whose results the repository does not define: [uuid.uuid4],
    [json.dumps], [json.loads]), [Frame] (the length-prefixed framing),
    [Bridge] (class [MT5Bridge]), [Api] ([_cmd] and an endpoint), [Ref] (an
    executable instance of [Env] for running the model).  Then the theorems:
    the framing, single calls, a header over the limit, the operations every
    step is made of and the invariant they keep, resolution of pending
    requests, matching by id, timeouts, and runs on the reference
    environment.

    Beyond the specification: [Routes] (the endpoints of [server/api.py] as
    requests, and [health]), [Text] (Python's [str] methods that the scripts
    use), [Chart] ([scripts/setup_bridge_chart.py]) and [Report] (the table
    parser and the number readers of [scripts/parse_report.py]), with
    properties read off the code: what a connected bridge holds, the write
    lock, the bytes on the wire, how the read loop ends, the pending table,
    shutdown, and the two scripts. *)

From Stdlib Require Import ZArith List String Ascii Lia Bool Floats.
From Stdlib.Strings Require Import Byte.
From stdpp Require Import base option list gmap strings pretty.

Set Warnings "-register-all".

(* ===================================================================== *)
(** * Python values and exceptions *)
(* ===================================================================== *)

Module Py.

(** The exception classes that reach the bridge, with Python's hierarchy
    (3.11 and later: [asyncio.TimeoutError] is the builtin [TimeoutError];
    [asyncio.CancelledError] derives from [BaseException], not from
    [Exception]). *)
Inductive exc_class :=
| BaseException | Exception | CancelledError
| OSError | ConnectionError | ConnectionResetError | TimeoutError
| EOFError | IncompleteReadError
| RuntimeError | TypeError | ValueError | AttributeError
| StructError | InvalidStateError | HTTPException.

#[export] Instance exc_class_eq_dec : EqDecision exc_class.
Proof. solve_decision. Defined.

Definition base_of (c : exc_class) : option exc_class :=
  match c with
  | BaseException => None
  | Exception | CancelledError => Some BaseException
  | OSError | EOFError | RuntimeError | TypeError | ValueError
  | AttributeError | StructError | InvalidStateError | HTTPException => Some Exception
  | ConnectionError | TimeoutError => Some OSError
  | ConnectionResetError => Some ConnectionError
  | IncompleteReadError => Some EOFError
  end.

Fixpoint subclass_upto (n : nat) (c d : exc_class) : bool :=
  if decide (c = d) then true
  else match n with
       | O => false
       | S n' => match base_of c with
                 | Some b => subclass_upto n' b d
                 | None => false
                 end
       end.

(** The hierarchy above has depth four. *)
Definition issubclass (c d : exc_class) : bool := subclass_upto 4 c d.

(** A value decoded from JSON, as Python holds it: [None], [bool], [int],
    [float], [str], [list], [dict].  A [str] is kept as the bytes of its
    UTF-8 encoding; a [dict] keeps insertion order. *)
Inductive json :=
| JNull
| JBool (b : bool)
| JInt (z : Z)
| JFloat (f : float)
| JStr (s : string)
| JArr (l : list json)
| JObj (kv : list (string * json)).

(** An exception object: its class and message, or FastAPI's
    [HTTPException(status_code, detail)]. *)
Inductive exn :=
| Exn (c : exc_class) (msg : string)
| HTTPExn (status_code : Z) (detail : json).

Definition class_of (e : exn) : exc_class :=
  match e with
  | Exn c _ => c
  | HTTPExn _ _ => HTTPException
  end.

Definition isinstance (e : exn) (c : exc_class) : bool := issubclass (class_of e) c.

(** A computation that returns or raises. *)
Inductive result (A : Type) :=
| Ok (a : A)
| Raise (e : exn).
Arguments Ok {A} a.
Arguments Raise {A} e.

Definition bind {A B} (r : result A) (k : A -> result B) : result B :=
  match r with
  | Ok a => k a
  | Raise e => Raise e
  end.

(** Python's truth value of an object ([if x:]). *)
Definition truthy (v : json) : bool :=
  match v with
  | JNull => false
  | JBool b => b
  | JInt z => negb (z =? 0)%Z
  | JFloat f => negb (PrimFloat.eqb f 0%float)
  | JStr s => negb (String.eqb s "")
  | JArr l => negb (Nat.eqb (length l) 0)
  | JObj kv => negb (Nat.eqb (length kv) 0)
  end.

(** Lists and dicts cannot be dict keys. *)
Definition hashable (v : json) : bool :=
  match v with
  | JArr _ | JObj _ => false
  | _ => true
  end.

Definition type_name (v : json) : string :=
  match v with
  | JNull => "NoneType"
  | JBool _ => "bool"
  | JInt _ => "int"
  | JFloat _ => "float"
  | JStr _ => "str"
  | JArr _ => "list"
  | JObj _ => "dict"
  end.

Fixpoint dict_get (k : string) (kv : list (string * json)) : option json :=
  match kv with
  | [] => None
  | (k', v) :: rest => if decide (k = k') then Some v else dict_get k rest
  end.

(** [m.get(k, d)]: only a dict has the method. *)
Definition get_default (m : json) (k : string) (d : json) : result json :=
  match m with
  | JObj kv => Ok (default d (dict_get k kv))
  | _ => Raise (Exn AttributeError ("'" +:+ type_name m +:+ "' object has no attribute 'get'"))
  end.

(** [m.get(k)]: [None] when the key is missing. *)
Definition get (m : json) (k : string) : result json := get_default m k JNull.

End Py.
Export Py.

Notation "x <- r ;; k" := (Py.bind r (fun x => k))
  (at level 100, r at next level, right associativity).

(* ===================================================================== *)
(** * What the libraries supply *)
(* ===================================================================== *)

(** The results of three library calls are inputs of the bridge:
    - [uuid4 n] is [str(uuid.uuid4())] at the [n]-th call;
    - [json_dumps m] is [json.dumps(m).encode("utf-8")];
    - [json_loads b] is [json.loads(b.decode("utf-8"))].
    Theorems hold for every such environment unless they say otherwise. *)
Class Env := {
  uuid4 : nat -> string;
  json_dumps : json -> result (list byte);
  json_loads : list byte -> result json;
}.

(* ===================================================================== *)
(** * Framing: a 4-byte big-endian length, then the body *)
(* ===================================================================== *)

Module Frame.

Definition HEADER_SIZE : nat := 4.
Definition DEFAULT_TIMEOUT : Z := 10.

(** The "1MB sanity limit" of the read loop. *)
Definition MAX_MESSAGE : Z := 1000000.

Definition byte_of_Z (z : Z) : byte :=
  default x00 (Byte.of_N (Z.to_N (z mod 256))).

Definition Z_of_byte (b : byte) : Z := Z.of_N (Byte.to_N b).

(** [struct.pack(">I", n)] *)
Definition pack_u32 (n : Z) : result (list byte) :=
  if ((0 <=? n) && (n <? 2 ^ 32))%Z
  then Ok [byte_of_Z (n / 2 ^ 24); byte_of_Z (n / 2 ^ 16); byte_of_Z (n / 2 ^ 8); byte_of_Z n]
  else Raise (Exn StructError "'I' format requires 0 <= number <= 4294967295").

(** [struct.unpack(">I", header)[0]] *)
Definition unpack_u32 (header : list byte) : result Z :=
  match header with
  | [b3; b2; b1; b0] =>
      Ok (Z_of_byte b3 * 2 ^ 24 + Z_of_byte b2 * 2 ^ 16 + Z_of_byte b1 * 2 ^ 8 + Z_of_byte b0)%Z
  | _ => Raise (Exn StructError "unpack requires a buffer of 4 bytes")
  end.

(** What [await reader.readexactly(n)] gives the read loop: [n] bytes, an
    [IncompleteReadError] (the stream ended first), or another exception of
    the stream. *)
Inductive read_outcome :=
| RData (bs : list byte)
| RIncomplete
| RError (e : exn).

(** [readexactly] on a stream whose whole remaining content is [s] (the peer
    closes after it). *)
Definition readexactly (n : nat) (s : list byte) : read_outcome * list byte :=
  if decide (n ≤ length s) then (RData (take n s), drop n s) else (RIncomplete, []).

(** Lines 99-103: the header decides between reading a body and giving up. *)
Inductive header_verdict :=
| HBody (msg_len : Z)
| HTooLarge (msg_len : Z)
| HBad (e : exn).

Definition check_header (header : list byte) : header_verdict :=
  match unpack_u32 header with
  | Ok msg_len => if (MAX_MESSAGE <? msg_len)%Z then HTooLarge msg_len else HBody msg_len
  | Raise e => HBad e
  end.

Section WithEnv.
Context `{Env}.

(** Lines 153-157: what [send_command] writes for a message. *)
Definition encode (message : json) : result (list byte) :=
  payload <- json_dumps message ;;
  header <- pack_u32 (Z.of_nat (length payload)) ;;
  Ok (header ++ payload).

(** One frame taken off a stream, as one turn of the read loop does it
    (lines 98-107). *)
Inductive frame :=
| FrMsg (msg : json)
| FrTooLarge (msg_len : Z)
| FrIncomplete
| FrError (e : exn).

Definition decode (s : list byte) : frame * list byte :=
  match readexactly HEADER_SIZE s with
  | (RData header, s1) =>
      match check_header header with
      | HTooLarge n => (FrTooLarge n, s1)
      | HBad e => (FrError e, s1)
      | HBody n =>
          match readexactly (Z.to_nat n) s1 with
          | (RData data, s2) =>
              match json_loads data with
              | Ok msg => (FrMsg msg, s2)
              | Raise e => (FrError e, s2)
              end
          | (RIncomplete, s2) => (FrIncomplete, s2)
          | (RError e, s2) => (FrError e, s2)
          end
      end
  | (RIncomplete, s1) => (FrIncomplete, s1)
  | (RError e, s1) => (FrError e, s1)
  end.

End WithEnv.

End Frame.
Export Frame.

(* ===================================================================== *)
(** * class MT5Bridge *)
(* ===================================================================== *)

Module Bridge.

(** Objects are named by the order of their creation: an accepted connection
    (its [StreamReader] and [StreamWriter]), a future, a read-loop task, a
    listening server. *)
Abbreviation conn := nat (only parsing).
Abbreviation fid := nat (only parsing).
Abbreviation tid := nat (only parsing).

(** ** The objects the bridge shares with the event loop *)

(** An [asyncio.Future]: written at most once. *)
Inductive fut_state :=
| FPending
| FResult (v : json)
| FExc (e : exn)
| FCancelled.

Definition is_done (st : fut_state) : bool :=
  match st with
  | FPending => false
  | _ => true
  end.

(** A connection's writer: whether [close()] was called on it, and the bytes
    handed to [write()]. *)
Record sock := Sock { s_closed : bool; s_out : list byte }.

(** The task running [_read_loop]: not yet run, suspended in
    [readexactly] for a header or for a body (on the reader it took from
    [self._reader] when it made the call), or finished ([TFailed]: an
    exception left the coroutine). *)
Inductive task_state :=
| TNew
| THeader (r : conn)
| TBody (r : conn) (msg_len : Z)
| TDone
| TFailed (e : exn).

(** [t_cancel]: [cancel()] was called and the [CancelledError] is not yet
    delivered. *)
Record task := Task { t_state : task_state; t_cancel : bool }.

Definition task_done (t : task) : bool :=
  match t_state t with
  | TDone | TFailed _ => true
  | _ => false
  end.

(** The locals of one [send_command] call. *)
Record locals := Locals {
  req_id : string;
  fut : fid;
  command : string;
  timeout : Z;
}.

(** Where a [send_command] call stands: waiting for the write lock (with the
    bytes it will write), in [drain()] holding the lock, in [wait_for], or
    over. *)
Inductive send_pc :=
| AtLock (data : list byte)
| AtDrain
| AtWait
| Returned (v : json)
| Raised (e : exn).

(** Why a suspended call will be woken with an exception: the timer of
    [wait_for] fired, or the caller's task was cancelled. *)
Inductive wake := NoCancel | ByTimeout | ByCaller.

Inductive call :=
| RaisedEarly (e : exn)
| Call (l : locals) (pc : send_pc) (c : wake).

(** A [_handle_connection] coroutine for connection [c]: suspended in
    [wait_closed()] of the connection it replaces, or over. *)
Inductive handler :=
| HWaitClosed (c : conn)
| HDone
| HRaised (e : exn).

(** A [stop()] coroutine. *)
Inductive stop_state :=
| StopAtWriter
| StopAtServer
| StopDone
| StopRaised (e : exn).

(** What the code logs. *)
Inductive log_entry :=
| LogListening
| LogConnected (c : conn)
| LogClosingPrevious
| LogTooLarge (msg_len : Z)
| LogUnmatched (msg : json)
| LogIncompleteRead
| LogReadLoopError (e : exn).

(** ** The fields of [MT5Bridge] (lines 20-30) *)
Record bridge := MkBridge {
  _server : option nat;
  _reader : option conn;
  _writer : option conn;
  _pending : gmap string fid;
  _connected : bool;
  _last_seen : option Z;
  _read_task : option tid;
  _lock : bool;
}.

(** ** The bridge and the event loop around it *)
Record world := MkWorld {
  self : bridge;
  futs : list fut_state;
  socks : list sock;
  listeners : list bool;
  tasks : list task;
  calls : list call;
  handlers : list handler;
  stops : list stop_state;
  uuid_calls : nat;
  now : Z;
  log : list log_entry;
}.

(** [MT5Bridge.__init__] in a fresh event loop. *)
Definition init : world :=
  {| self := {| _server := None; _reader := None; _writer := None; _pending := ∅;
                _connected := false; _last_seen := None; _read_task := None;
                _lock := false |};
     futs := []; socks := []; listeners := []; tasks := []; calls := [];
     handlers := []; stops := []; uuid_calls := 0; now := 0; log := [] |}.

(** Assignments to one field. *)
Definition set_server (v : option nat) (b : bridge) : bridge :=
  MkBridge v (_reader b) (_writer b) (_pending b) (_connected b) (_last_seen b) (_read_task b) (_lock b).
Definition set_reader (v : option conn) (b : bridge) : bridge :=
  MkBridge (_server b) v (_writer b) (_pending b) (_connected b) (_last_seen b) (_read_task b) (_lock b).
Definition set_writer (v : option conn) (b : bridge) : bridge :=
  MkBridge (_server b) (_reader b) v (_pending b) (_connected b) (_last_seen b) (_read_task b) (_lock b).
Definition set_pending (v : gmap string fid) (b : bridge) : bridge :=
  MkBridge (_server b) (_reader b) (_writer b) v (_connected b) (_last_seen b) (_read_task b) (_lock b).
Definition set_connected (v : bool) (b : bridge) : bridge :=
  MkBridge (_server b) (_reader b) (_writer b) (_pending b) v (_last_seen b) (_read_task b) (_lock b).
Definition set_last_seen (v : option Z) (b : bridge) : bridge :=
  MkBridge (_server b) (_reader b) (_writer b) (_pending b) (_connected b) v (_read_task b) (_lock b).
Definition set_read_task (v : option tid) (b : bridge) : bridge :=
  MkBridge (_server b) (_reader b) (_writer b) (_pending b) (_connected b) (_last_seen b) v (_lock b).
Definition set_lock (v : bool) (b : bridge) : bridge :=
  MkBridge (_server b) (_reader b) (_writer b) (_pending b) (_connected b) (_last_seen b) (_read_task b) v.

Definition on_self (f : bridge -> bridge) (w : world) : world :=
  MkWorld (f (self w)) (futs w) (socks w) (listeners w) (tasks w) (calls w) (handlers w)
          (stops w) (uuid_calls w) (now w) (log w).
Definition set_futs (v : list fut_state) (w : world) : world :=
  MkWorld (self w) v (socks w) (listeners w) (tasks w) (calls w) (handlers w)
          (stops w) (uuid_calls w) (now w) (log w).
Definition set_socks (v : list sock) (w : world) : world :=
  MkWorld (self w) (futs w) v (listeners w) (tasks w) (calls w) (handlers w)
          (stops w) (uuid_calls w) (now w) (log w).
Definition set_listeners (v : list bool) (w : world) : world :=
  MkWorld (self w) (futs w) (socks w) v (tasks w) (calls w) (handlers w)
          (stops w) (uuid_calls w) (now w) (log w).
Definition set_tasks (v : list task) (w : world) : world :=
  MkWorld (self w) (futs w) (socks w) (listeners w) v (calls w) (handlers w)
          (stops w) (uuid_calls w) (now w) (log w).
Definition set_calls (v : list call) (w : world) : world :=
  MkWorld (self w) (futs w) (socks w) (listeners w) (tasks w) v (handlers w)
          (stops w) (uuid_calls w) (now w) (log w).
Definition set_handlers (v : list handler) (w : world) : world :=
  MkWorld (self w) (futs w) (socks w) (listeners w) (tasks w) (calls w) v
          (stops w) (uuid_calls w) (now w) (log w).
Definition set_stops (v : list stop_state) (w : world) : world :=
  MkWorld (self w) (futs w) (socks w) (listeners w) (tasks w) (calls w) (handlers w)
          v (uuid_calls w) (now w) (log w).
Definition set_uuid_calls (v : nat) (w : world) : world :=
  MkWorld (self w) (futs w) (socks w) (listeners w) (tasks w) (calls w) (handlers w)
          (stops w) v (now w) (log w).
Definition set_now (v : Z) (w : world) : world :=
  MkWorld (self w) (futs w) (socks w) (listeners w) (tasks w) (calls w) (handlers w)
          (stops w) (uuid_calls w) v (log w).
Definition logged (e : log_entry) (w : world) : world :=
  MkWorld (self w) (futs w) (socks w) (listeners w) (tasks w) (calls w) (handlers w)
          (stops w) (uuid_calls w) (now w) (log w ++ [e]).

(** ** Futures *)

(** [fut.done()].  A name that denotes no future counts as done: nothing is
    ever written through it. *)
Definition fut_done (fs : list fut_state) (f : fid) : bool :=
  match fs !! f with
  | Some st => is_done st
  | None => true
  end.

(** [fut.set_result(v)] and [fut.set_exception(e)] raise on a done future. *)
Definition set_result (f : fid) (v : json) (fs : list fut_state) : result (list fut_state) :=
  if fut_done fs f then Raise (Exn InvalidStateError "invalid state")
  else Ok (<[f := FResult v]> fs).

Definition set_exception (f : fid) (e : exn) (fs : list fut_state) : result (list fut_state) :=
  if fut_done fs f then Raise (Exn InvalidStateError "invalid state")
  else Ok (<[f := FExc e]> fs).

(** [fut.cancel()]: no effect on a done future. *)
Definition cancel_fut (f : fid) (fs : list fut_state) : list fut_state :=
  if fut_done fs f then fs else <[f := FCancelled]> fs.

(** [self._pending.values()] *)
Definition values (pending : gmap string fid) : list fid := (map_to_list pending).*2.

(** Lines 62-64 and 129-131:
    [for fut in self._pending.values(): if not fut.done(): fut.set_exception(e)] *)
Fixpoint fail_all (e : exn) (fids : list fid) (fs : list fut_state) : result (list fut_state) :=
  match fids with
  | [] => Ok fs
  | f :: rest =>
      if fut_done fs f then fail_all e rest fs
      else fs' <- set_exception f e fs ;; fail_all e rest fs'
  end.

(** ** Tasks and sockets *)

Definition set_task_state (t : tid) (st : task_state) (w : world) : world :=
  set_tasks (alter (fun tk => Task st false) t (tasks w)) w.

(** [if self._read_task and not self._read_task.done(): self._read_task.cancel()] *)
Definition cancel_read_task (w : world) : world :=
  match _read_task (self w) with
  | Some t =>
      match tasks w !! t with
      | Some tk => if task_done tk then w
                   else set_tasks (<[t := Task (t_state tk) true]> (tasks w)) w
      | None => w
      end
  | None => w
  end.

(** [writer.close()] *)
Definition close_sock (c : conn) (w : world) : world :=
  set_socks (alter (fun s => Sock true (s_out s)) c (socks w)) w.

(** [writer.write(data)]: a closing transport drops the data. *)
Definition write_sock_list (c : conn) (data : list byte) (ss : list sock) : list sock :=
  alter (fun s => if s_closed s then s else Sock false (s_out s ++ data)) c ss.

Definition write_sock (c : conn) (data : list byte) (w : world) : world :=
  set_socks (write_sock_list c data (socks w)) w.

(** ** start (lines 40-45) *)

(** [bind_error]: what [asyncio.start_server] raised, if it did.  The code
    makes the call and stores the server, with no test of [self._server]. *)
Definition start (bind_error : option exn) (w : world) : world * result unit :=
  match bind_error with
  | Some e => (w, Raise e)
  | None =>
      let l := length (listeners w) in
      (logged LogListening
         (on_self (set_server (Some l)) (set_listeners (listeners w ++ [true]) w)),
       Ok tt)
  end.

(** ** _read_loop (lines 93-132) *)

(** Lines 126-132, the [finally] block; the task ends in state [final]. *)
Definition read_loop_finally (final : task_state) (t : tid) (w : world) : world :=
  let w1 := on_self (set_connected false) w in
  match fail_all (Exn ConnectionError "EA disconnected") (values (_pending (self w1))) (futs w1) with
  | Ok fs => set_task_state t final (on_self (set_pending ∅) (set_futs fs w1))
  | Raise e => set_task_state t (TFailed e) w1
  end.

(** Lines 120-125: an exception raised inside the [try]. *)
Definition read_loop_except (e : exn) (t : tid) (w : world) : world :=
  if isinstance e IncompleteReadError then read_loop_finally TDone t (logged LogIncompleteRead w)
  else if isinstance e CancelledError then read_loop_finally TDone t w
  else if isinstance e Exception then read_loop_finally TDone t (logged (LogReadLoopError e) w)
  else read_loop_finally (TFailed e) t w.

Definition no_readexactly : exn :=
  Exn AttributeError "'NoneType' object has no attribute 'readexactly'".

(** Lines 112-118: the response goes to the future registered under its id.
    Returns the world where the block ended and the exception that ended it,
    if one did. *)
Definition route (msg : json) (w : world) : world * option exn :=
  match get msg "id" with
  | Raise e => (w, Some e)
  | Ok rid =>
      if truthy rid then
        if negb (hashable rid)
        then (w, Some (Exn TypeError ("unhashable type: '" +:+ type_name rid +:+ "'")))
        else
          match rid with
          | JStr k =>
              match _pending (self w) !! k with
              | Some f =>
                  let w1 := on_self (set_pending (delete k (_pending (self w)))) w in
                  if fut_done (futs w1) f then (w1, None)
                  else match set_result f msg (futs w1) with
                       | Ok fs => (set_futs fs w1, None)
                       | Raise e => (w1, Some e)
                       end
              | None => (logged (LogUnmatched msg) w, None)
              end
          | _ => (logged (LogUnmatched msg) w, None)
          end
      else (logged (LogUnmatched msg) w, None)
  end.

(** Line 98 up to its [await]: the loop asks [self._reader] for a header. *)
Definition read_loop_turn (t : tid) (w : world) : world :=
  match _reader (self w) with
  | Some r => set_task_state t (THeader r) w
  | None => read_loop_except no_readexactly t w
  end.

Section WithEnv.
Context `{Env}.

(** The first step of the task.  A task cancelled before it ever ran ends
    without entering the coroutine's [try]. *)
Definition read_loop_start (t : tid) (w : world) : option world :=
  match tasks w !! t with
  | Some (Task TNew cancelled) =>
      Some (if cancelled then set_task_state t TDone w else read_loop_turn t w)
  | _ => None
  end.

(** The task is resumed with the outcome [o] of the read it awaits. *)
Definition read_loop_resume (t : tid) (o : read_outcome) (w : world) : option world :=
  match tasks w !! t with
  | Some (Task (THeader _) cancelled) =>
      if cancelled then Some (read_loop_except (Exn CancelledError "") t w)
      else
        match o with
        | RData header =>
            if negb (Nat.eqb (length header) HEADER_SIZE) then None
            else
              match check_header header with
              | HTooLarge n => Some (read_loop_finally TDone t (logged (LogTooLarge n) w))
              | HBad e => Some (read_loop_except e t w)
              | HBody n =>
                  match _reader (self w) with
                  | Some r => Some (set_task_state t (TBody r n) w)
                  | None => Some (read_loop_except no_readexactly t w)
                  end
              end
        | RIncomplete => Some (read_loop_except (Exn IncompleteReadError "") t w)
        | RError e => Some (read_loop_except e t w)
        end
  | Some (Task (TBody _ n) cancelled) =>
      if cancelled then Some (read_loop_except (Exn CancelledError "") t w)
      else
        match o with
        | RData data =>
            if negb (Z.of_nat (length data) =? n)%Z then None
            else
              match json_loads data with
              | Raise e => Some (read_loop_except e t w)
              | Ok msg =>
                  let w1 := on_self (set_last_seen (Some (now w))) w in
                  match route msg w1 with
                  | (w2, None) => Some (read_loop_turn t w2)
                  | (w2, Some e) => Some (read_loop_except e t w2)
                  end
              end
        | RIncomplete => Some (read_loop_except (Exn IncompleteReadError "") t w)
        | RError e => Some (read_loop_except e t w)
        end
  | _ => None
  end.

End WithEnv.

(** ** _handle_connection (lines 67-91) *)

(** Lines 85-91: the new connection becomes the current one and gets a read
    loop. *)
Definition install (c : conn) (w : world) : world :=
  let w1 := on_self (fun b => set_last_seen (Some (now w))
                       (set_connected true (set_writer (Some c) (set_reader (Some c) b)))) w in
  let t := length (tasks w1) in
  on_self (set_read_task (Some t)) (set_tasks (tasks w1 ++ [Task TNew false]) w1).

(** Lines 71-83: a connection was accepted; the handler runs up to its
    [await], or to its end when there is nothing to close. *)
Definition handle_connection (w : world) : world :=
  let c := length (socks w) in
  let w1 := logged (LogConnected c) (set_socks (socks w ++ [Sock false []]) w) in
  match _writer (self w1) with
  | Some old =>
      let w2 := close_sock old (cancel_read_task (logged LogClosingPrevious w1)) in
      set_handlers (handlers w2 ++ [HWaitClosed c]) w2
  | None => set_handlers (handlers w1 ++ [HDone]) (install c w1)
  end.

(** [await self._writer.wait_closed()] is over ([o]: what it raised, if it
    did); [except Exception: pass]. *)
Definition handle_connection_resume (h : nat) (o : option exn) (w : world) : option world :=
  match handlers w !! h with
  | Some (HWaitClosed c) =>
      match o with
      | Some e =>
          if isinstance e Exception
          then Some (set_handlers (<[h := HDone]> (handlers w)) (install c w))
          else Some (set_handlers (<[h := HRaised e]> (handlers w)) w)
      | None => Some (set_handlers (<[h := HDone]> (handlers w)) (install c w))
      end
  | _ => None
  end.

(** ** stop (lines 47-65) *)

Definition close_listener (l : nat) (w : world) : world :=
  set_listeners (<[l := false]> (listeners w)) w.

(** Lines 60-65. *)
Definition stop_finish (s : nat) (w : world) : world :=
  let w1 := on_self (set_connected false) w in
  match fail_all (Exn ConnectionError "Bridge shutting down") (values (_pending (self w1))) (futs w1) with
  | Ok fs => set_stops (<[s := StopDone]> (stops w1)) (on_self (set_pending ∅) (set_futs fs w1))
  | Raise e => set_stops (<[s := StopRaised e]> (stops w1)) w1
  end.

(** Lines 57-59, up to [await self._server.wait_closed()]. *)
Definition stop_server (s : nat) (w : world) : world :=
  match _server (self w) with
  | Some l => set_stops (<[s := StopAtServer]> (stops w)) (close_listener l w)
  | None => stop_finish s w
  end.

(** Lines 49-54: the call of [stop()], up to its first [await]. *)
Definition stop (w : world) : world :=
  let s := length (stops w) in
  let w1 := cancel_read_task w in
  match _writer (self w1) with
  | Some wr => set_stops (stops w1 ++ [StopAtWriter]) (close_sock wr w1)
  | None => stop_server s (set_stops (stops w1 ++ [StopAtWriter]) w1)
  end.

Definition stop_resume (s : nat) (o : option exn) (w : world) : option world :=
  match stops w !! s with
  | Some StopAtWriter =>
      match o with
      | Some e =>
          if isinstance e Exception then Some (stop_server s w)
          else Some (set_stops (<[s := StopRaised e]> (stops w)) w)
      | None => Some (stop_server s w)
      end
  | Some StopAtServer =>
      match o with
      | Some e => Some (set_stops (<[s := StopRaised e]> (stops w)) w)
      | None => Some (stop_finish s w)
      end
  | _ => None
  end.

(** ** send_command (lines 134-168) *)

(** [self._pending.pop(req_id, None)] *)
Definition pop (k : string) (w : world) : world :=
  on_self (set_pending (delete k (_pending (self w)))) w.

Definition timed_out (l : locals) : exn :=
  Exn TimeoutError ("Command '" +:+ command l +:+ "' timed out after " +:+ pretty (timeout l) +:+ "s").

(** Lines 163-168: an exception [e] raised inside the [try].  Returns the
    world and the exception that leaves [send_command]. *)
Definition send_except (l : locals) (e : exn) (w : world) : world * exn :=
  if isinstance e TimeoutError then (pop (req_id l) w, timed_out l)
  else if isinstance e Exception then (pop (req_id l) w, e)
  else (w, e).

Definition set_call (k : nat) (c : call) (w : world) : world :=
  set_calls (<[k := c]> (calls w)) w.

Definition raise_in_try (k : nat) (l : locals) (e : exn) (w : world) : world :=
  let '(w1, e1) := send_except l e w in set_call k (Call l (Raised e1) NoCancel) w1.

(** Line 161: [wait_for] has something to deliver, or the call waits. *)
Definition wait_for (k : nat) (l : locals) (w : world) : world :=
  match futs w !! fut l with
  | Some (FResult v) => set_call k (Call l (Returned v) NoCancel) w
  | Some (FExc e) => raise_in_try k l e w
  | Some FCancelled => raise_in_try k l (Exn CancelledError "") w
  | _ => set_call k (Call l AtWait NoCancel) w
  end.

(** Lines 156-158 with the lock taken: the write, then [await drain()]. *)
Definition write_frame (k : nat) (l : locals) (data : list byte) (w : world) : world :=
  let w1 := on_self (set_lock true) w in
  match _writer (self w1) with
  | Some wr => set_call k (Call l AtDrain NoCancel) (write_sock wr data w1)
  | None =>
      raise_in_try k l (Exn AttributeError "'NoneType' object has no attribute 'write'")
        (on_self (set_lock false) w1)
  end.

Section WithEnv.
Context `{Env}.

(** Lines 142-144. *)
Definition request (rid cmd : string) (params : option json) : json :=
  JObj ([("id", JStr rid); ("command", JStr cmd)]
        ++ match params with
           | Some p => if truthy p then [("params", p)] else []
           | None => []
           end).

(** The call of [send_command], up to its first suspension. *)
Definition send_command (cmd : string) (params : option json) (tmo : Z) (w : world) : world :=
  let k := length (calls w) in
  if negb (_connected (self w)) || negb (bool_decide (is_Some (_writer (self w))))
  then set_calls (calls w ++ [RaisedEarly (Exn ConnectionError "EA not connected")]) w
  else
    let l := Locals (uuid4 (uuid_calls w)) (length (futs w)) cmd tmo in
    let message := request (req_id l) cmd params in
    let w1 := on_self (set_pending (<[req_id l := fut l]> (_pending (self w))))
                (set_futs (futs w ++ [FPending]) (set_uuid_calls (S (uuid_calls w)) w)) in
    let w2 := set_calls (calls w1 ++ [Call l AtWait NoCancel]) w1 in
    match encode message with
    | Raise e => raise_in_try k l e w2
    | Ok data =>
        if _lock (self w2) then set_call k (Call l (AtLock data) NoCancel) w2
        else write_frame k l data w2
    end.

End WithEnv.

(** The lock is free and goes to call [k]. *)
Definition lock_granted (k : nat) (w : world) : option world :=
  match calls w !! k with
  | Some (Call l (AtLock data) NoCancel) =>
      if _lock (self w) then None else Some (write_frame k l data w)
  | _ => None
  end.

(** [drain()] is over ([o]: what it raised, if it did); the lock is
    released, then line 161. *)
Definition drain_done (k : nat) (o : option exn) (w : world) : option world :=
  match calls w !! k with
  | Some (Call l AtDrain NoCancel) =>
      let w1 := on_self (set_lock false) w in
      match o with
      | Some e => Some (raise_in_try k l e w1)
      | None => Some (wait_for k l w1)
      end
  | _ => None
  end.

(** The timer of [wait_for] fires on a call whose future is not done:
    [wait_for] cancels the future and will raise [TimeoutError] in the
    call when the call next runs. *)
Definition timeout_fire (k : nat) (w : world) : option world :=
  match calls w !! k with
  | Some (Call l AtWait NoCancel) =>
      if fut_done (futs w) (fut l) then None
      else Some (set_call k (Call l AtWait ByTimeout) (set_futs (cancel_fut (fut l) (futs w)) w))
  | _ => None
  end.

(** The task that runs the call is cancelled while the call is suspended; in
    [wait_for] this cancels the awaited future. *)
Definition cancel_call (k : nat) (w : world) : option world :=
  match calls w !! k with
  | Some (Call l AtWait NoCancel) =>
      Some (set_call k (Call l AtWait ByCaller) (set_futs (cancel_fut (fut l) (futs w)) w))
  | Some (Call l (AtLock data) NoCancel) => Some (set_call k (Call l (AtLock data) ByCaller) w)
  | Some (Call l AtDrain NoCancel) => Some (set_call k (Call l AtDrain ByCaller) w)
  | _ => None
  end.

(** A suspended call runs again: with the exception that was prepared for
    it, or in [wait_for] with what its future holds. *)
Definition wake_call (k : nat) (w : world) : option world :=
  match calls w !! k with
  | Some (Call l AtWait NoCancel) =>
      if fut_done (futs w) (fut l) then Some (wait_for k l w) else None
  | Some (Call l AtWait ByTimeout) => Some (raise_in_try k l (Exn TimeoutError "") w)
  | Some (Call l AtWait ByCaller) => Some (raise_in_try k l (Exn CancelledError "") w)
  | Some (Call l (AtLock _) ByCaller) => Some (raise_in_try k l (Exn CancelledError "") w)
  | Some (Call l AtDrain ByCaller) =>
      Some (raise_in_try k l (Exn CancelledError "") (on_self (set_lock false) w))
  | _ => None
  end.

(** ** Events *)

(** What the event loop does next: a call from the application, an accepted
    connection, or the resumption of one suspended coroutine. *)
Inductive event :=
| EvStart (bind_error : option exn)
| EvStop
| EvStopResume (s : nat) (o : option exn)
| EvAccept
| EvHandlerResume (h : nat) (o : option exn)
| EvTaskStart (t : tid)
| EvRead (t : tid) (o : read_outcome)
| EvSend (cmd : string) (params : option json) (tmo : Z)
| EvLockGranted (k : nat)
| EvDrainDone (k : nat) (o : option exn)
| EvTimeoutFire (k : nat)
| EvCancelCall (k : nat)
| EvWake (k : nat)
| EvTick.

Section WithEnv.
Context `{Env}.

(** One atomic step; [None]: the event cannot happen in this world. *)
Definition step (w : world) (ev : event) : option world :=
  match ev with
  | EvStart o => Some (fst (start o w))
  | EvStop => Some (stop w)
  | EvStopResume s o => stop_resume s o w
  | EvAccept => if existsb id (listeners w) then Some (handle_connection w) else None
  | EvHandlerResume h o => handle_connection_resume h o w
  | EvTaskStart t => read_loop_start t w
  | EvRead t o => read_loop_resume t o w
  | EvSend cmd params tmo => Some (send_command cmd params tmo w)
  | EvLockGranted k => lock_granted k w
  | EvDrainDone k o => drain_done k o w
  | EvTimeoutFire k => timeout_fire k w
  | EvCancelCall k => cancel_call k w
  | EvWake k => wake_call k w
  | EvTick => Some (set_now (now w + 1)%Z w)
  end.

Fixpoint run (evs : list event) (w : world) : option world :=
  match evs with
  | [] => Some w
  | ev :: rest =>
      match step w ev with
      | Some w' => run rest w'
      | None => None
      end
  end.

(** The worlds the bridge can be in. *)
Definition reachable (w : world) : Prop := exists evs, run evs init = Some w.

(** A read-loop task fed from a stream whose whole remaining content is [s]:
    every read it awaits is served by [readexactly] on [s], until the task is
    over. *)
Fixpoint feed (fuel : nat) (t : tid) (s : list byte) (w : world) : world * list byte :=
  match fuel with
  | O => (w, s)
  | S fuel' =>
      match tasks w !! t with
      | Some (Task TNew _) =>
          match read_loop_start t w with
          | Some w' => feed fuel' t s w'
          | None => (w, s)
          end
      | Some (Task (THeader _) _) =>
          let '(o, s') := readexactly HEADER_SIZE s in
          match read_loop_resume t o w with
          | Some w' => feed fuel' t s' w'
          | None => (w, s)
          end
      | Some (Task (TBody _ n) _) =>
          let '(o, s') := readexactly (Z.to_nat n) s in
          match read_loop_resume t o w with
          | Some w' => feed fuel' t s' w'
          | None => (w, s)
          end
      | _ => (w, s)
      end
  end.

End WithEnv.

End Bridge.
Export Bridge.

(* ===================================================================== *)
(** * server/api.py: _cmd and an endpoint *)
(* ===================================================================== *)

Module Api.

(** Lines 55-63 of api.py, applied to what [bridge.send_command] returned or
    raised. *)
Definition _cmd (sent : result json) : result json :=
  match sent with
  | Ok resp =>
      err <- get resp "error" ;;
      if truthy err then Raise (HTTPExn 400 err) else Ok resp
  | Raise e =>
      if isinstance e ConnectionError
      then Raise (HTTPExn 503 (JStr "EA not connected to MT5"))
      else if isinstance e TimeoutError
      then Raise (HTTPExn 504 (JStr "EA command timed out"))
      else Raise e
  end.

(** Lines 68-71: [get_account], as the other endpoints, reads ["data"] off
    what [_cmd] returns. *)
Definition get_account (sent : result json) : result json :=
  resp <- _cmd sent ;;
  get_default resp "data" (JObj []).

(** What a finished [send_command] call handed to its caller. *)
Definition outcome (c : call) : option (result json) :=
  match c with
  | RaisedEarly e => Some (Raise e)
  | Call _ (Returned v) _ => Some (Ok v)
  | Call _ (Raised e) _ => Some (Raise e)
  | _ => None
  end.

End Api.

(* ===================================================================== *)
(** * An executable environment *)
(* ===================================================================== *)

(** An instance of [Env] to run the model on concrete traffic: request ids
    [uuid-0], [uuid-1], ...; [json.dumps] with Python's default separators
    and escapes; [json.loads].  It covers ASCII text and integers ([float]s
    and non-ASCII text are refused), which is what the examples use. *)
Module Ref.

Definition dquote : ascii := ascii_of_nat 34.
Definition backslash : ascii := ascii_of_nat 92.

Definition outside (what : string) : exn :=
  Exn ValueError (what +:+ " is outside the reference JSON fragment").

Definition hex_digit (n : nat) : ascii :=
  nth n (list_ascii_of_string "0123456789abcdef") "0"%char.

(** [json.dumps] of one character of a string (ensure_ascii). *)
Definition escape (c : ascii) : string :=
  let n := nat_of_ascii c in
  if Nat.eqb n 34 then String backslash (String dquote "")
  else if Nat.eqb n 92 then String backslash (String backslash "")
  else if Nat.eqb n 8 then String backslash "b"
  else if Nat.eqb n 12 then String backslash "f"
  else if Nat.eqb n 10 then String backslash "n"
  else if Nat.eqb n 13 then String backslash "r"
  else if Nat.eqb n 9 then String backslash "t"
  else if Nat.ltb n 32 || Nat.eqb n 127
       then String backslash ("u00" +:+ String (hex_digit (n / 16)) (String (hex_digit (n mod 16)) ""))
  else String c "".

Definition is_ascii (c : ascii) : bool := Nat.ltb (nat_of_ascii c) 128.

Definition dumps_str (s : string) : result string :=
  if forallb is_ascii (list_ascii_of_string s)
  then Ok (String dquote (String.concat "" (map escape (list_ascii_of_string s)) +:+ String dquote ""))
  else Raise (outside "non-ASCII text").

Fixpoint dumps (v : json) : result string :=
  match v with
  | JNull => Ok "null"
  | JBool true => Ok "true"
  | JBool false => Ok "false"
  | JInt z => Ok (pretty z)
  | JFloat _ => Raise (outside "a float")
  | JStr s => dumps_str s
  | JArr l =>
      items <- (fix go (l : list json) : result (list string) :=
                  match l with
                  | [] => Ok []
                  | x :: rest => a <- dumps x ;; b <- go rest ;; Ok (a :: b)
                  end) l ;;
      Ok ("[" +:+ String.concat ", " items +:+ "]")
  | JObj kv =>
      items <- (fix go (kv : list (string * json)) : result (list string) :=
                  match kv with
                  | [] => Ok []
                  | (k, x) :: rest =>
                      a <- dumps_str k ;; b <- dumps x ;; c <- go rest ;;
                      Ok ((a +:+ ": " +:+ b) :: c)
                  end) kv ;;
      Ok ("{" +:+ String.concat ", " items +:+ "}")
  end.

Definition is_ws (c : ascii) : bool :=
  let n := nat_of_ascii c in
  Nat.eqb n 32 || Nat.eqb n 9 || Nat.eqb n 10 || Nat.eqb n 13.

Fixpoint skip_ws (s : list ascii) : list ascii :=
  match s with
  | c :: rest => if is_ws c then skip_ws rest else s
  | [] => []
  end.

Fixpoint strip_prefix (p s : list ascii) : option (list ascii) :=
  match p, s with
  | [], _ => Some s
  | a :: p', b :: s' => if Ascii.eqb a b then strip_prefix p' s' else None
  | _ :: _, [] => None
  end.

Definition digit (c : ascii) : option Z :=
  let n := nat_of_ascii c in
  if Nat.leb 48 n && Nat.leb n 57 then Some (Z.of_nat (n - 48)) else None.

Fixpoint digits (s : list ascii) (acc : Z) : Z * list ascii :=
  match s with
  | c :: rest =>
      match digit c with
      | Some d => digits rest (10 * acc + d)%Z
      | None => (acc, s)
      end
  | [] => (acc, [])
  end.

Definition hex_val (c : ascii) : option nat :=
  let n := nat_of_ascii c in
  if Nat.leb 48 n && Nat.leb n 57 then Some (n - 48)
  else if Nat.leb 97 n && Nat.leb n 102 then Some (n - 87)
  else if Nat.leb 65 n && Nat.leb n 70 then Some (n - 55)
  else None.

(** The text of a string, after its opening quote. *)
Fixpoint parse_str (s acc : list ascii) : option (string * list ascii) :=
  match s with
  | [] => None
  | c :: rest =>
      if Ascii.eqb c dquote then Some (string_of_list_ascii (rev acc), rest)
      else if Ascii.eqb c backslash then
        match rest with
        | e :: rest' =>
            let n := nat_of_ascii e in
            if Nat.eqb n 34 || Nat.eqb n 92 || Nat.eqb n 47 then parse_str rest' (e :: acc)
            else if Nat.eqb n 98 then parse_str rest' (ascii_of_nat 8 :: acc)
            else if Nat.eqb n 102 then parse_str rest' (ascii_of_nat 12 :: acc)
            else if Nat.eqb n 110 then parse_str rest' (ascii_of_nat 10 :: acc)
            else if Nat.eqb n 114 then parse_str rest' (ascii_of_nat 13 :: acc)
            else if Nat.eqb n 116 then parse_str rest' (ascii_of_nat 9 :: acc)
            else if Nat.eqb n 117 then
              match rest' with
              | h1 :: h2 :: h3 :: h4 :: rest'' =>
                  match hex_val h1, hex_val h2, hex_val h3, hex_val h4 with
                  | Some a, Some b, Some c', Some d =>
                      let code := ((a * 16 + b) * 16 + c') * 16 + d in
                      if Nat.ltb code 128 then parse_str rest'' (ascii_of_nat code :: acc) else None
                  | _, _, _, _ => None
                  end
              | _ => None
              end
            else None
        | [] => None
        end
      else if Nat.ltb (nat_of_ascii c) 32 then None
      else parse_str rest (c :: acc)
  end.

(** An integer literal; a fraction or an exponent makes a float. *)
Definition parse_int (s : list ascii) : option (json * list ascii) :=
  let '(neg, s1) := match s with
                    | c :: rest => if Ascii.eqb c "-" then (true, rest) else (false, s)
                    | [] => (false, s)
                    end in
  match s1 with
  | c :: rest =>
      match digit c with
      | Some d =>
          let '(z, s2) := if (d =? 0)%Z then (0%Z, rest) else digits rest d in
          match s2 with
          | c2 :: _ =>
              if Ascii.eqb c2 "." || Ascii.eqb c2 "e" || Ascii.eqb c2 "E" then None
              else Some (JInt (if neg then - z else z)%Z, s2)
          | [] => Some (JInt (if neg then - z else z)%Z, s2)
          end
      | None => None
      end
  | [] => None
  end.

(** [d[k] = v] on an insertion-ordered dict. *)
Fixpoint dict_set (k : string) (v : json) (kv : list (string * json)) : list (string * json) :=
  match kv with
  | [] => [(k, v)]
  | (k', v') :: rest => if decide (k = k') then (k, v) :: rest else (k', v') :: dict_set k v rest
  end.

Inductive pmode :=
| PValue
| PElems (acc : list json)
| PMembers (acc : list (string * json)).

Fixpoint parse (fuel : nat) (m : pmode) (s : list ascii) : option (json * list ascii) :=
  match fuel with
  | O => None
  | S fuel' =>
      match m with
      | PValue =>
          let s0 := skip_ws s in
          match strip_prefix (list_ascii_of_string "null") s0 with
          | Some r => Some (JNull, r)
          | None =>
          match strip_prefix (list_ascii_of_string "true") s0 with
          | Some r => Some (JBool true, r)
          | None =>
          match strip_prefix (list_ascii_of_string "false") s0 with
          | Some r => Some (JBool false, r)
          | None =>
          match s0 with
          | c :: r =>
              if Ascii.eqb c dquote then
                match parse_str r [] with
                | Some (str, r') => Some (JStr str, r')
                | None => None
                end
              else if Ascii.eqb c "[" then
                match skip_ws r with
                | c' :: r' => if Ascii.eqb c' "]" then Some (JArr [], r')
                              else parse fuel' (PElems []) r
                | [] => None
                end
              else if Ascii.eqb c "{" then
                match skip_ws r with
                | c' :: r' => if Ascii.eqb c' "}" then Some (JObj [], r')
                              else parse fuel' (PMembers []) r
                | [] => None
                end
              else parse_int s0
          | [] => None
          end end end end
      | PElems acc =>
          match parse fuel' PValue s with
          | Some (v, r) =>
              match skip_ws r with
              | c :: r' =>
                  if Ascii.eqb c "," then parse fuel' (PElems (acc ++ [v])) r'
                  else if Ascii.eqb c "]" then Some (JArr (acc ++ [v]), r')
                  else None
              | [] => None
              end
          | None => None
          end
      | PMembers acc =>
          match skip_ws s with
          | c :: r =>
              if Ascii.eqb c dquote then
                match parse_str r [] with
                | Some (k, r1) =>
                    match skip_ws r1 with
                    | c1 :: r2 =>
                        if Ascii.eqb c1 ":" then
                          match parse fuel' PValue r2 with
                          | Some (v, r3) =>
                              match skip_ws r3 with
                              | c3 :: r4 =>
                                  if Ascii.eqb c3 "," then parse fuel' (PMembers (dict_set k v acc)) r4
                                  else if Ascii.eqb c3 "}" then Some (JObj (dict_set k v acc), r4)
                                  else None
                              | [] => None
                              end
                          | None => None
                          end
                        else None
                    | [] => None
                    end
                | None => None
                end
              else None
          | [] => None
          end
      end
  end.

Definition loads (data : list byte) : result json :=
  let s := map ascii_of_byte data in
  if forallb is_ascii s then
    match parse (2 * length s + 2) PValue s with
    | Some (v, rest) =>
        match skip_ws rest with
        | [] => Ok v
        | _ :: _ => Raise (Exn ValueError "Extra data")
        end
    | None => Raise (Exn ValueError "no JSON value of the reference fragment")
    end
  else Raise (outside "non-ASCII text").

Definition env : Env :=
  {| uuid4 := fun n => "uuid-" +:+ pretty n;
     json_dumps := fun m => s <- dumps m ;; Ok (list_byte_of_string s);
     json_loads := loads |}.

(** The bytes of an ASCII text. *)
Definition bytes (s : string) : list byte := list_byte_of_string s.

End Ref.

(* ===================================================================== *)
(** * The vocabulary of the properties *)
(* ===================================================================== *)

(** [drained e w w']: from [w] to [w'] the facade was marked disconnected
    and the table was emptied, every future of the table that was not done
    holds the exception [e], and no other future changed; in particular no
    future that was done was written again. *)
Definition drained (e : exn) (w w' : world) : Prop :=
  _connected (self w') = false /\
  _pending (self w') = ∅ /\
  (forall k f, _pending (self w) !! k = Some f -> futs w !! f = Some FPending ->
               futs w' !! f = Some (FExc e)) /\
  (forall f st, futs w !! f = Some st -> is_done st = true -> futs w' !! f = Some st) /\
  (forall f, (forall k, _pending (self w) !! k <> Some f) -> futs w' !! f = futs w !! f).

(** The table, the futures, the calls and the number of ids drawn. *)
Record core := Core {
  k_pending : gmap string fid;
  k_futs : list fut_state;
  k_calls : list call;
  k_uuid : nat;
}.

Definition core_of (w : world) : core :=
  Core (_pending (self w)) (futs w) (calls w) (uuid_calls w).

Definition unfinished (pc : send_pc) : bool :=
  match pc with
  | AtLock _ | AtDrain | AtWait => true
  | Returned _ | Raised _ => false
  end.

Section Operations.
Context `{Env}.

(** Every step is a sequence of these operations. *)
Inductive op : core -> core -> Prop :=
| op_register p fs cs n cmd tmo :
    op (Core p fs cs n)
       (Core (<[uuid4 n := length fs]> p) (fs ++ [FPending])
             (cs ++ [Call (Locals (uuid4 n) (length fs) cmd tmo) AtWait NoCancel]) (S n))
| op_early p fs cs n e :
    op (Core p fs cs n) (Core p fs (cs ++ [RaisedEarly e]) n)
| op_move p fs cs n k l pc c pc' c' :
    cs !! k = Some (Call l pc c) -> unfinished pc = true -> unfinished pc' = true ->
    op (Core p fs cs n) (Core p fs (<[k := Call l pc' c']> cs) n)
| op_return p fs cs n k l pc c v :
    cs !! k = Some (Call l pc c) -> unfinished pc = true -> fs !! fut l = Some (FResult v) ->
    op (Core p fs cs n) (Core p fs (<[k := Call l (Returned v) NoCancel]> cs) n)
| op_raise p fs cs n k l pc c e :
    cs !! k = Some (Call l pc c) -> unfinished pc = true ->
    op (Core p fs cs n)
       (Core (if isinstance e Exception then delete (req_id l) p else p) fs
             (<[k := Call l (Raised e) NoCancel]> cs) n)
| op_resolve p fs cs n id f msg :
    get msg "id" = Ok (JStr id) -> p !! id = Some f -> fs !! f = Some FPending ->
    op (Core p fs cs n) (Core (delete id p) (<[f := FResult msg]> fs) cs n)
| op_drop p fs cs n id f :
    p !! id = Some f -> fut_done fs f = true ->
    op (Core p fs cs n) (Core (delete id p) fs cs n)
| op_fail_all p fs cs n e fs' :
    length fs' = length fs ->
    (forall f, fs' !! f =
               match fs !! f with
               | Some FPending => Some (if bool_decide (f ∈ values p) then FExc e else FPending)
               | o => o
               end) ->
    op (Core p fs cs n) (Core ∅ fs' cs n)
| op_cancel p fs cs n k l c :
    cs !! k = Some (Call l AtWait NoCancel) ->
    op (Core p fs cs n) (Core p (cancel_fut (fut l) fs) (<[k := Call l AtWait c]> cs) n).

Definition ops : core -> core -> Prop := rtc op.

End Operations.

Definition id_of (c : call) : option string :=
  match c with
  | Call l _ _ => Some (req_id l)
  | RaisedEarly _ => None
  end.

Definition fut_of (c : call) : option fid :=
  match c with
  | Call l _ _ => Some (fut l)
  | RaisedEarly _ => None
  end.

(** The call is over and, if it raised, the exception is one that the
    [except] clauses of [send_command] handle. *)
Definition settled (pc : send_pc) : bool :=
  match pc with
  | Returned _ => true
  | Raised e => isinstance e Exception
  | _ => false
  end.

Section Invariant.
Context `{Env}.

(** What holds of the table, the futures and the calls of every world the
    bridge reaches: the ids and the futures of the calls are the ones drawn
    so far, an entry of the table belongs to a call and its future is not
    written, a waiting call has its entry, a result carries the id of its
    call, and a call that is over has no entry. *)
Record inv (k : core) : Prop := Inv {
  inv_ids : omap id_of (k_calls k) = uuid4 <$> seq 0 (k_uuid k);
  inv_futs : omap fut_of (k_calls k) = seq 0 (length (k_futs k));
  inv_own : forall id f, k_pending k !! id = Some f ->
      (exists i l pc c, k_calls k !! i = Some (Call l pc c) /\ req_id l = id /\ fut l = f) /\
      (k_futs k !! f = Some FPending \/ k_futs k !! f = Some FCancelled);
  inv_in : forall i l pc c, k_calls k !! i = Some (Call l pc c) -> unfinished pc = true ->
      k_futs k !! fut l = Some FPending -> k_pending k !! req_id l = Some (fut l);
  inv_res : forall i l pc c msg, k_calls k !! i = Some (Call l pc c) ->
      k_futs k !! fut l = Some (FResult msg) -> get msg "id" = Ok (JStr (req_id l));
  inv_ret : forall i l v c, k_calls k !! i = Some (Call l (Returned v) c) ->
      get v "id" = Ok (JStr (req_id l));
  inv_gone : forall i l pc c, k_calls k !! i = Some (Call l pc c) -> settled pc = true ->
      k_pending k !! req_id l = None;
}.

End Invariant.

Ltac open_inv Hi :=
  pose proof (inv_ids _ Hi) as Hids; pose proof (inv_futs _ Hi) as Hfuts;
  pose proof (inv_own _ Hi) as Hown; pose proof (inv_in _ Hi) as Hin;
  pose proof (inv_res _ Hi) as Hres; pose proof (inv_ret _ Hi) as Hret;
  pose proof (inv_gone _ Hi) as Hgone;
  cbn in Hids, Hfuts, Hown, Hin, Hres, Hret, Hgone.

(** [self._reader] is assigned only together with the creation of a read
    task, and never back to [None]. *)
Definition quiet (w w' : world) : Prop :=
  _reader (self w') = _reader (self w) /\ length (tasks w') = length (tasks w).

(** Where there is a read task there is a reader. *)
Definition wired (w : world) : Prop := tasks w = [] \/ is_Some (_reader (self w)).

(* ===================================================================== *)
(** * Requests, replies and schedules of the scenarios *)
(* ===================================================================== *)

(** ["a" * n] *)
Definition blob (n : nat) : string := string_of_list_ascii (replicate n "a"%char).

(** The request [send_command("upload", {"blob": "a" * n})] builds. *)
Definition upload (n : nat) : json :=
  request "uuid-0" "upload" (Some (JObj [("blob", JStr (blob n))])).

Definition mega : nat := Z.to_nat 1000000.

(** The request of the specification's scenario, and its serialization. *)
Definition account_info : json := request "uuid-0" "account_info" None.

Definition body_of (m : json) : list byte :=
  match @json_dumps Ref.env m with
  | Ok b => b
  | Raise _ => []
  end.

(** The frame that carries [m], its header, and two replies of the peer to
    the request [uuid-0]. *)
Definition frame_of (m : json) : list byte :=
  match @encode Ref.env m with
  | Ok f => f
  | Raise _ => []
  end.

Definition header_of (m : json) : list byte := take HEADER_SIZE (frame_of m).

Definition reply_data : json :=
  JObj [("id", JStr "uuid-0"); ("data", JObj [("balance", JInt 1000)])].


Definition reply_to (id : string) (balance : Z) : json :=
  JObj [("id", JStr id); ("data", JObj [("balance", JInt balance)])].

(** The bridge is started, a peer has connected and its read loop waits for
    a header. *)
Definition connect : list event := [EvStart None; EvAccept; EvTaskStart 0].


Definition call_of (evs : list event) (k : nat) : option call :=
  @run Ref.env evs init ≫= fun w => calls w !! k.

(** The header that declares 1,000,001 bytes. *)
Definition over_header : list byte :=
  match pack_u32 1000001 with
  | Ok h => h
  | Raise _ => []
  end.

(** After [connect], one call has written its request and waits. *)
Definition one_pending : list event :=
  connect ++ [EvSend "account_info" None 10; EvDrainDone 0 None].

(** Two calls wait; the peer answers the second first. *)
Definition crossed : list event :=
  connect ++
  [EvSend "account_info" None 10; EvDrainDone 0 None;
   EvSend "positions" None 10; EvDrainDone 1 None;
   EvRead 0 (RData (header_of (reply_to "uuid-1" 2)));
   EvRead 0 (RData (body_of (reply_to "uuid-1" 2)));
   EvRead 0 (RData (header_of (reply_to "uuid-0" 1)));
   EvRead 0 (RData (body_of (reply_to "uuid-0" 1)));
   EvWake 1; EvWake 0].

(** The scenario of the specification for C1: the connection closes while
    three requests are pending; the three callers receive the error. *)
Definition three_pending : list event :=
  connect ++
  [EvSend "account_info" None 10; EvDrainDone 0 None;
   EvSend "positions" None 10; EvDrainDone 1 None;
   EvSend "orders" None 10; EvDrainDone 2 None].

(** Connection 0 is current.  Connections 1 and 2 are accepted one after the
    other: both handlers find writer 0 installed, both close it and wait in
    [wait_closed()].  The read loop of connection 0 is cancelled and leaves;
    then the two handlers run again, in the order of their arrival. *)
Definition overlap : list event :=
  connect ++
  [EvAccept; EvAccept; EvRead 0 RIncomplete;
   EvHandlerResume 1 None; EvHandlerResume 2 None].

(** What [StreamReader.readexactly] raises when another coroutine already
    waits on the same reader. *)
Definition already_waiting : exn :=
  Exn RuntimeError
      "readexactly() called while another coroutine is already waiting for incoming data".

(* ===================================================================== *)
(** * The connection fields, the write lock and the bytes on the wire *)
(* ===================================================================== *)

(** Lines 85-91 have run at least once: the four fields that
    [_handle_connection] assigns hold an object. *)
Definition installed (w : world) : Prop :=
  is_Some (_writer (self w)) /\ is_Some (_reader (self w)) /\
  is_Some (_last_seen (self w)) /\ is_Some (_read_task (self w)).

(** From [w] to [w'] no connection was installed: the writer, the reader and
    the read task are the same objects, [_last_seen] was not reset, and
    [_connected] was not raised. *)
Definition calm (w w' : world) : Prop :=
  _writer (self w') = _writer (self w) /\
  _reader (self w') = _reader (self w) /\
  _read_task (self w') = _read_task (self w) /\
  (is_Some (_last_seen (self w)) -> is_Some (_last_seen (self w'))) /\
  (_connected (self w') = true -> _connected (self w) = true).

Ltac calm_same := by (repeat split; cbn; eauto).

(** The call is inside [async with self._lock] (lines 156-158): it wrote its
    frame and awaits [drain()]. *)
Definition in_drain (c : call) : bool :=
  match c with
  | Call _ AtDrain _ => true
  | _ => false
  end.

(** How many calls are inside [async with self._lock]. *)
Fixpoint drains (cs : list call) : nat :=
  match cs with
  | [] => 0
  | c :: rest => (if in_drain c then 1 else 0) + drains rest
  end.

(** What was handed to [write()] on each connection. *)
Definition outs (w : world) : list (list byte) := s_out <$> socks w.

(** From [w] to [w'] no call moved, no id was drawn, the lock was not
    touched and nothing was written: the connections of [w] hold the bytes
    they held, and the connections accepted since hold none. *)
Definition aside (w w' : world) : Prop :=
  calls w' = calls w /\ _lock (self w') = _lock (self w) /\
  uuid_calls w' = uuid_calls w /\
  exists n, outs w' = outs w ++ replicate n [].

Ltac aside_same :=
  by (split; [|split; [|split]]; [done | done | done | exists 0; cbn; by rewrite app_nil_r]).

(** The lock is held exactly by the calls inside [async with self._lock],
    and by one at most. *)
Definition lock_counted (w : world) : Prop :=
  drains (calls w) = if _lock (self w) then 1 else 0.

Section Registered.
Context `{Env}.

(** The locals of the call that [send_command] makes in [w], and the world
    after lines 141-149: the id is drawn, the future is created and
    registered. *)
Definition new_locals (cmd : string) (tmo : Z) (w : world) : locals :=
  Locals (uuid4 (uuid_calls w)) (length (futs w)) cmd tmo.

Definition registered (cmd : string) (tmo : Z) (w : world) : world :=
  let l := new_locals cmd tmo w in
  let w1 := on_self (set_pending (<[req_id l := fut l]> (_pending (self w))))
              (set_futs (futs w ++ [FPending]) (set_uuid_calls (S (uuid_calls w)) w)) in
  set_calls (calls w1 ++ [Call l AtWait NoCancel]) w1.

End Registered.

Section Wire.
Context `{Env}.

(** [d] is the frame of a request that carries one of the first [n] ids. *)
Definition request_frame (n : nat) (d : list byte) : Prop :=
  exists i cmd params, i < n /\ encode (request (uuid4 i) cmd params) = Ok d.

(** [out] is a sequence of such frames, one after the other. *)
Definition framed (n : nat) (out : list byte) : Prop :=
  exists ds, out = concat ds /\ Forall (request_frame n) ds.

(** Every call that waits for the lock holds a whole frame. *)
Definition waiting_ok (n : nat) (cs : list call) : Prop :=
  forall k l data c, cs !! k = Some (Call l (AtLock data) c) -> request_frame n data.

(** Every connection was handed whole frames only, and the calls that wait
    for the lock will write whole frames. *)
Definition wire_ok (w : world) : Prop :=
  Forall (framed (uuid_calls w)) (outs w) /\ waiting_ok (uuid_calls w) (calls w).

End Wire.



(* ===================================================================== *)
(** * server/api.py: the endpoints *)
(* ===================================================================== *)

Module Routes.

(** What an endpoint of lines 68-149 hands to [_cmd] (the command, the
    params, and the timeout, [10.0] when it gives none), and the value it
    returns when the response has no ["data"]. *)
Record route := Route {
  r_command : string;
  r_params : option json;
  r_timeout : Z;
  r_default : json;
}.

(** Lines 97-101 of [get_history]: only the bounds that are not [None]
    enter the dict. *)
Definition history_params (from_ts to_ts : option Z) : json :=
  JObj (match from_ts with Some v => [("from_ts", JInt v)] | None => [] end
        ++ match to_ts with Some v => [("to_ts", JInt v)] | None => [] end).

Definition get_account : route := Route "account_info" None 10 (JObj []).
Definition get_positions : route := Route "positions" None 10 (JArr []).
Definition get_orders : route := Route "orders" None 10 (JArr []).
Definition get_history (from_ts to_ts : option Z) : route :=
  Route "history" (Some (history_params from_ts to_ts)) 15 (JArr []).
Definition get_symbol (name : string) : route :=
  Route "symbol_info" (Some (JObj [("symbol", JStr name)])) 10 (JObj []).
Definition list_symbols : route := Route "symbols_list" None 15 (JArr []).
Definition get_tick (symbol : string) : route :=
  Route "tick" (Some (JObj [("symbol", JStr symbol)])) 10 (JObj []).

Section WithEnv.
Context `{Env}.

(** The call of [bridge.send_command] that the endpoint makes through
    [_cmd]. *)
Definition ask (r : route) (w : world) : world :=
  send_command (r_command r) (r_params r) (r_timeout r) w.

(** The message of that call (lines 142-144 of bridge.py). *)
Definition message (rid : string) (r : route) : json :=
  request rid (r_command r) (r_params r).

End WithEnv.

(** What the endpoint returns, from what [send_command] returned or
    raised: [resp.get("data", default)] on what [_cmd] returns. *)
Definition answer (r : route) (sent : result json) : result json :=
  resp <- Api._cmd sent ;;
  get_default resp "data" (r_default r).

(** [HealthStatus] of models.py, with the values [health()] gives its
    fields. *)
Record HealthStatus := MkHealth {
  server : string;
  ea_connected : bool;
  ea_last_seen : option Z;
  mt5_running : bool;
  uptime : Z;
}.

(** Lines 286-303.  [pgrep]: the return code of [subprocess.run], or what
    it raised; [start_time]: the module's [_start_time]. *)
Definition health (pgrep : result Z) (start_time : Z) (w : world) : result HealthStatus :=
  running <- match pgrep with
             | Ok returncode => Ok (returncode =? 0)%Z
             | Raise e => if isinstance e Exception then Ok false else Raise e
             end ;;
  Ok (MkHealth "running" (_connected (self w)) (_last_seen (self w)) running
        (now w - start_time)).

End Routes.

(* ===================================================================== *)
(** * Schedules of the further examples *)
(* ===================================================================== *)

(** After [connect], a call has written its request and is in [drain()]. *)
Definition sending : list event := connect ++ [EvSend "account_info" None 10].

(** The header that declares [n] bytes. *)
Definition header_for (n : Z) : list byte :=
  match pack_u32 n with
  | Ok h => h
  | Raise _ => []
  end.

(** After [one_pending], the peer sent a header that declares [n] bytes. *)
Definition body_awaited (n : Z) : list event :=
  one_pending ++ [EvRead 0 (RData (header_for n))].


(* ===================================================================== *)
(** * Python text, for the two scripts *)
(* ===================================================================== *)

(** The scripts work on [str] values.  A text is modelled as the list of its
    characters, over the code points below 256 (ASCII and Latin-1, which
    covers the chart files and reports the scripts are written for); the
    methods below are Python's on such texts. *)
Module Text.

Definition txt (s : string) : list ascii := list_ascii_of_string s.

(** ["\n"] *)
Definition nl : list ascii := [ascii_of_nat 10].

(** [c.isspace()]: TAB to CR, FS to US, the space, NEL and the
    no-break space. *)
Definition isspace (c : ascii) : bool :=
  let n := nat_of_ascii c in
  (9 <=? n) && (n <=? 13) || (28 <=? n) && (n <=? 32) || (n =? 133) || (n =? 160).

(** [c.lower()]: the capital letters of ASCII and of Latin-1 (the
    multiplication sign, 215, is not a letter). *)
Definition lower_char (c : ascii) : ascii :=
  let n := nat_of_ascii c in
  if (65 <=? n) && (n <=? 90) || (192 <=? n) && (n <=? 222) && negb (n =? 215)
  then ascii_of_nat (n + 32)
  else c.

(** [s.lower()] *)
Definition lower (s : list ascii) : list ascii := map lower_char s.

(** [s.startswith(p)] *)
Fixpoint startswith (p s : list ascii) : bool :=
  match p, s with
  | [], _ => true
  | a :: p', b :: s' => Ascii.eqb a b && startswith p' s'
  | _ :: _, [] => false
  end.

(** [sub in s] *)
Fixpoint contains (sub s : list ascii) : bool :=
  startswith sub s ||
  match s with
  | [] => false
  | _ :: s' => contains sub s'
  end.

(** The highest index at which [sub] occurs in [s], the first character of
    [s] having index [i]. *)
Fixpoint rfind_from (i : nat) (sub s : list ascii) : option nat :=
  match s with
  | [] => if startswith sub [] then Some i else None
  | _ :: s' =>
      match rfind_from (S i) sub s' with
      | Some j => Some j
      | None => if startswith sub s then Some i else None
      end
  end.

(** [s.rfind(sub)]: [-1] when [sub] does not occur. *)
Definition rfind (s sub : list ascii) : Z :=
  match rfind_from 0 sub s with
  | Some i => Z.of_nat i
  | None => (-1)%Z
  end.

(** [s.lstrip()], [s.rstrip()], [s.strip()] *)
Fixpoint lstrip (s : list ascii) : list ascii :=
  match s with
  | c :: rest => if isspace c then lstrip rest else s
  | [] => []
  end.

Definition rstrip (s : list ascii) : list ascii := rev (lstrip (rev s)).

Definition strip (s : list ascii) : list ascii := rstrip (lstrip s).

(** [s.rstrip(ch)] for one character [ch]. *)
Fixpoint lstrip_char (ch : ascii) (s : list ascii) : list ascii :=
  match s with
  | c :: rest => if Ascii.eqb c ch then lstrip_char ch rest else s
  | [] => []
  end.

Definition rstrip_char (ch : ascii) (s : list ascii) : list ascii :=
  rev (lstrip_char ch (rev s)).

(** [s.replace(ch, '')] for one character [ch]. *)
Definition remove_char (ch : ascii) (s : list ascii) : list ascii :=
  List.filter (fun c => negb (Ascii.eqb c ch)) s.

End Text.

(* ===================================================================== *)
(** * scripts/setup_bridge_chart.py *)
(* ===================================================================== *)

Module Chart.
Import Text.

Definition EA_NAME : list ascii := txt "BridgeEA".

(** [EXPERT_SECTION.format(ea_name=ea_name, host=host, port=port)], lines
    17-29. *)
Definition EXPERT_SECTION (ea_name host port : list ascii) : list ascii :=
  txt "<expert>" ++ nl ++
  txt "name=" ++ ea_name ++ nl ++
  txt "path=" ++ nl ++
  txt "flags=339" ++ nl ++
  txt "window_num=0" ++ nl ++
  txt "<inputs>" ++ nl ++
  txt "InpHost=" ++ host ++ nl ++
  txt "InpPort=" ++ port ++ nl ++
  txt "InpTimerMs=100" ++ nl ++
  txt "InpReconnectS=5" ++ nl ++
  txt "</inputs>" ++ nl ++
  txt "</expert>" ++ nl.

(** Lines 113-115. *)
Definition has_bridge_ea (text : list ascii) : bool :=
  contains (lower EA_NAME) (lower text).

(** Lines 118-127. *)
Definition inject_expert (text host port : list ascii) : list ascii :=
  let section := EXPERT_SECTION EA_NAME host port in
  let close_tag := txt "</chart>" in
  let idx := rfind text close_tag in
  if (idx <? 0)%Z
  then text ++ nl ++ section ++ nl ++ close_tag ++ nl
  else take (Z.to_nat idx) text ++ section ++ nl ++ drop (Z.to_nat idx) text.

End Chart.

(* ===================================================================== *)
(** * scripts/parse_report.py *)
(* ===================================================================== *)

Module Report.
Import Text.

(** ** int(s) on a text *)

Definition digit_value (c : ascii) : option Z :=
  let n := nat_of_ascii c in
  if (48 <=? n) && (n <=? 57) then Some (Z.of_nat (n - 48)) else None.

(** The digits of a literal, most significant first: one digit or more,
    with single underscores allowed between digits. *)
Fixpoint literal_digits (after_digit : bool) (s : list ascii) : option (list Z) :=
  match s with
  | [] => if after_digit then Some [] else None
  | c :: rest =>
      match digit_value c with
      | Some d => cons d <$> literal_digits true rest
      | None =>
          if Ascii.eqb c "_" && after_digit
          then match rest with
               | [] => None
               | _ :: _ => literal_digits false rest
               end
          else None
      end
  end.

Definition invalid_literal : exn := Exn ValueError "invalid literal for int() with base 10".

(** [int(s)] for a [str]: blanks around the literal are dropped, a sign
    may come first, and a literal of more than 4300 digits is refused. *)
Definition py_int (s : list ascii) : result Z :=
  let s1 := strip s in
  let '(negative, s2) :=
    match s1 with
    | c :: rest =>
        if Ascii.eqb c "-" then (true, rest)
        else if Ascii.eqb c "+" then (false, rest)
        else (false, s1)
    | [] => (false, s1)
    end in
  match literal_digits false s2 with
  | Some ds =>
      if 4300 <? length ds
      then Raise (Exn ValueError "Exceeds the limit (4300 digits) for integer string conversion")
      else let v := fold_left (fun acc d => 10 * acc + d)%Z ds 0%Z in
           Ok (if negative then - v else v)%Z
  | None => Raise invalid_literal
  end.

(** [int(v)] for what [attrs_dict.get('colspan', '1')] gives: a text, or
    [None] for an attribute written without a value. *)
Definition int_of_attr (v : option (list ascii)) : result Z :=
  match v with
  | Some s => py_int s
  | None => Raise (Exn TypeError "int() argument must be a string, a bytes-like object or a real number, not 'NoneType'")
  end.

(** ** class MT5ReportParser *)

(** The attributes of [__init__], lines 17-24. *)
Record parser := MkParser {
  tables : list (list (list (list ascii)));
  _current_table : option (list (list (list ascii)));
  _current_row : option (list (list ascii));
  _current_cell : option (list ascii);
  _in_cell : bool;
  _cell_colspan : Z;
  _in_bold : bool;
  _depth : Z;
}.

Definition new_parser : parser :=
  MkParser [] None None None false 1 false 0.

(** [dict(attrs).get(k, d)]: of two attributes with one name the later
    counts. *)
Fixpoint attrs_get (k : list ascii) (d : option (list ascii))
    (attrs : list (list ascii * option (list ascii))) : option (list ascii) :=
  match attrs with
  | [] => d
  | (k', v) :: rest => attrs_get k (if bool_decide (k' = k) then v else d) rest
  end.

Definition is_cell_tag (tag : list ascii) : bool :=
  bool_decide (tag = txt "td") || bool_decide (tag = txt "th").

(** Lines 26-38. *)
Definition handle_starttag (tag : list ascii)
    (attrs : list (list ascii * option (list ascii))) (p : parser) : result parser :=
  if bool_decide (tag = txt "table") then
    Ok (MkParser (tables p) (Some []) (_current_row p) (_current_cell p) (_in_cell p)
          (_cell_colspan p) (_in_bold p) 0)
  else if bool_decide (tag = txt "tr") && bool_decide (is_Some (_current_table p)) then
    Ok (MkParser (tables p) (_current_table p) (Some []) (_current_cell p) (_in_cell p)
          (_cell_colspan p) (_in_bold p) (_depth p))
  else if is_cell_tag tag && bool_decide (is_Some (_current_row p)) then
    colspan <- int_of_attr (attrs_get (txt "colspan") (Some (txt "1")) attrs) ;;
    Ok (MkParser (tables p) (_current_table p) (_current_row p) (Some []) true
          colspan (_in_bold p) (_depth p))
  else if bool_decide (tag = txt "b") then
    Ok (MkParser (tables p) (_current_table p) (_current_row p) (_current_cell p) (_in_cell p)
          (_cell_colspan p) true (_depth p))
  else Ok p.

Definition none_has_no (attr : string) : exn :=
  Exn AttributeError ("'NoneType' object has no attribute '" +:+ attr +:+ "'").

(** Lines 40-57. *)
Definition handle_endtag (tag : list ascii) (p : parser) : result parser :=
  if is_cell_tag tag && _in_cell p then
    match _current_cell p with
    | None => Raise (none_has_no "strip")
    | Some cell =>
        match _current_row p with
        | None => Raise (none_has_no "append")
        | Some row =>
            let row' := row ++ [strip cell]
                            ++ replicate (Z.to_nat (_cell_colspan p - 1)) [] in
            Ok (MkParser (tables p) (_current_table p) (Some row') None false
                  (_cell_colspan p) (_in_bold p) (_depth p))
        end
    end
  else if bool_decide (tag = txt "tr") && bool_decide (is_Some (_current_row p)) then
    match _current_row p with
    | Some (c :: cs) =>
        match _current_table p with
        | None => Raise (none_has_no "append")
        | Some t =>
            Ok (MkParser (tables p) (Some (t ++ [c :: cs])) None (_current_cell p) (_in_cell p)
                  (_cell_colspan p) (_in_bold p) (_depth p))
        end
    | _ =>
        Ok (MkParser (tables p) (_current_table p) None (_current_cell p) (_in_cell p)
              (_cell_colspan p) (_in_bold p) (_depth p))
    end
  else if bool_decide (tag = txt "table") && bool_decide (is_Some (_current_table p)) then
    match _current_table p with
    | Some t =>
        Ok (MkParser (tables p ++ [t]) None (_current_row p) (_current_cell p) (_in_cell p)
              (_cell_colspan p) (_in_bold p) (_depth p))
    | None => Ok p
    end
  else if bool_decide (tag = txt "b") then
    Ok (MkParser (tables p) (_current_table p) (_current_row p) (_current_cell p) (_in_cell p)
          (_cell_colspan p) false (_depth p))
  else Ok p.

(** Lines 59-61. *)
Definition handle_data (data : list ascii) (p : parser) : parser :=
  match _current_cell p with
  | Some cell =>
      if _in_cell p
      then MkParser (tables p) (_current_table p) (_current_row p) (Some (cell ++ data))
             (_in_cell p) (_cell_colspan p) (_in_bold p) (_depth p)
      else p
  | None => p
  end.

(** What [HTMLParser.feed] hands to the three methods. *)
Inductive token :=
| StartTag (tag : list ascii) (attrs : list (list ascii * option (list ascii)))
| EndTag (tag : list ascii)
| Data (data : list ascii).

Definition handle (tk : token) (p : parser) : result parser :=
  match tk with
  | StartTag tag attrs => handle_starttag tag attrs p
  | EndTag tag => handle_endtag tag p
  | Data data => Ok (handle_data data p)
  end.

(** [parser.feed(html)], on the tokens of [html]: the first exception
    ends it. *)
Fixpoint feed (tks : list token) (p : parser) : result parser :=
  match tks with
  | [] => Ok p
  | tk :: rest => p' <- handle tk p ;; feed rest p'
  end.

(** ** find_metric (lines 83-92) *)

(** Line 87: the cell names the label, a final run of colons and the blanks
    before it aside, or it is the label up to the blanks around both. *)
Definition is_label (cell label : list ascii) : bool :=
  bool_decide (rstrip_char ":" (rstrip cell) = rstrip_char ":" (rstrip label))
  || bool_decide (strip cell = strip label).

(** Lines 89-91: the first cell of [cells] that is not blank. *)
Fixpoint first_value (cells : list (list ascii)) : option (list ascii) :=
  match cells with
  | [] => None
  | c :: rest => if bool_decide (strip c = []) then first_value rest else Some c
  end.

(** Lines 86-91, one row: the cells from the left; at each cell that names
    the label, the first value to its right, if there is one. *)
Fixpoint find_in_row (row : list (list ascii)) (label : list ascii) : option (list ascii) :=
  match row with
  | [] => None
  | cell :: rest =>
      if is_label cell label
      then match first_value rest with
           | Some v => Some v
           | None => find_in_row rest label
           end
      else find_in_row rest label
  end.

Fixpoint find_metric (rows : list (list (list ascii))) (label : list ascii)
    : option (list ascii) :=
  match rows with
  | [] => None
  | row :: rest =>
      match find_in_row row label with
      | Some v => Some v
      | None => find_metric rest label
      end
  end.

(** ** clean_number and extract_pct (lines 64-80) *)

(** [\d] and [[\d.]] of the two patterns. *)
Definition is_digit (c : ascii) : bool :=
  let n := nat_of_ascii c in (48 <=? n) && (n <=? 57).

Definition is_number_char (c : ascii) : bool := is_digit c || Ascii.eqb c ".".

(** The longest prefix of characters that satisfy [f], and the rest. *)
Fixpoint span (f : ascii -> bool) (s : list ascii) : list ascii * list ascii :=
  match s with
  | c :: rest => if f c then let '(a, b) := span f rest in (c :: a, b) else ([], s)
  | [] => ([], [])
  end.

(** [re.match(r'(-?[\d.]+)', s)]: group 1 when the pattern matches at the
    start of [s]. *)
Definition match_number (s : list ascii) : option (list ascii) :=
  match s with
  | c :: rest =>
      if Ascii.eqb c "-"
      then match fst (span is_number_char rest) with
           | [] => None
           | run => Some (c :: run)
           end
      else match fst (span is_number_char s) with
           | [] => None
           | run => Some run
           end
  | [] => None
  end.

(** [re.search(r'([\d.]+)%', s)]: group 1 of the leftmost match, a run of
    digits and dots with a percent sign right after it. *)
Fixpoint search_percent (s : list ascii) : option (list ascii) :=
  match s with
  | [] => None
  | c :: rest =>
      if is_number_char c
      then match span is_number_char s with
           | (run, d :: _) => if Ascii.eqb d "%" then Some run else search_percent rest
           | (_, []) => search_percent rest
           end
      else search_percent rest
  end.

Section Numbers.
(** [float(s)] on a text, as the interpreter computes it. *)
Variable float_of_text : list ascii -> result float.

(** Lines 64-72. *)
Definition clean_number (s : list ascii) : result float :=
  match s with
  | [] => Ok 0%float
  | _ :: _ =>
      let s1 := remove_char " " (remove_char (ascii_of_nat 160) s) in
      match match_number s1 with
      | Some m => float_of_text m
      | None => Ok 0%float
      end
  end.

(** Lines 75-80: [None] when there is no percentage. *)
Definition extract_pct (s : list ascii) : result (option float) :=
  match s with
  | [] => Ok None
  | _ :: _ =>
      match search_percent s with
      | Some m => v <- float_of_text m ;; Ok (Some v)
      | None => Ok None
      end
  end.

End Numbers.

(** ** Well-formed tables, as tokens *)

(** A cell: its tag ([td] or [th]), its attributes and the pieces of text
    between its tags. *)
Record cell := Cell {
  c_tag : list ascii;
  c_attrs : list (list ascii * option (list ascii));
  c_chunks : list (list ascii);
}.

Section Render.
(** Text between the elements (line breaks, indentation). *)
Variable gap : list (list ascii).





End Render.






End Report.

(** What every method of the parser keeps: while a cell is open its text is
    set, and no table, finished or current, holds a row without cells. *)
Definition parser_ok (p : Report.parser) : Prop :=
  (Report._in_cell p = true -> is_Some (Report._current_cell p)) /\
  Forall (Forall (fun row => row <> [])) (Report.tables p) /\
  (forall t, Report._current_table p = Some t -> Forall (fun row => row <> []) t).



(** A cell with nothing but blanks. *)
Definition blank (c : list ascii) : Prop := Text.strip c = [].

(** ** Inputs of the examples *)

(** [float(s)] on the whole numbers of the examples: an optional minus
    sign and one to fifteen digits, which a float holds exactly.  Other
    texts are not used. *)
Definition whole_float (s : list ascii) : result float :=
  let '(negative, ds) :=
    match s with
    | c :: rest => if Ascii.eqb c "-" then (true, rest) else (false, s)
    | [] => (false, s)
    end in
  if forallb Report.is_digit ds && (1 <=? length ds) && (length ds <=? 15)
  then let v := fold_left (fun acc c => 10 * acc + Z.of_nat (nat_of_ascii c - 48))%Z ds 0%Z in
       let f := PrimFloat.of_uint63 (Uint63.of_Z v) in
       Ok (if negative then PrimFloat.opp f else f)
  else Raise (Exn ValueError "a text outside the whole numbers of the examples").


(* ===================================================================== *)
(** * Lists used as stores of objects *)
(* ===================================================================== *)

Lemma lookup_snoc {A} (l : list A) (x : A) : (l ++ [x]) !! length l = Some x.
Proof. by apply list_lookup_middle. Qed.

Lemma alter_snoc {A} (f : A -> A) (l : list A) (x : A) :
  alter f (length l) (l ++ [x]) = l ++ [f x].
Proof.
  replace (length l) with (length l + 0) by lia. by rewrite alter_app_r.
Qed.

Lemma insert_snoc {A} (l : list A) (x y : A) : <[length l := y]> (l ++ [x]) = l ++ [y].
Proof.
  replace (length l) with (length l + 0) by lia. by rewrite insert_app_r.
Qed.

Lemma lookup_snoc_lt {A} (l : list A) (x : A) (i : nat) (y : A) :
  l !! i = Some y -> (l ++ [x]) !! i = Some y.
Proof. intros Hi. by apply lookup_app_l_Some. Qed.

(** [cancel()] is not called on a read task that is over. *)
Lemma cancel_read_task_done (w : world) (t : tid) (tk : task) :
  _read_task (self w) = Some t ->
  tasks w !! t = Some tk ->
  task_done tk = true ->
  cancel_read_task w = w.
Proof. intros Ht Htk Hd. unfold cancel_read_task. by rewrite Ht, Htk, Hd. Qed.

(* ===================================================================== *)
(** * Properties of the framing *)
(* ===================================================================== *)

Lemma Z_of_byte_of_Z (z : Z) : (0 <= z < 256)%Z -> Z_of_byte (byte_of_Z z) = z.
Proof.
  intros Hz. unfold Z_of_byte, byte_of_Z.
  rewrite Z.mod_small by lia.
  destruct (Byte.of_N (Z.to_N z)) as [b|] eqn:Hb; simpl.
  - apply Byte.to_of_N in Hb. rewrite Hb. lia.
  - apply Byte.of_N_None_iff in Hb. lia.
Qed.

Lemma Z_of_byte_of_Z_mod (z : Z) : Z_of_byte (byte_of_Z z) = (z mod 256)%Z.
Proof.
  assert (Hm : (0 <= z mod 256 < 256)%Z) by (apply Z.mod_pos_bound; lia).
  transitivity (Z_of_byte (byte_of_Z (z mod 256))).
  - unfold byte_of_Z. rewrite Z.mod_mod by lia. reflexivity.
  - apply Z_of_byte_of_Z, Hm.
Qed.

Lemma Z_of_byte_range (b : byte) : (0 <= Z_of_byte b < 256)%Z.
Proof.
  unfold Z_of_byte. pose proof (Byte.to_N_bounded b) as Hb. lia.
Qed.

(** A packed length is four bytes that unpack to it. *)
Lemma unpack_pack (n : Z) (header : list byte) :
  pack_u32 n = Ok header -> length header = 4 /\ unpack_u32 header = Ok n.
Proof.
  unfold pack_u32. destruct ((0 <=? n) && (n <? 2 ^ 32))%Z eqn:Hr; [|discriminate].
  intros [= <-]. split; [reflexivity|].
  apply andb_prop in Hr as [H0 H1]. apply Z.leb_le in H0. apply Z.ltb_lt in H1.
  unfold unpack_u32. f_equal.
  rewrite !Z_of_byte_of_Z_mod.
  change (2 ^ 32)%Z with 4294967296%Z in H1.
  change (2 ^ 24)%Z with 16777216%Z. change (2 ^ 16)%Z with 65536%Z.
  change (2 ^ 8)%Z with 256%Z.
  pose proof (Z.div_mod n 256 ltac:(lia)) as E0.
  pose proof (Z.mod_pos_bound n 256 ltac:(lia)) as B0.
  pose proof (Z.div_mod (n / 256) 256 ltac:(lia)) as E1.
  pose proof (Z.mod_pos_bound (n / 256) 256 ltac:(lia)) as B1.
  pose proof (Z.div_mod (n / 256 / 256) 256 ltac:(lia)) as E2.
  pose proof (Z.mod_pos_bound (n / 256 / 256) 256 ltac:(lia)) as B2.
  assert (D2 : (n / 65536 = n / 256 / 256)%Z)
    by (rewrite Z.div_div by lia; reflexivity).
  assert (D3 : (n / 16777216 = n / 256 / 256 / 256)%Z)
    by (rewrite !Z.div_div by lia; reflexivity).
  rewrite D2, D3.
  assert (S3 : (0 <= n / 256 / 256 / 256 < 256)%Z).
  { rewrite <- D3. split; [apply Z.div_pos; lia | apply Z.div_lt_upper_bound; lia]. }
  rewrite (Z.mod_small (n / 256 / 256 / 256)) by lia.
  lia.
Qed.

Lemma pack_in_range (n : Z) :
  (0 <= n < 2 ^ 32)%Z -> exists header, pack_u32 n = Ok header.
Proof.
  intros [H0 H1]. unfold pack_u32.
  apply Z.leb_le in H0. apply Z.ltb_lt in H1. rewrite H0, H1. simpl. eauto.
Qed.

Lemma readexactly_app (a b : list byte) :
  readexactly (length a) (a ++ b) = (RData a, b).
Proof.
  unfold readexactly. rewrite decide_True by (rewrite length_app; lia).
  rewrite take_app_length, drop_app_length. reflexivity.
Qed.

Lemma readexactly_short (n : nat) (s : list byte) :
  length s < n -> readexactly n s = (RIncomplete, []).
Proof. intros Hn. unfold readexactly. rewrite decide_False by lia. reflexivity. Qed.

Section FrameFacts.
Context `{Env}.

(** What the decoder does with a packed length followed by anything. *)
Lemma decode_header (n : Z) (header s : list byte) :
  pack_u32 n = Ok header ->
  decode (header ++ s) =
    if (MAX_MESSAGE <? n)%Z then (FrTooLarge n, s)
    else match readexactly (Z.to_nat n) s with
         | (RData data, s2) =>
             match json_loads data with
             | Ok msg => (FrMsg msg, s2)
             | Raise e => (FrError e, s2)
             end
         | (RIncomplete, s2) => (FrIncomplete, s2)
         | (RError e, s2) => (FrError e, s2)
         end.
Proof.
  intros Hp. destruct (unpack_pack _ _ Hp) as [Hl Hu].
  unfold decode. change HEADER_SIZE with 4. rewrite <- Hl, readexactly_app.
  unfold check_header. rewrite Hu. destruct (MAX_MESSAGE <? n)%Z; reflexivity.
Qed.

(** The encoder puts the packed length of the body before the body. *)
Lemma encode_frame (e : json) (body : list byte) :
  json_dumps e = Ok body ->
  (Z.of_nat (length body) < 2 ^ 32)%Z ->
  exists header, pack_u32 (Z.of_nat (length body)) = Ok header /\
                 encode e = Ok (header ++ body).
Proof.
  intros Hd Hl. destruct (pack_in_range (Z.of_nat (length body))) as [h Hh]; [lia|].
  exists h. split; [exact Hh|]. unfold encode. rewrite Hd. simpl. rewrite Hh. reflexivity.
Qed.

(** A body over the limit is written by the encoder and given up by the
    decoder after the header, the body left unread. *)
Lemma decode_over_limit (e : json) (body : list byte) :
  json_dumps e = Ok body ->
  (MAX_MESSAGE < Z.of_nat (length body) < 2 ^ 32)%Z ->
  exists header, encode e = Ok (header ++ body) /\
                 decode (header ++ body) = (FrTooLarge (Z.of_nat (length body)), body).
Proof.
  intros Hd [Hlo Hhi]. destruct (encode_frame e body Hd Hhi) as (h & Hp & He).
  exists h. split; [exact He|]. rewrite (decode_header _ _ _ Hp).
  apply Z.ltb_lt in Hlo. rewrite Hlo. reflexivity.
Qed.

(** C6 (amended): for every envelope [e] that the JSON library serializes
    to [body] and parses back from it, with [body] of at most 1,000,000
    bytes, the encoder produces a 4-byte big-endian length of [body]
    followed by [body], and decoding these bytes (with whatever follows on
    the stream left in place) yields [e]. *)
Theorem roundtrip_within_limit (e : json) (body : list byte) :
  json_dumps e = Ok body ->
  json_loads body = Ok e ->
  (Z.of_nat (length body) <= MAX_MESSAGE)%Z ->
  exists header,
    encode e = Ok (header ++ body) /\
    length header = 4 /\
    unpack_u32 header = Ok (Z.of_nat (length body)) /\
    forall rest, decode (header ++ body ++ rest) = (FrMsg e, rest).
Proof.
  intros Hd Hl Hmax. unfold MAX_MESSAGE in Hmax.
  destruct (encode_frame e body Hd) as (h & Hp & He); [lia|].
  destruct (unpack_pack _ _ Hp) as [Hlen Hu].
  exists h. repeat split; try assumption.
  intros rest. rewrite (decode_header _ _ _ Hp).
  replace (MAX_MESSAGE <? Z.of_nat (length body))%Z with false
    by (symmetry; apply Z.ltb_ge; unfold MAX_MESSAGE; lia).
  rewrite Nat2Z.id, readexactly_app, Hl. reflexivity.
Qed.

End FrameFacts.

(** ** The framing on the reference environment *)

(** [length (s.encode())] of an ASCII text. *)
Lemma length_bytes (s : string) : length (list_byte_of_string s) = String.length s.
Proof. unfold list_byte_of_string. rewrite length_map. induction s; simpl; auto. Qed.

Lemma length_append (s1 s2 : string) :
  String.length (s1 +:+ s2) = String.length s1 + String.length s2.
Proof. induction s1; simpl; auto. Qed.

Lemma length_String (c : ascii) (s : string) : String.length (String c s) = S (String.length s).
Proof. reflexivity. Qed.

Lemma length_blob (n : nat) : String.length (blob n) = n.
Proof. unfold blob. induction n; simpl; auto. Qed.

Lemma dumps_str_blob (n : nat) :
  Ref.dumps_str (blob n) = Ok (String Ref.dquote (blob n +:+ String Ref.dquote "")).
Proof.
  unfold Ref.dumps_str, blob. rewrite list_ascii_of_string_of_list_ascii.
  replace (forallb Ref.is_ascii (replicate n "a"%char)) with true
    by (induction n; simpl; auto).
  do 3 f_equal.
  induction n as [|n IH]; [reflexivity|].
  simpl replicate. simpl map. simpl string_of_list_ascii.
  destruct n; [reflexivity|]. simpl in *. rewrite IH. reflexivity.
Qed.

(** The serialized upload request is 61 bytes around the blob. *)
Lemma upload_body (n : nat) :
  exists body, @json_dumps Ref.env (upload n) = Ok body /\ length body = n + 61.
Proof.
  unfold upload, request. simpl truthy. cbn [app].
  unfold json_dumps, Ref.env.
  cbn [Ref.dumps bind]. rewrite dumps_str_blob.
  eexists. split.
  - cbv -[blob String.append list_byte_of_string]. reflexivity.
  - rewrite length_bytes.
    repeat first [rewrite length_append | rewrite length_String | rewrite length_blob].
    change (String.length "") with 0. lia.
Qed.

(** C6, witness: the [account_info] request round-trips. *)
Lemma roundtrip_within_limit_witness :
  exists header,
    @encode Ref.env account_info = Ok (header ++ body_of account_info) /\
    length header = 4 /\
    unpack_u32 header = Ok (Z.of_nat (length (body_of account_info))) /\
    forall rest, @decode Ref.env (header ++ body_of account_info ++ rest) = (FrMsg account_info, rest).
Proof.
  apply (@roundtrip_within_limit Ref.env account_info (body_of account_info));
    by vm_compute.
Defined.

(** C6, counterexample: a JSON-serializable request with a blob of 1,000,000
    characters is encoded (its body has 1,000,061 bytes), and the decoder
    gives the frame up as too large after the header: decoding does not
    yield the envelope. *)
Lemma roundtrip_fails_over_limit :
  exists header body,
    @json_dumps Ref.env (upload mega) = Ok body /\
    @encode Ref.env (upload mega) = Ok (header ++ body) /\
    @decode Ref.env (header ++ body) = (FrTooLarge 1000061, body).
Proof.
  destruct (upload_body mega) as (body & Hd & Hl).
  assert (HZ : Z.of_nat (length body) = 1000061%Z).
  { rewrite Hl. unfold mega. lia. }
  destruct (@decode_over_limit Ref.env (upload mega) body Hd) as (h & He & Hdec).
  { rewrite HZ. unfold MAX_MESSAGE. lia. }
  exists h, body. rewrite HZ in Hdec. auto.
Qed.

(* ===================================================================== *)
(** * send_command without a live connection; start; what a resolved call
      hands to its caller *)
(* ===================================================================== *)

Section CallFacts.
Context `{Env}.

(** C7: when the facade is not connected or has no writer, [send_command]
    raises [ConnectionError("EA not connected")] at once: no id is drawn
    from [uuid4], no future is created, the pending table and every other
    field of the bridge are as before, and nothing is written to a socket. *)
Theorem send_command_not_connected (cmd : string) (params : option json) (tmo : Z) (w : world) :
  _connected (self w) = false \/ _writer (self w) = None ->
  calls (send_command cmd params tmo w)
    = calls w ++ [RaisedEarly (Exn ConnectionError "EA not connected")] /\
  Api.outcome (RaisedEarly (Exn ConnectionError "EA not connected"))
    = Some (Raise (Exn ConnectionError "EA not connected")) /\
  uuid_calls (send_command cmd params tmo w) = uuid_calls w /\
  self (send_command cmd params tmo w) = self w /\
  futs (send_command cmd params tmo w) = futs w /\
  socks (send_command cmd params tmo w) = socks w.
Proof.
  intros Hno. unfold send_command.
  assert (Hc : negb (_connected (self w)) || negb (bool_decide (is_Some (_writer (self w)))) = true).
  { destruct Hno as [-> | ->]; [reflexivity|].
    rewrite bool_decide_eq_false_2 by (intros [? ?]; discriminate).
    apply orb_true_r. }
  rewrite Hc. simpl. auto 10.
Qed.

(** C9 (amended): [start()] has no guard on an earlier start.  When the bind
    succeeds, the call returns, a new listener is open and stored in
    [_server] whatever [_server] held, the listeners opened before stay as
    they were, and connections are accepted from then on.  When the bind
    raises, that exception is what [start()] raises, and nothing changes. *)
Theorem start_has_no_guard (w : world) (e : exn) :
  (snd (start None w) = Ok tt /\
   _server (self (fst (start None w))) = Some (length (listeners w)) /\
   listeners (fst (start None w)) = listeners w ++ [true] /\
   is_Some (step (fst (start None w)) EvAccept)) /\
  start (Some e) w = (w, Raise e).
Proof.
  split; [|reflexivity]. simpl. repeat split.
  rewrite existsb_app. simpl. rewrite orb_true_r. eauto.
Qed.



(** The usual path of a call: connected, the lock free, the request
    serialized.  The call draws one id, registers a fresh future under it,
    writes the frame to the current writer and waits in [drain()]. *)
Lemma send_command_writes (cmd : string) (params : option json) (tmo : Z) (w : world)
    (wr : conn) (data : list byte) :
  _connected (self w) = true ->
  _writer (self w) = Some wr ->
  _lock (self w) = false ->
  encode (request (uuid4 (uuid_calls w)) cmd params) = Ok data ->
  calls (send_command cmd params tmo w)
    = calls w ++ [Call (Locals (uuid4 (uuid_calls w)) (length (futs w)) cmd tmo) AtDrain NoCancel] /\
  _pending (self (send_command cmd params tmo w))
    = <[uuid4 (uuid_calls w) := length (futs w)]> (_pending (self w)) /\
  futs (send_command cmd params tmo w) = futs w ++ [FPending] /\
  socks (send_command cmd params tmo w) = write_sock_list wr data (socks w) /\
  uuid_calls (send_command cmd params tmo w) = S (uuid_calls w) /\
  _lock (self (send_command cmd params tmo w)) = true.
Proof.
  intros Hc Hw Hl He. unfold send_command. rewrite Hc, Hw. cbn.
  rewrite He. cbn. rewrite Hl. unfold write_frame. cbn. rewrite Hw. cbn.
  rewrite insert_snoc. done.
Qed.

End CallFacts.

(** ** Runs on the reference environment *)

(** C7, witness: a call on the fresh bridge. *)
Lemma send_command_not_connected_witness :
  (_connected (self init) = false \/ _writer (self init) = None) /\
  calls (@send_command Ref.env "account_info" None 10 init)
    = [RaisedEarly (Exn ConnectionError "EA not connected")] /\
  uuid_calls (@send_command Ref.env "account_info" None 10 init) = 0 /\
  self (@send_command Ref.env "account_info" None 10 init) = self init.
Proof.
  pose proof (@send_command_not_connected Ref.env "account_info" None 10 init
                (or_introl eq_refl)) as (Hc & _ & Hu & Hs & _).
  split; [left; reflexivity|]. split; [exact Hc|]. split; [exact Hu | exact Hs].
Defined.

(** C9, counterexample: two calls of [start()] with no [stop()] between,
    each bind granted by the system (as with port 0): the second call
    returns as the first did, no error is raised, and two listeners are
    open. *)
Lemma second_start_succeeds :
  snd (start None init) = Ok tt /\
  snd (start None (fst (start None init))) = Ok tt /\
  _server (self (fst (start None (fst (start None init))))) = Some 1 /\
  listeners (fst (start None (fst (start None init)))) = [true; true].
Proof. repeat split. Qed.



(* ===================================================================== *)
(** * Failing every pending request *)
(* ===================================================================== *)

(** The loop of lines 62-64 and 129-131 never raises: it writes the
    exception into the futures of the list that are not done and into no
    other. *)
Lemma fail_all_spec (e : exn) (fids : list fid) (fs : list fut_state) :
  exists fs',
    fail_all e fids fs = Ok fs' /\
    length fs' = length fs /\
    forall f, fs' !! f =
              match fs !! f with
              | Some FPending => Some (if bool_decide (f ∈ fids) then FExc e else FPending)
              | o => o
              end.
Proof.
  revert fs. induction fids as [|a rest IH]; intros fs; simpl.
  - exists fs. repeat split. intros f. by destruct (fs !! f) as [[]|].
  - unfold fut_done at 1. destruct (fs !! a) as [st|] eqn:Ha.
    + destruct (is_done st) eqn:Hd.
      * destruct (IH fs) as (fs' & -> & Hl & Hf). exists fs'. repeat split; [done|].
        intros f. rewrite Hf. destruct (fs !! f) as [[]|] eqn:Hff; try done.
        assert (f ≠ a) by (intros ->; simplify_eq/=).
        by rewrite (bool_decide_ext (f ∈ a :: rest) (f ∈ rest)) by set_solver.
      * destruct st; try discriminate.
        unfold set_exception, fut_done. rewrite Ha. simpl.
        destruct (IH (<[a := FExc e]> fs)) as (fs' & -> & Hl & Hf).
        exists fs'. split; [done|]. split; [by rewrite Hl, length_insert|].
        intros f. rewrite Hf. destruct (decide (f = a)) as [->|Hne].
        -- rewrite list_lookup_insert_eq by (eapply lookup_lt_Some, Ha).
           rewrite Ha. rewrite bool_decide_eq_true_2 by set_solver. done.
        -- rewrite list_lookup_insert_ne by done.
           destruct (fs !! f) as [[]|]; try done.
           by rewrite (bool_decide_ext (f ∈ a :: rest) (f ∈ rest)) by set_solver.
    + destruct (IH fs) as (fs' & -> & Hl & Hf). exists fs'. repeat split; [done|].
      intros f. rewrite Hf. destruct (fs !! f) as [[]|] eqn:Hff; try done.
      assert (f ≠ a) by (intros ->; simplify_eq/=).
      by rewrite (bool_decide_ext (f ∈ a :: rest) (f ∈ rest)) by set_solver.
Qed.

Lemma elem_of_values (m : gmap string fid) (f : fid) :
  f ∈ values m <-> exists k, m !! k = Some f.
Proof.
  unfold values. rewrite list_elem_of_fmap. split.
  - intros [[k f'] [-> Hin]]. exists k. by apply elem_of_map_to_list.
  - intros [k Hk]. exists (k, f). split; [done|]. by apply elem_of_map_to_list.
Qed.

Lemma fail_all_drains (e : exn) (w : world) :
  exists fs,
    fail_all e (values (_pending (self w))) (futs w) = Ok fs /\
    forall w', _connected (self w') = false -> _pending (self w') = ∅ -> futs w' = fs ->
               drained e w w'.
Proof.
  destruct (fail_all_spec e (values (_pending (self w))) (futs w)) as (fs & Hfa & _ & Hf).
  exists fs. split; [done|]. intros w' Hc Hp Hfs. repeat split; try done.
  - intros k f Hk Hpend. rewrite Hfs, Hf, Hpend.
    rewrite bool_decide_eq_true_2; [done|]. apply elem_of_values. eauto.
  - intros f st Hst Hd. rewrite Hfs, Hf, Hst. by destruct st.
  - intros f Hno. rewrite Hfs, Hf. destruct (futs w !! f) as [[]|]; try done.
    rewrite bool_decide_eq_false_2; [done|]. rewrite elem_of_values. intros [k Hk].
    by apply (Hno k).
Qed.

(** The [finally] block of the read loop. *)
Lemma read_loop_finally_drains (final : task_state) (t : tid) (w : world) :
  drained (Exn ConnectionError "EA disconnected") w (read_loop_finally final t w) /\
  tasks (read_loop_finally final t w) = alter (fun _ => Task final false) t (tasks w) /\
  socks (read_loop_finally final t w) = socks w /\
  listeners (read_loop_finally final t w) = listeners w /\
  calls (read_loop_finally final t w) = calls w /\
  log (read_loop_finally final t w) = log w.
Proof.
  unfold read_loop_finally.
  destruct (fail_all_drains (Exn ConnectionError "EA disconnected") w) as (fs & Hfa & Hdr).
  simpl. rewrite Hfa. split; [by apply Hdr|]. done.
Qed.


(* ===================================================================== *)
(** * A header over the limit *)
(* ===================================================================== *)

Section OversizeFacts.
Context `{Env}.

(** Line 101-103: the loop logs and leaves through the [finally] block. *)
Lemma oversize_step (w : world) (t : tid) (r : conn) (header : list byte) (n : Z) :
  tasks w !! t = Some (Task (THeader r) false) ->
  length header = 4 ->
  unpack_u32 header = Ok n ->
  (MAX_MESSAGE < n)%Z ->
  step w (EvRead t (RData header)) = Some (read_loop_finally TDone t (logged (LogTooLarge n) w)).
Proof.
  intros Ht Hl Hu Hn. simpl. unfold read_loop_resume. rewrite Ht, Hl. simpl.
  unfold check_header. rewrite Hu. apply Z.ltb_lt in Hn. rewrite Hn. reflexivity.
Qed.

(** The end of the stream at the same point leaves through the same
    block. *)
Lemma eof_step (w : world) (t : tid) (r : conn) :
  tasks w !! t = Some (Task (THeader r) false) ->
  step w (EvRead t RIncomplete) = Some (read_loop_finally TDone t (logged LogIncompleteRead w)).
Proof. intros Ht. simpl. unfold read_loop_resume. rewrite Ht. reflexivity. Qed.

(** A connection accepted while a writer is installed and the read task is
    over: after the handler and the first step of the new read loop, the new
    connection is the current one. *)
Lemma reconnect (w : world) (old : conn) (t : tid) (tk : task) :
  existsb id (listeners w) = true ->
  _writer (self w) = Some old ->
  old < length (socks w) ->
  _read_task (self w) = Some t ->
  tasks w !! t = Some tk ->
  task_done tk = true ->
  exists w2,
    run [EvAccept; EvHandlerResume (length (handlers w)) None; EvTaskStart (length (tasks w))] w
      = Some w2 /\
    _writer (self w2) = Some (length (socks w)) /\
    _reader (self w2) = Some (length (socks w)) /\
    _connected (self w2) = true /\
    _read_task (self w2) = Some (length (tasks w)) /\
    tasks w2 !! length (tasks w) = Some (Task (THeader (length (socks w))) false) /\
    socks w2 !! length (socks w) = Some (Sock false []) /\
    _pending (self w2) = _pending (self w) /\
    _lock (self w2) = _lock (self w) /\
    futs w2 = futs w /\ calls w2 = calls w /\ uuid_calls w2 = uuid_calls w.
Proof.
  intros Hl Hw Ho Ht Htk Hd. cbn [run step]. rewrite Hl.
  unfold handle_connection. cbn [self logged set_socks _writer]. rewrite Hw.
  rewrite (cancel_read_task_done _ t tk) by done.
  unfold handle_connection_resume, close_sock. cbn.
  rewrite lookup_snoc. unfold install, read_loop_start. cbn.
  rewrite lookup_snoc. unfold read_loop_turn. cbn.
  eexists. split; [reflexivity|]. cbn.
  rewrite alter_snoc, lookup_snoc.
  rewrite list_lookup_alter_ne by lia. rewrite lookup_snoc. done.
Qed.

(** The [finally] block, spelled out: the loop of lines 129-131 returns. *)
Lemma read_loop_finally_eq (final : task_state) (t : tid) (w : world) :
  exists fs,
    fail_all (Exn ConnectionError "EA disconnected") (values (_pending (self w))) (futs w) = Ok fs /\
    length fs = length (futs w) /\
    read_loop_finally final t w =
      set_task_state t final
        (on_self (set_pending ∅) (set_futs fs (on_self (set_connected false) w))).
Proof.
  destruct (fail_all_spec (Exn ConnectionError "EA disconnected")
              (values (_pending (self w))) (futs w)) as (fs & Hfa & Hl & _).
  exists fs. split; [done|]. split; [done|].
  unfold read_loop_finally. cbn. by rewrite Hfa.
Qed.

(** C4 (amended): when a header declares more than 1,000,000 bytes, the
    current read loop logs it and ends without asking for the body (on a
    stream, every byte after the header is left unread); the facade is
    marked disconnected, the table is emptied, and each pending caller
    receives [ConnectionError("EA disconnected")], the same futures and
    bridge fields as when the stream ends at that point (the code has no
    error of its own for this case).  The listener, the sockets and the
    calls are untouched, and a connection accepted afterwards becomes the
    current one, connected, with a read loop waiting on it and a fresh
    socket that the next [send_command] writes its frame to. *)
Theorem oversized_frame_ends_loop
    (w : world) (t : tid) (r wr : conn) (header : list byte) (n : Z) :
  tasks w !! t = Some (Task (THeader r) false) ->
  _read_task (self w) = Some t ->
  _writer (self w) = Some wr ->
  wr < length (socks w) ->
  existsb id (listeners w) = true ->
  length header = 4 ->
  unpack_u32 header = Ok n ->
  (MAX_MESSAGE < n)%Z ->
  exists w1 wd w2,
    step w (EvRead t (RData header)) = Some w1 /\
    tasks w1 !! t = Some (Task TDone false) /\
    (forall rest fuel, feed (S (S fuel)) t (header ++ rest) w = (w1, rest)) /\
    log w1 = log w ++ [LogTooLarge n] /\
    drained (Exn ConnectionError "EA disconnected") w w1 /\
    step w (EvRead t RIncomplete) = Some wd /\
    futs wd = futs w1 /\ self wd = self w1 /\
    listeners w1 = listeners w /\ socks w1 = socks w /\ calls w1 = calls w /\
    run [EvAccept; EvHandlerResume (length (handlers w)) None; EvTaskStart (length (tasks w))] w1
      = Some w2 /\
    _writer (self w2) = Some (length (socks w)) /\
    _reader (self w2) = Some (length (socks w)) /\
    _connected (self w2) = true /\
    tasks w2 !! length (tasks w) = Some (Task (THeader (length (socks w))) false) /\
    socks w2 !! length (socks w) = Some (Sock false []) /\
    (forall cmd params tmo data,
        _lock (self w) = false ->
        encode (request (uuid4 (uuid_calls w)) cmd params) = Ok data ->
        socks (send_command cmd params tmo w2) !! length (socks w) = Some (Sock false data) /\
        _pending (self (send_command cmd params tmo w2)) !! uuid4 (uuid_calls w)
          = Some (length (futs w)) /\
        calls (send_command cmd params tmo w2) !! length (calls w)
          = Some (Call (Locals (uuid4 (uuid_calls w)) (length (futs w)) cmd tmo) AtDrain NoCancel)).
Proof.
  intros Ht Hrt Hw Hwr Hl Hlen Hu Hn.
  pose proof (oversize_step w t r header n Ht Hlen Hu Hn) as Hstep.
  pose proof (eof_step w t r Ht) as Heof.
  destruct (read_loop_finally_eq TDone t (logged (LogTooLarge n) w)) as (fs & Hfa & Hfl & Hw1).
  destruct (read_loop_finally_eq TDone t (logged LogIncompleteRead w)) as (fs' & Hfa' & _ & Hwd).
  cbn in Hfa, Hfa', Hfl. rewrite Hfa in Hfa'. injection Hfa' as <-.
  set (w1 := read_loop_finally TDone t (logged (LogTooLarge n) w)) in *.
  assert (Ht1 : tasks w1 !! t = Some (Task TDone false)).
  { rewrite Hw1. cbn. rewrite list_lookup_alter_eq, Ht. done. }
  assert (Hlt : length (tasks w1) = length (tasks w)).
  { rewrite Hw1. cbn. by rewrite length_alter. }
  destruct (reconnect w1 wr t (Task TDone false)) as (w2 & Hrun & Hw2 & Hr2 & Hc2 & _ & Ht2 & Hs2 & Hp2 & Hk2 & Hf2 & Hcl2 & Hu2);
    try (rewrite Hw1; cbn; done); try done.
  assert (Hh1 : handlers w1 = handlers w) by (rewrite Hw1; done).
  assert (Hs1 : socks w1 = socks w) by (rewrite Hw1; done).
  assert (Hf1 : futs w1 = fs) by (rewrite Hw1; done).
  assert (Hc1 : calls w1 = calls w) by (rewrite Hw1; done).
  assert (Hu1 : uuid_calls w1 = uuid_calls w) by (rewrite Hw1; done).
  assert (Hk1 : _lock (self w1) = _lock (self w)) by (rewrite Hw1; done).
  rewrite Hh1, Hlt in Hrun. rewrite Hs1 in Hw2, Hr2, Ht2, Hs2. rewrite Hlt in Ht2.
  exists w1, (read_loop_finally TDone t (logged LogIncompleteRead w)), w2.
  split; [done|]. split; [done|]. split.
  { intros rest fuel. cbn [feed]. rewrite Ht.
    change HEADER_SIZE with 4. rewrite <- Hlen, readexactly_app.
    change (read_loop_resume t (RData header) w) with (step w (EvRead t (RData header))).
    rewrite Hstep. cbn [feed]. by rewrite Ht1. }
  split; [by rewrite Hw1|]. split.
  { pose proof (read_loop_finally_drains TDone t (logged (LogTooLarge n) w)) as [Hd _].
    exact Hd. }
  split; [done|]. split; [by rewrite Hwd, Hf1|]. split; [by rewrite Hwd, Hw1|].
  split; [by rewrite Hw1|]. split; [done|]. split; [done|].
  split; [done|]. split; [done|]. split; [done|]. split; [done|]. split; [done|].
  split; [done|].
  intros cmd params tmo data Hlock He.
  destruct (send_command_writes cmd params tmo w2 (length (socks w)) data)
    as (Hcalls & Hpend & _ & Hsocks & _); try done.
  - by rewrite Hk2, Hk1.
  - by rewrite Hu2, Hu1.
  - rewrite Hu2, Hu1, Hf2, Hf1, Hfl, Hcl2, Hc1 in *.
    split; [|split].
    + rewrite Hsocks. unfold write_sock_list. rewrite list_lookup_alter_eq, Hs2. done.
    + rewrite Hpend. by rewrite lookup_insert_eq.
    + rewrite Hcalls. apply lookup_snoc.
Qed.

(** A length read off a header is not negative. *)
Lemma unpack_nonneg (header : list byte) (n : Z) : unpack_u32 header = Ok n -> (0 <= n)%Z.
Proof.
  unfold unpack_u32. destruct header as [|b3 [|b2 [|b1 [|b0 [|]]]]]; try done.
  intros [= <-].
  pose proof (Z_of_byte_range b3). pose proof (Z_of_byte_range b2).
  pose proof (Z_of_byte_range b1). pose proof (Z_of_byte_range b0). lia.
Qed.

(** The read loop takes frames off a stream as [decode] does: a message is
    routed and the bytes after its frame are left for the next turn. *)
Lemma loop_decodes_message (w : world) (t : tid) (r r' : conn) (s rest : list byte) (msg : json) :
  tasks w !! t = Some (Task (THeader r) false) ->
  _reader (self w) = Some r' ->
  decode s = (FrMsg msg, rest) ->
  exists n,
    feed 2 t s w =
      (match route msg (on_self (set_last_seen (Some (now w))) (set_task_state t (TBody r' n) w)) with
       | (w2, None) => read_loop_turn t w2
       | (w2, Some e) => read_loop_except e t w2
       end, rest).
Proof.
  intros Ht Hr. unfold decode. cbn [feed]. rewrite Ht.
  unfold readexactly at 1 3. case_decide as Hlen; [|done].
  unfold read_loop_resume at 1. rewrite Ht.
  rewrite length_take, Nat.min_l by done. cbn [Nat.eqb HEADER_SIZE negb].
  destruct (check_header (take HEADER_SIZE s)) as [n|n|e] eqn:Hh; try done.
  assert (Hn : (0 <= n)%Z).
  { unfold check_header in Hh. destruct (unpack_u32 _) eqn:Hu; [|done].
    case_match; simplify_eq. by eapply unpack_nonneg. }
  rewrite Hr. cbn [feed].
  assert (Ht2 : tasks (set_task_state t (TBody r' n) w) !! t = Some (Task (TBody r' n) false)).
  { cbn. by rewrite list_lookup_alter_eq, Ht. }
  rewrite Ht2. unfold readexactly. case_decide as Hlen2; [|done].
  unfold read_loop_resume. rewrite Ht2.
  rewrite length_take, Nat.min_l by done. rewrite Z2Nat.id, Z.eqb_refl by done.
  cbn [negb]. destruct (json_loads _) as [m|e]; [|done].
  intros [= <- <-]. exists n. cbn [now set_task_state set_tasks].
  by destruct (route _ _) as [w2 [e|]].
Qed.

End OversizeFacts.

(** ** An oversized header on the reference environment *)

(** C4, witness: with one caller waiting, the peer sends the header
    [over_header]. *)
Lemma oversized_frame_ends_loop_witness :
  exists w w1,
    @run Ref.env one_pending init = Some w /\
    @step Ref.env w (EvRead 0 (RData over_header)) = Some w1 /\
    tasks w1 !! 0 = Some (Task TDone false) /\
    log w1 = log w ++ [LogTooLarge 1000001] /\
    drained (Exn ConnectionError "EA disconnected") w w1.
Proof.
  destruct (@run Ref.env one_pending init) as [w|] eqn:Hw; [|by vm_compute in Hw].
  assert (Hw' := Hw). vm_compute in Hw'. injection Hw' as Hw'.
  destruct (@oversized_frame_ends_loop Ref.env w 0 0 0 over_header 1000001)
    as (w1 & wd & w2 & Hs & Ht & _ & Hlog & Hd & _);
    try (first [by vm_compute | rewrite <- Hw'; first [by vm_compute | cbn; lia]]).
  exists w, w1. split; [reflexivity|]. split; [exact Hs|]. split; [exact Ht|].
  split; [exact Hlog | exact Hd].
Defined.

(** C4, counterexample: the caller that waits when the oversized header
    arrives receives [ConnectionError("EA disconnected")], which is what it
    receives when the peer closes the connection instead: no error of the
    protocol reaches it. *)
Lemma oversized_frame_gives_disconnect_error :
  call_of (one_pending ++ [EvRead 0 (RData over_header); EvWake 0]) 0
    = Some (Call (Locals "uuid-0" 0 "account_info" 10)
                 (Raised (Exn ConnectionError "EA disconnected")) NoCancel) /\
  call_of (one_pending ++ [EvRead 0 RIncomplete; EvWake 0]) 0
    = Some (Call (Locals "uuid-0" 0 "account_info" 10)
                 (Raised (Exn ConnectionError "EA disconnected")) NoCancel).
Proof. split; by vm_compute. Qed.

(* ===================================================================== *)
(** * What one step does to the table, the futures and the calls *)
(* ===================================================================== *)

Section Ops.
Context `{Env}.

Lemma ops_same (w w' : world) : core_of w = core_of w' -> ops (core_of w) (core_of w').
Proof. intros ->. apply rtc_refl. Qed.

Lemma route_ops (msg : json) (w : world) : ops (core_of w) (core_of (fst (route msg w))).
Proof.
  unfold route. destruct (get msg "id") as [rid|e] eqn:Hg; [|by apply ops_same].
  destruct (truthy rid); [|by apply ops_same].
  destruct (hashable rid); cbn [negb]; [|by apply ops_same].
  destruct rid; try by apply ops_same.
  destruct (_pending (self w) !! s) as [f|] eqn:Hp; [|by apply ops_same].
  cbn [futs on_self]. destruct (fut_done (futs w) f) eqn:Hd.
  - apply rtc_once. by eapply op_drop.
  - unfold set_result. rewrite Hd. apply rtc_once. cbn.
    unfold fut_done in Hd. destruct (futs w !! f) as [[]|] eqn:Hf; try discriminate.
    by eapply (op_resolve _ _ _ _ s f msg).
Qed.


Lemma finally_ops (final : task_state) (t : tid) (w : world) :
  ops (core_of w) (core_of (read_loop_finally final t w)).
Proof.
  unfold read_loop_finally.
  destruct (fail_all_spec (Exn ConnectionError "EA disconnected")
              (values (_pending (self w))) (futs w)) as (fs & Hfa & Hl & Hf).
  cbn. rewrite Hfa. apply rtc_once. by eapply op_fail_all.
Qed.

Lemma except_ops (e : exn) (t : tid) (w : world) :
  ops (core_of w) (core_of (read_loop_except e t w)).
Proof.
  unfold read_loop_except.
  repeat case_match; (etrans; [|apply finally_ops]); by apply ops_same.
Qed.

Lemma turn_ops (t : tid) (w : world) : ops (core_of w) (core_of (read_loop_turn t w)).
Proof.
  unfold read_loop_turn. case_match; [by apply ops_same | apply except_ops].
Qed.

Lemma stop_finish_ops (s : nat) (w : world) : ops (core_of w) (core_of (stop_finish s w)).
Proof.
  unfold stop_finish.
  destruct (fail_all_spec (Exn ConnectionError "Bridge shutting down")
              (values (_pending (self w))) (futs w)) as (fs & Hfa & Hl & Hf).
  cbn. rewrite Hfa. apply rtc_once. by eapply op_fail_all.
Qed.

Lemma stop_server_ops (s : nat) (w : world) : ops (core_of w) (core_of (stop_server s w)).
Proof.
  unfold stop_server. case_match; [by apply ops_same | apply stop_finish_ops].
Qed.

Lemma cancel_read_task_core (w : world) : core_of (cancel_read_task w) = core_of w.
Proof. unfold cancel_read_task. by repeat case_match. Qed.

Lemma raise_in_try_ops (k : nat) (l : locals) (pc : send_pc) (c : wake) (e : exn) (w : world) :
  calls w !! k = Some (Call l pc c) -> unfinished pc = true ->
  ops (core_of w) (core_of (raise_in_try k l e w)).
Proof.
  intros Hk Hu. unfold raise_in_try, send_except.
  destruct (isinstance e TimeoutError) eqn:Ht.
  - apply rtc_once. cbn.
    pose proof (op_raise (_pending (self w)) (futs w) (calls w) (uuid_calls w)
                  k l pc c (timed_out l) Hk Hu) as Hop.
    exact Hop.
  - destruct (isinstance e Exception) eqn:He; apply rtc_once; cbn.
    + pose proof (op_raise (_pending (self w)) (futs w) (calls w) (uuid_calls w)
                    k l pc c e Hk Hu) as Hop.
      by rewrite He in Hop.
    + pose proof (op_raise (_pending (self w)) (futs w) (calls w) (uuid_calls w)
                    k l pc c e Hk Hu) as Hop.
      by rewrite He in Hop.
Qed.

Lemma wait_for_ops (k : nat) (l : locals) (pc : send_pc) (c : wake) (w : world) :
  calls w !! k = Some (Call l pc c) -> unfinished pc = true ->
  ops (core_of w) (core_of (wait_for k l w)).
Proof.
  intros Hk Hu. unfold wait_for.
  destruct (futs w !! fut l) as [[]|] eqn:Hf.
  - apply rtc_once. by eapply op_move.
  - apply rtc_once. by eapply op_return.
  - by eapply raise_in_try_ops.
  - by eapply raise_in_try_ops.
  - apply rtc_once. by eapply op_move.
Qed.

Lemma write_frame_ops (k : nat) (l : locals) (pc : send_pc) (c : wake) (data : list byte) (w : world) :
  calls w !! k = Some (Call l pc c) -> unfinished pc = true ->
  ops (core_of w) (core_of (write_frame k l data w)).
Proof.
  intros Hk Hu. unfold write_frame. cbn. case_match.
  - apply rtc_once. by eapply op_move.
  - etrans; [apply (ops_same w (on_self (set_lock false) (on_self (set_lock true) w))); done|].
    by apply (raise_in_try_ops k l pc c).
Qed.

Lemma install_core (c : conn) (w : world) : core_of (install c w) = core_of w.
Proof. reflexivity. Qed.

Lemma handle_connection_core (w : world) : core_of (handle_connection w) = core_of w.
Proof.
  unfold handle_connection. cbn. case_match; [|reflexivity].
  cbn. unfold close_sock.
  change (core_of (set_handlers ?h (set_socks ?s ?w0))) with (core_of w0).
  by rewrite cancel_read_task_core.
Qed.

Lemma stop_ops (w : world) : ops (core_of w) (core_of (stop w)).
Proof.
  unfold stop. case_match.
  - apply ops_same. cbn. unfold close_sock.
    change (core_of (set_stops ?h (set_socks ?s ?w0))) with (core_of w0).
    by rewrite cancel_read_task_core.
  - etrans; [|apply stop_server_ops]. apply ops_same.
    change (core_of (set_stops ?h ?w0)) with (core_of w0).
    by rewrite cancel_read_task_core.
Qed.

Lemma send_command_ops (cmd : string) (params : option json) (tmo : Z) (w : world) :
  ops (core_of w) (core_of (send_command cmd params tmo w)).
Proof.
  unfold send_command. case_match.
  - apply rtc_once. apply op_early.
  - eapply rtc_l; [apply (op_register _ _ _ _ cmd tmo)|].
    set (l := Locals (uuid4 (uuid_calls w)) (length (futs w)) cmd tmo).
    set (w2 := set_calls _ _).
    assert (Hk : calls w2 !! length (calls w) = Some (Call l AtWait NoCancel))
      by apply lookup_snoc.
    change (Core _ _ _ _) with (core_of w2).
    destruct (encode _); [|by eapply raise_in_try_ops].
    case_match.
    + apply rtc_once. by eapply op_move.
    + by eapply write_frame_ops.
Qed.

(** Every step is a sequence of operations on the table, the futures and
    the calls. *)
Lemma step_ops (w w' : world) (ev : event) :
  step w ev = Some w' -> ops (core_of w) (core_of w').
Proof.
  destruct ev; cbn [step].
  - intros [= <-]. apply ops_same. unfold start. by case_match.
  - intros [= <-]. apply stop_ops.
  - unfold stop_resume. intros Hs. repeat case_match; simplify_eq;
      first [apply stop_server_ops | apply stop_finish_ops | by apply ops_same].
  - case_match; [|done]. intros [= <-]. apply ops_same. by rewrite handle_connection_core.
  - unfold handle_connection_resume. intros Hs. repeat case_match; simplify_eq;
      by apply ops_same.
  - unfold read_loop_start. intros Hs. repeat case_match; simplify_eq;
      first [apply turn_ops | by apply ops_same].
  - unfold read_loop_resume. intros Hs.
    repeat case_match; simplify_eq;
      try first [apply except_ops | apply finally_ops | by apply ops_same
                | etrans; [|apply finally_ops]; by apply ops_same].
    + match goal with Hr : route ?m ?w1 = _ |- _ =>
        pose proof (route_ops m w1) as Ho; rewrite Hr in Ho end.
      etrans; [|apply except_ops]. exact Ho.
    + match goal with Hr : route ?m ?w1 = _ |- _ =>
        pose proof (route_ops m w1) as Ho; rewrite Hr in Ho end.
      etrans; [|apply turn_ops]. exact Ho.
  - intros [= <-]. apply send_command_ops.
  - unfold lock_granted. intros Hs. repeat case_match; simplify_eq.
    by eapply write_frame_ops.
  - unfold drain_done. intros Hs. repeat case_match; simplify_eq.
    + etrans; [apply (ops_same w (on_self (set_lock false) w)); done|].
      by eapply raise_in_try_ops.
    + etrans; [apply (ops_same w (on_self (set_lock false) w)); done|].
      by eapply wait_for_ops.
  - unfold timeout_fire. intros Hs. repeat case_match; simplify_eq.
    apply rtc_once. by eapply op_cancel.
  - unfold cancel_call. intros Hs. repeat case_match; simplify_eq; apply rtc_once.
    + by eapply op_move.
    + by eapply op_move.
    + by eapply op_cancel.
  - unfold wake_call. intros Hs. repeat case_match; simplify_eq;
      try (by eapply raise_in_try_ops); try (by eapply wait_for_ops).
    etrans; [apply (ops_same w (on_self (set_lock false) w)); done|].
    by eapply raise_in_try_ops.
  - intros [= <-]. by apply ops_same.
Qed.

Lemma run_ops (evs : list event) (w w' : world) :
  run evs w = Some w' -> ops (core_of w) (core_of w').
Proof.
  revert w. induction evs as [|ev evs IH]; intros w; cbn.
  - intros [= <-]. apply rtc_refl.
  - destruct (step w ev) as [w1|] eqn:Hs; [|done].
    intros Hr. etrans; [by eapply step_ops | by apply IH].
Qed.

End Ops.

(* ===================================================================== *)
(** * Invariants of the table, the futures and the calls *)
(* ===================================================================== *)

Lemma omap_snoc {A B} (g : A -> option B) (l : list A) (x : A) :
  omap g (l ++ [x]) = omap g l ++ match g x with Some y => [y] | None => [] end.
Proof. rewrite omap_app. cbn. by destruct (g x). Qed.

Lemma omap_insert_same {A B} (g : A -> option B) (l : list A) (i : nat) (x y : A) :
  l !! i = Some x -> g y = g x -> omap g (<[i := y]> l) = omap g l.
Proof.
  revert i. induction l as [|a l IH]; intros [|i] Hi Hg; try done.
  - injection Hi as ->. change (omap g (y :: l) = omap g (x :: l)).
    unfold omap. cbn. by rewrite Hg.
  - change (omap g (a :: <[i := y]> l) = omap g (a :: l)).
    pose proof (IH i Hi Hg) as IH'. unfold omap in *. cbn. by rewrite IH'.
Qed.

Lemma omap_lookup_inj {A B} (g : A -> option B) (l : list A) (i j : nat) (x y : A) (b : B) :
  NoDup (omap g l) -> l !! i = Some x -> l !! j = Some y -> g x = Some b -> g y = Some b ->
  i = j.
Proof.
  revert i j. induction l as [|a l IH]; intros i j Hnd Hi Hj Hx Hy; [done|].
  assert (Hin : forall k z, l !! k = Some z -> g z = Some b -> b ∈ omap g l).
  { intros k z Hk Hz. apply list_elem_of_omap. exists z. split; [|done].
    by eapply list_elem_of_lookup_2. }
  cbn in Hnd. destruct i as [|i], j as [|j]; cbn in Hi, Hj; simplify_eq.
  - done.
  - rewrite Hx in Hnd. apply NoDup_cons in Hnd as [Hno _]. exfalso. eauto.
  - rewrite Hy in Hnd. apply NoDup_cons in Hnd as [Hno _]. exfalso. eauto.
  - f_equal. apply IH; try done. destruct (g a); [by apply NoDup_cons in Hnd as [_ ?]|done].
Qed.

Lemma omap_lookup_elem {A B} (g : A -> option B) (l : list A) (i : nat) (x : A) (b : B) :
  l !! i = Some x -> g x = Some b -> b ∈ omap g l.
Proof.
  intros Hi Hg. apply list_elem_of_omap. exists x. split; [|done].
  by eapply list_elem_of_lookup_2.
Qed.

Section Invariants.
Context `{Env}.

Lemma inv_init : inv (core_of init).
Proof. split; cbn; try done; intros; simplify_map_eq. Qed.

(** From here on [uuid4] never repeats a value. *)
Hypothesis uuid4_inj : Inj (=) (=) uuid4.

Lemma inv_ids_NoDup (k : core) : inv k -> NoDup (omap id_of (k_calls k)).
Proof. intros Hi. rewrite (inv_ids _ Hi). apply NoDup_fmap_2; [done | apply NoDup_seq]. Qed.

Lemma inv_futs_NoDup (k : core) : inv k -> NoDup (omap fut_of (k_calls k)).
Proof. intros Hi. rewrite (inv_futs _ Hi). apply NoDup_seq. Qed.

(** Two calls with the same request id are one call. *)
Lemma same_id (k : core) (i j : nat) (l l' : locals) (pc pc' : send_pc) (c c' : wake) :
  inv k -> k_calls k !! i = Some (Call l pc c) -> k_calls k !! j = Some (Call l' pc' c') ->
  req_id l = req_id l' -> i = j.
Proof.
  intros Hi Ha Hb He.
  eapply (omap_lookup_inj id_of _ i j _ _ (req_id l) (inv_ids_NoDup _ Hi) Ha Hb); cbn; congruence.
Qed.

(** Two calls with the same future are one call. *)
Lemma same_fut (k : core) (i j : nat) (l l' : locals) (pc pc' : send_pc) (c c' : wake) :
  inv k -> k_calls k !! i = Some (Call l pc c) -> k_calls k !! j = Some (Call l' pc' c') ->
  fut l = fut l' -> i = j.
Proof.
  intros Hi Ha Hb He.
  eapply (omap_lookup_inj fut_of _ i j _ _ (fut l) (inv_futs_NoDup _ Hi) Ha Hb); cbn; congruence.
Qed.

(** The id drawn next is the id of no call so far. *)
Lemma fresh_id (k : core) (i : nat) (l : locals) (pc : send_pc) (c : wake) :
  inv k -> k_calls k !! i = Some (Call l pc c) -> req_id l <> uuid4 (k_uuid k).
Proof.
  intros Hi Ha He.
  pose proof (omap_lookup_elem id_of _ i _ (req_id l) Ha eq_refl) as Hin.
  rewrite (inv_ids _ Hi) in Hin. apply list_elem_of_fmap in Hin as (j & Hj & Hin).
  rewrite He in Hj. apply uuid4_inj in Hj. subst j.
  apply elem_of_seq in Hin. lia.
Qed.

(** The future of a call exists. *)
Lemma fut_exists (k : core) (i : nat) (l : locals) (pc : send_pc) (c : wake) :
  inv k -> k_calls k !! i = Some (Call l pc c) -> fut l < length (k_futs k).
Proof.
  intros Hi Ha.
  pose proof (omap_lookup_elem fut_of _ i _ (fut l) Ha eq_refl) as Hin.
  rewrite (inv_futs _ Hi) in Hin. apply elem_of_seq in Hin. lia.
Qed.

Lemma cancel_fut_lookup (f g : fid) (fs : list fut_state) :
  cancel_fut f fs !! g =
    if decide (g = f)
    then match fs !! f with Some FPending => Some FCancelled | o => o end
    else fs !! g.
Proof.
  unfold cancel_fut, fut_done. destruct (fs !! f) as [st|] eqn:Hf.
  - destruct st; cbn; case_decide; subst; try done.
    + apply list_lookup_insert_eq. by eapply lookup_lt_Some.
    + by apply list_lookup_insert_ne.
  - cbn. case_decide; by subst.
Qed.

Lemma cancel_fut_length (f : fid) (fs : list fut_state) :
  length (cancel_fut f fs) = length fs.
Proof. unfold cancel_fut. case_match; [done|]. apply length_insert. Qed.

(** A call looked up after the state of call [k] was rewritten. *)
Lemma lookup_rewritten (cs : list call) (k i : nat) (l l0 : locals)
    (pc pc' pc0 : send_pc) (c c' c0 : wake) :
  cs !! k = Some (Call l pc c) ->
  <[k := Call l pc' c']> cs !! i = Some (Call l0 pc0 c0) ->
  (i = k /\ l0 = l /\ pc0 = pc' /\ c0 = c') \/ (i <> k /\ cs !! i = Some (Call l0 pc0 c0)).
Proof.
  intros Hk Hi. destruct (decide (i = k)) as [->|Hne].
  - rewrite list_lookup_insert_eq in Hi by (by eapply lookup_lt_Some).
    injection Hi as <- <- <-. by left.
  - rewrite list_lookup_insert_ne in Hi by done. by right.
Qed.

Lemma lookup_kept (cs : list call) (k i : nat) (l l0 : locals)
    (pc pc' pc0 : send_pc) (c c' c0 : wake) :
  cs !! k = Some (Call l pc c) ->
  cs !! i = Some (Call l0 pc0 c0) ->
  exists pc1 c1, <[k := Call l pc' c']> cs !! i = Some (Call l0 pc1 c1).
Proof.
  intros Hk Hi. destruct (decide (i = k)) as [->|Hne].
  - rewrite list_lookup_insert_eq by (by eapply lookup_lt_Some). simplify_eq. eauto.
  - rewrite list_lookup_insert_ne by done. eauto.
Qed.

Lemma lookup_appended (cs : list call) (x : call) (i : nat) (y : call) :
  (cs ++ [x]) !! i = Some y -> cs !! i = Some y \/ (i = length cs /\ y = x).
Proof.
  intros Hi. apply lookup_app_Some in Hi as [Hi|[Hge Hi]]; [by left|right].
  apply list_lookup_singleton_Some in Hi as [Hz ->]. split; [lia|done].
Qed.

Lemma inv_register (p : gmap string fid) (fs : list fut_state) (cs : list call) (n : nat)
    (cmd : string) (tmo : Z) :
  inv (Core p fs cs n) ->
  inv (Core (<[uuid4 n := length fs]> p) (fs ++ [FPending])
            (cs ++ [Call (Locals (uuid4 n) (length fs) cmd tmo) AtWait NoCancel]) (S n)).
Proof.
  intros Hi. open_inv Hi.
  assert (Hlt : forall i l pc c, cs !! i = Some (Call l pc c) -> fut l < length fs)
    by (intros; by eapply (fut_exists (Core p fs cs n))).
  assert (Hfr : forall i l pc c, cs !! i = Some (Call l pc c) -> uuid4 n <> req_id l)
    by (intros; symmetry; by eapply (fresh_id (Core p fs cs n))).
  split; cbn [k_calls k_uuid k_futs k_pending].
  - rewrite omap_snoc, Hids. cbn [id_of req_id]. by rewrite seq_S, fmap_app.
  - rewrite omap_snoc, Hfuts, length_app. cbn [fut_of fut length].
    by rewrite Nat.add_1_r, seq_S.
  - intros id f Hp. destruct (decide (id = uuid4 n)) as [->|Hne].
    + rewrite lookup_insert_eq in Hp. injection Hp as <-. split.
      * exists (length cs), (Locals (uuid4 n) (length fs) cmd tmo), AtWait, NoCancel.
        split; [apply lookup_snoc | done].
      * left. apply lookup_snoc.
    + rewrite lookup_insert_ne in Hp by done.
      destruct (Hown id f Hp) as [(i & l & pc & c & Hc & Hid & Hf) Hst]. split.
      * exists i, l, pc, c. split; [by apply lookup_app_l_Some | done].
      * destruct Hst; [left | right]; by apply lookup_app_l_Some.
  - intros i l pc c Hc Hu Hf. apply lookup_appended in Hc as [Hc|[-> Hc]].
    + rewrite lookup_app_l in Hf by eauto.
      rewrite lookup_insert_ne by eauto. by eapply Hin.
    + injection Hc as -> -> ->. cbn. apply lookup_insert_eq.
  - intros i l pc c msg Hc Hf. apply lookup_appended in Hc as [Hc|[-> Hc]].
    + rewrite lookup_app_l in Hf by eauto. by eapply Hres.
    + injection Hc as -> -> ->. cbn in Hf. by rewrite lookup_snoc in Hf.
  - intros i l v c Hc. apply lookup_appended in Hc as [Hc|[-> Hc]]; [|done].
    by eapply Hret.
  - intros i l pc c Hc Hs. apply lookup_appended in Hc as [Hc|[-> Hc]].
    + rewrite lookup_insert_ne by eauto. by eapply Hgone.
    + by injection Hc as -> -> ->.
Qed.

Lemma inv_early (p : gmap string fid) (fs : list fut_state) (cs : list call) (n : nat) (e : exn) :
  inv (Core p fs cs n) -> inv (Core p fs (cs ++ [RaisedEarly e]) n).
Proof.
  intros Hi. open_inv Hi. split; cbn [k_calls k_uuid k_futs k_pending].
  - rewrite omap_snoc, Hids. cbn. by rewrite app_nil_r.
  - rewrite omap_snoc, Hfuts. cbn. by rewrite app_nil_r.
  - intros id f Hp. destruct (Hown id f Hp) as [(i & l & pc & c & Hc & Hid & Hf) Hst].
    split; [|done]. exists i, l, pc, c. split; [by apply lookup_app_l_Some | done].
  - intros i l pc c Hc. apply lookup_appended in Hc as [Hc|[-> Hc]]; [|done]. by eapply Hin.
  - intros i l pc c msg Hc. apply lookup_appended in Hc as [Hc|[-> Hc]]; [|done]. by eapply Hres.
  - intros i l v c Hc. apply lookup_appended in Hc as [Hc|[-> Hc]]; [|done]. by eapply Hret.
  - intros i l pc c Hc. apply lookup_appended in Hc as [Hc|[-> Hc]]; [|done]. by eapply Hgone.
Qed.

(** The state of a call is rewritten, the table and the futures are not. *)
Lemma inv_rewrite (p : gmap string fid) (fs : list fut_state) (cs : list call) (n : nat)
    (k : nat) (l : locals) (pc pc' : send_pc) (c c' : wake) :
  inv (Core p fs cs n) ->
  cs !! k = Some (Call l pc c) ->
  (unfinished pc' = true -> fs !! fut l = Some FPending -> p !! req_id l = Some (fut l)) ->
  (forall v, pc' = Returned v -> get v "id" = Ok (JStr (req_id l))) ->
  (settled pc' = true -> p !! req_id l = None) ->
  inv (Core p fs (<[k := Call l pc' c']> cs) n).
Proof.
  intros Hi Hk Hnew_in Hnew_ret Hnew_gone. open_inv Hi.
  split; cbn [k_calls k_uuid k_futs k_pending].
  - by rewrite (omap_insert_same id_of cs k (Call l pc c)).
  - by rewrite (omap_insert_same fut_of cs k (Call l pc c)).
  - intros id f Hp. destruct (Hown id f Hp) as [(i & l0 & pc0 & c0 & Hc & Hid & Hf) Hst].
    split; [|done]. destruct (lookup_kept cs k i l l0 pc pc' pc0 c c' c0 Hk Hc) as (pc1 & c1 & Hc1).
    by exists i, l0, pc1, c1.
  - intros i l0 pc0 c0 Hc Hu Hf.
    destruct (lookup_rewritten _ _ _ _ _ _ _ _ _ _ _ Hk Hc) as [(-> & -> & -> & ->)|[Hne Hc0]].
    + by apply Hnew_in.
    + by eapply Hin.
  - intros i l0 pc0 c0 msg Hc Hf.
    destruct (lookup_rewritten _ _ _ _ _ _ _ _ _ _ _ Hk Hc) as [(-> & -> & -> & ->)|[Hne Hc0]];
      by eapply Hres.
  - intros i l0 v c0 Hc.
    destruct (lookup_rewritten _ _ _ _ _ _ _ _ _ _ _ Hk Hc) as [(-> & -> & Hv & ->)|[Hne Hc0]].
    + by apply Hnew_ret.
    + by eapply Hret.
  - intros i l0 pc0 c0 Hc Hs.
    destruct (lookup_rewritten _ _ _ _ _ _ _ _ _ _ _ Hk Hc) as [(-> & -> & -> & ->)|[Hne Hc0]].
    + by apply Hnew_gone.
    + by eapply Hgone.
Qed.

(** A future that holds a result is in the table under no id of its call. *)
Lemma resolved_not_pending (p : gmap string fid) (fs : list fut_state) (cs : list call)
    (n k : nat) (l : locals) (pc : send_pc) (c : wake) (st : fut_state) :
  inv (Core p fs cs n) ->
  cs !! k = Some (Call l pc c) ->
  fs !! fut l = Some st -> st <> FPending -> st <> FCancelled ->
  p !! req_id l = None.
Proof.
  intros Hi Hk Hf Hn1 Hn2. open_inv Hi.
  destruct (p !! req_id l) as [f|] eqn:Hp; [|done]. exfalso.
  destruct (Hown _ _ Hp) as [(i & l0 & pc0 & c0 & Hc & Hid & Hf0) Hst].
  assert (i = k) by (by eapply (same_id (Core p fs cs n))). subst i.
  simplify_eq. destruct Hst; simplify_eq.
Qed.

(** The table loses entries, the futures and the calls stay. *)
Lemma inv_delete (p : gmap string fid) (fs : list fut_state) (cs : list call) (n : nat)
    (id : string) :
  inv (Core p fs cs n) ->
  (forall i l pc c, cs !! i = Some (Call l pc c) -> unfinished pc = true ->
                    fs !! fut l = Some FPending -> req_id l <> id) ->
  inv (Core (delete id p) fs cs n).
Proof.
  intros Hi Hkeep. open_inv Hi. split; cbn [k_calls k_uuid k_futs k_pending]; try done.
  - intros id' f Hp. apply lookup_delete_Some in Hp as [Hne Hp]. by apply Hown.
  - intros i l pc c Hc Hu Hf. rewrite lookup_delete_ne by (symmetry; by eapply Hkeep).
    by eapply Hin.
  - intros i l pc c Hc Hs. apply lookup_delete_None. right. by eapply Hgone.
Qed.

(** The table is emptied and the futures are failed as by [fail_all]. *)
Lemma inv_fail_all (p : gmap string fid) (fs fs' : list fut_state) (cs : list call) (n : nat)
    (e : exn) :
  inv (Core p fs cs n) ->
  length fs' = length fs ->
  (forall f, fs' !! f =
             match fs !! f with
             | Some FPending => Some (if bool_decide (f ∈ values p) then FExc e else FPending)
             | o => o
             end) ->
  inv (Core ∅ fs' cs n).
Proof.
  intros Hi Hl Hspec. open_inv Hi. split; cbn [k_calls k_uuid k_futs k_pending]; try done.
  - by rewrite Hl.
  - intros i l pc c Hc Hu Hf. exfalso. rewrite Hspec in Hf.
    destruct (fs !! fut l) as [[]|] eqn:Hfl; try done.
    pose proof (Hin _ _ _ _ Hc Hu Hfl) as Hp.
    rewrite bool_decide_eq_true_2 in Hf; [done|]. apply elem_of_values. eauto.
  - intros i l pc c msg Hc Hf. rewrite Hspec in Hf.
    destruct (fs !! fut l) as [[]|] eqn:Hfl; try done.
    + by case_bool_decide.
    + injection Hf as <-. by eapply Hres.
Qed.

(** A call ends and its id leaves the table. *)
Lemma inv_finish_pop (p : gmap string fid) (fs : list fut_state) (cs : list call) (n : nat)
    (k : nat) (l : locals) (pc pc' : send_pc) (c c' : wake) :
  inv (Core p fs cs n) ->
  cs !! k = Some (Call l pc c) ->
  unfinished pc' = false ->
  (forall v, pc' = Returned v -> get v "id" = Ok (JStr (req_id l))) ->
  inv (Core (delete (req_id l) p) fs (<[k := Call l pc' c']> cs) n).
Proof.
  intros Hi Hk Hfin Hnew_ret. open_inv Hi.
  split; cbn [k_calls k_uuid k_futs k_pending].
  - by rewrite (omap_insert_same id_of cs k (Call l pc c)).
  - by rewrite (omap_insert_same fut_of cs k (Call l pc c)).
  - intros id f Hp. apply lookup_delete_Some in Hp as [Hne Hp].
    destruct (Hown id f Hp) as [(i & l0 & pc0 & c0 & Hc & Hid & Hf) Hst].
    split; [|done]. destruct (lookup_kept cs k i l l0 pc pc' pc0 c c' c0 Hk Hc) as (pc1 & c1 & Hc1).
    by exists i, l0, pc1, c1.
  - intros i l0 pc0 c0 Hc Hu Hf.
    destruct (lookup_rewritten _ _ _ _ _ _ _ _ _ _ _ Hk Hc) as [(-> & -> & -> & ->)|[Hne Hc0]].
    + congruence.
    + rewrite lookup_delete_ne; [by eapply Hin|].
      intros Heq. apply Hne. by eapply (same_id (Core p fs cs n) i k l0 l).
  - intros i l0 pc0 c0 msg Hc Hf.
    destruct (lookup_rewritten _ _ _ _ _ _ _ _ _ _ _ Hk Hc) as [(-> & -> & -> & ->)|[Hne Hc0]];
      by eapply Hres.
  - intros i l0 v c0 Hc.
    destruct (lookup_rewritten _ _ _ _ _ _ _ _ _ _ _ Hk Hc) as [(-> & -> & Hv & ->)|[Hne Hc0]].
    + by apply Hnew_ret.
    + by eapply Hret.
  - intros i l0 pc0 c0 Hc Hs.
    destruct (lookup_rewritten _ _ _ _ _ _ _ _ _ _ _ Hk Hc) as [(-> & -> & -> & ->)|[Hne Hc0]].
    + apply lookup_delete_eq.
    + apply lookup_delete_None. right. by eapply Hgone.
Qed.

(** A response is delivered to the future registered under its id. *)
Lemma inv_resolve (p : gmap string fid) (fs : list fut_state) (cs : list call) (n : nat)
    (id : string) (f : fid) (msg : json) :
  inv (Core p fs cs n) ->
  get msg "id" = Ok (JStr id) -> p !! id = Some f -> fs !! f = Some FPending ->
  inv (Core (delete id p) (<[f := FResult msg]> fs) cs n).
Proof.
  intros Hi Hg Hp Hf. open_inv Hi.
  destruct (Hown id f Hp) as [(i0 & l0 & pc0 & c0 & Hc0 & Hid0 & Hf0) _].
  assert (Hlt : f < length fs) by (by eapply lookup_lt_Some).
  split; cbn [k_calls k_uuid k_futs k_pending]; try done.
  - by rewrite length_insert.
  - intros id' f' Hp'. apply lookup_delete_Some in Hp' as [Hne Hp'].
    destruct (Hown id' f' Hp') as [(i1 & l1 & pc1 & c1 & Hc1 & Hid1 & Hf1) Hst].
    split; [by exists i1, l1, pc1, c1|].
    rewrite list_lookup_insert_ne; [done|]. intros ->.
    assert (i1 = i0) by (eapply (same_fut (Core p fs cs n)); [done|exact Hc1|exact Hc0|congruence]).
    subst i1. simplify_eq.
  - intros i l pc c Hc Hu Hfl. destruct (decide (fut l = f)) as [Heq|Hne].
    + rewrite Heq, list_lookup_insert_eq in Hfl by done. done.
    + rewrite list_lookup_insert_ne in Hfl by done.
      pose proof (Hin _ _ _ _ Hc Hu Hfl) as Hpl.
      rewrite lookup_delete_ne; [done|]. intros ->. simplify_eq.
  - intros i l pc c m Hc Hfl. destruct (decide (fut l = f)) as [Heq|Hne].
    + rewrite Heq, list_lookup_insert_eq in Hfl by done. injection Hfl as <-.
      assert (i = i0) by (eapply (same_fut (Core p fs cs n)); [done|exact Hc|exact Hc0|congruence]).
      subst i. simplify_eq. done.
    + rewrite list_lookup_insert_ne in Hfl by done. by eapply Hres.
  - intros i l pc c Hc Hs. apply lookup_delete_None. right. by eapply Hgone.
Qed.

(** A future is cancelled. *)
Lemma inv_cancel_fut (p : gmap string fid) (fs : list fut_state) (cs : list call) (n : nat)
    (f : fid) :
  inv (Core p fs cs n) -> inv (Core p (cancel_fut f fs) cs n).
Proof.
  intros Hi. open_inv Hi. split; cbn [k_calls k_uuid k_futs k_pending]; try done.
  - by rewrite cancel_fut_length.
  - intros id g Hp. destruct (Hown id g Hp) as [Ho Hst]. split; [done|].
    rewrite cancel_fut_lookup. case_decide; [subst g|done].
    destruct Hst as [->| ->]; by right.
  - intros i l pc c Hc Hu Hfl. rewrite cancel_fut_lookup in Hfl.
    case_decide as Heq; [|by eapply Hin].
    rewrite <- Heq in Hfl. destruct (fs !! fut l) as [[]|] eqn:Hfl'; try done.
  - intros i l pc c m Hc Hfl. rewrite cancel_fut_lookup in Hfl.
    case_decide as Heq; [|by eapply Hres].
    rewrite <- Heq in Hfl. destruct (fs !! fut l) as [[]|] eqn:Hfl'; try done.
    injection Hfl as <-. by eapply Hres.
Qed.

(** Every operation keeps the invariant. *)
Lemma op_inv (k k' : core) : inv k -> op k k' -> inv k'.
Proof.
  intros Hi Hop. destruct Hop as
    [ p fs cs n cmd tmo | p fs cs n e | p fs cs n k l pc c pc' c' Hk Hu Hu'
    | p fs cs n k l pc c v Hk Hu Hf | p fs cs n k l pc c e Hk Hu
    | p fs cs n id f msg Hg Hp Hf | p fs cs n id f Hp Hd | p fs cs n e fs' Hl Hspec
    | p fs cs n k l c Hk ].
  - by apply inv_register.
  - by apply inv_early.
  - apply (inv_rewrite p fs cs n k l pc pc' c c' Hi Hk).
    + intros _ Hf. by eapply (inv_in _ Hi).
    + intros v ->. done.
    + intros Hs. by destruct pc'.
  - apply (inv_rewrite p fs cs n k l pc (Returned v) c NoCancel Hi Hk).
    + done.
    + intros v' [= <-]. by eapply (inv_res _ Hi).
    + intros _. by eapply resolved_not_pending.
  - destruct (isinstance e Exception) eqn:He.
    + by apply (inv_finish_pop p fs cs n k l pc (Raised e) c NoCancel Hi Hk).
    + apply (inv_rewrite p fs cs n k l pc (Raised e) c NoCancel Hi Hk).
      * done.
      * done.
      * intros Hs. change (isinstance e Exception = true) in Hs. congruence.
  - by apply inv_resolve.
  - apply inv_delete; [done|]. intros i l pc c Hc Hu Hf Heq. subst id.
    pose proof (inv_in _ Hi _ _ _ _ Hc Hu Hf) as Hp'. cbn in Hp'. simplify_eq.
    unfold fut_done in Hd. by rewrite Hf in Hd.
  - by eapply inv_fail_all.
  - pose proof (inv_cancel_fut p fs cs n (fut l) Hi) as Hi'.
    apply (inv_rewrite p _ cs n k l AtWait AtWait NoCancel c Hi' Hk).
    + intros _ Hf. by eapply (inv_in _ Hi').
    + done.
    + done.
Qed.

Lemma ops_inv (k k' : core) : inv k -> ops k k' -> inv k'.
Proof. intros Hi Hops. induction Hops; eauto using op_inv. Qed.

(** The invariant holds in every world the bridge can be in. *)
Lemma reachable_inv (w : world) : reachable w -> inv (core_of w).
Proof.
  intros [evs Hr]. eapply ops_inv; [apply inv_init|]. by apply (run_ops evs).
Qed.

End Invariants.

(* ===================================================================== *)
(** * Facts about every step *)
(* ===================================================================== *)

Section StepFacts.
Context `{Env}.



(** A call that is over stays as it is. *)
Lemma op_finished_stable (k k' : core) (i : nat) (l : locals) (pc : send_pc) (c : wake) :
  op k k' -> k_calls k !! i = Some (Call l pc c) -> unfinished pc = false ->
  k_calls k' !! i = Some (Call l pc c).
Proof.
  intros Hop Hi Hu. destruct Hop; cbn in *; try done;
    try (by apply lookup_app_l_Some);
    (rewrite list_lookup_insert_ne; [done|]; intros ->; simplify_eq; congruence).
Qed.

Lemma ops_finished_stable (k k' : core) (i : nat) (l : locals) (pc : send_pc) (c : wake) :
  ops k k' -> k_calls k !! i = Some (Call l pc c) -> unfinished pc = false ->
  k_calls k' !! i = Some (Call l pc c).
Proof. intros Hops. induction Hops; eauto using op_finished_stable. Qed.

Lemma reachable_step (w w' : world) (ev : event) :
  reachable w -> step w ev = Some w' -> reachable w'.
Proof.
  intros [evs Hr] Hs. exists (evs ++ [ev]). revert Hr. generalize init.
  induction evs as [|e evs IH]; intros w0; cbn.
  - intros [= ->]. by rewrite Hs.
  - destruct (step w0 e); [apply IH|done].
Qed.

Lemma reachable_run (w w' : world) (evs : list event) :
  reachable w -> run evs w = Some w' -> reachable w'.
Proof.
  revert w. induction evs as [|e evs IH]; intros w Hw; cbn.
  - by intros [= <-].
  - destruct (step w e) as [w1|] eqn:Hs; [|done]. apply IH. by eapply reachable_step.
Qed.

Lemma quiet_refl (w : world) : quiet w w.
Proof. done. Qed.

Lemma quiet_trans (w1 w2 w3 : world) : quiet w1 w2 -> quiet w2 w3 -> quiet w1 w3.
Proof. intros [? ?] [? ?]. split; congruence. Qed.

Lemma quiet_finally (final : task_state) (t : tid) (w : world) :
  quiet w (read_loop_finally final t w).
Proof.
  unfold read_loop_finally, quiet. case_match; cbn; by rewrite length_alter.
Qed.

Lemma quiet_except (e : exn) (t : tid) (w : world) : quiet w (read_loop_except e t w).
Proof.
  unfold read_loop_except.
  repeat case_match; (eapply quiet_trans; [|apply quiet_finally]); done.
Qed.

Lemma quiet_route (msg : json) (w : world) : quiet w (fst (route msg w)).
Proof. unfold route. repeat case_match; done. Qed.

Lemma quiet_cancel_read_task (w : world) : quiet w (cancel_read_task w).
Proof.
  unfold cancel_read_task, quiet. repeat case_match; cbn; try done.
  by rewrite length_insert.
Qed.

Lemma quiet_stop_finish (s : nat) (w : world) : quiet w (stop_finish s w).
Proof. unfold stop_finish. by case_match. Qed.

Lemma quiet_stop_server (s : nat) (w : world) : quiet w (stop_server s w).
Proof. unfold stop_server. case_match; [done | apply quiet_stop_finish]. Qed.

Lemma quiet_raise_in_try (k : nat) (l : locals) (e : exn) (w : world) :
  quiet w (raise_in_try k l e w).
Proof.
  unfold raise_in_try, send_except.
  destruct (isinstance e TimeoutError); [done|]. by destruct (isinstance e Exception).
Qed.

Lemma quiet_wait_for (k : nat) (l : locals) (w : world) : quiet w (wait_for k l w).
Proof. unfold wait_for. repeat case_match; try done; apply quiet_raise_in_try. Qed.

Lemma quiet_write_frame (k : nat) (l : locals) (data : list byte) (w : world) :
  quiet w (write_frame k l data w).
Proof.
  unfold write_frame. cbn. case_match; [done|].
  eapply quiet_trans; [|apply quiet_raise_in_try]. done.
Qed.

Lemma quiet_send_command (cmd : string) (params : option json) (tmo : Z) (w : world) :
  quiet w (send_command cmd params tmo w).
Proof.
  unfold send_command. repeat case_match; try done.
  - eapply quiet_trans; [|apply quiet_write_frame]. done.
  - eapply quiet_trans; [|apply quiet_raise_in_try]. done.
Qed.

Lemma wired_quiet (w w' : world) : quiet w w' -> wired w -> wired w'.
Proof.
  intros [Hr Hl] [Ht|Hs]; [left|right].
  - rewrite Ht in Hl. by apply nil_length_inv.
  - by rewrite Hr.
Qed.

Lemma wired_install_after (c : conn) (w w' : world) : quiet (install c w) w' -> wired w'.
Proof. intros [Hr _]. right. rewrite Hr. cbn. eauto. Qed.

Lemma step_wired (w w' : world) (ev : event) : step w ev = Some w' -> wired w -> wired w'.
Proof.
  destruct ev; cbn [step]; intros Hs.
  - injection Hs as <-. apply wired_quiet. unfold start. by case_match.
  - injection Hs as <-. apply wired_quiet. unfold stop. case_match.
    + eapply quiet_trans; [apply quiet_cancel_read_task|]. done.
    + eapply quiet_trans; [apply quiet_cancel_read_task|].
      eapply quiet_trans; [|apply quiet_stop_server]. done.
  - unfold stop_resume in Hs. repeat case_match; simplify_eq; apply wired_quiet;
      first [apply quiet_stop_server | apply quiet_stop_finish | done].
  - case_match; [|done]. injection Hs as <-. unfold handle_connection. case_match.
    + apply wired_quiet. cbn. unfold close_sock.
      match goal with |- quiet _ (set_handlers _ (set_socks _ (cancel_read_task ?w0))) =>
        apply (quiet_trans _ w0); [done|];
        apply (quiet_trans _ (cancel_read_task w0)); [apply quiet_cancel_read_task|done] end.
    + intros _. by eapply wired_install_after.
  - unfold handle_connection_resume in Hs. repeat case_match; simplify_eq;
      first [by apply wired_quiet | intros _; by eapply wired_install_after].
  - unfold read_loop_start in Hs. repeat case_match; simplify_eq; apply wired_quiet.
    + unfold set_task_state, quiet. cbn. by rewrite length_alter.
    + unfold read_loop_turn. case_match; [|apply quiet_except].
      unfold set_task_state, quiet. cbn. by rewrite length_alter.
  - unfold read_loop_resume in Hs.
    repeat case_match; simplify_eq; apply wired_quiet;
      try first [apply quiet_except | apply quiet_finally
                | eapply quiet_trans; [|apply quiet_finally]; done
                | unfold set_task_state, quiet; cbn; by rewrite length_alter ].
    + match goal with Hr : route ?m ?w1 = _ |- _ =>
        pose proof (quiet_route m w1) as Hq; rewrite Hr in Hq end.
      eapply quiet_trans; [|apply quiet_except]. exact Hq.
    + match goal with Hr : route ?m ?w1 = _ |- _ =>
        pose proof (quiet_route m w1) as Hq; rewrite Hr in Hq end.
      eapply quiet_trans; [exact Hq|].
      unfold read_loop_turn. case_match; [|apply quiet_except].
      unfold set_task_state, quiet. cbn. by rewrite length_alter.
  - injection Hs as <-. apply wired_quiet, quiet_send_command.
  - unfold lock_granted in Hs. repeat case_match; simplify_eq.
    apply wired_quiet, quiet_write_frame.
  - unfold drain_done in Hs. repeat case_match; simplify_eq; apply wired_quiet.
    + eapply quiet_trans; [|apply quiet_raise_in_try]. done.
    + eapply quiet_trans; [|apply quiet_wait_for]. done.
  - unfold timeout_fire in Hs. repeat case_match; simplify_eq. by apply wired_quiet.
  - unfold cancel_call in Hs. repeat case_match; simplify_eq; by apply wired_quiet.
  - unfold wake_call in Hs. repeat case_match; simplify_eq; apply wired_quiet;
      first [apply quiet_raise_in_try | apply quiet_wait_for
            | eapply quiet_trans; [|apply quiet_raise_in_try]; done].
  - injection Hs as <-. by apply wired_quiet.
Qed.

Lemma reachable_wired (w : world) : reachable w -> wired w.
Proof.
  intros [evs Hr]. assert (Hi : wired init) by (by left).
  revert Hr Hi. generalize init. induction evs as [|e evs IH]; intros w0; cbn.
  - by intros [= ->].
  - destruct (step w0 e) as [w1|] eqn:Hs; [|done]. intros Hr Hw.
    apply (IH w1 Hr). by eapply step_wired.
Qed.

End StepFacts.

(* ===================================================================== *)
(** * Every pending request is resolved once *)
(* ===================================================================== *)

Section Resolution.
Context `{Env}.

Lemma drained_same (e : exn) (w0 w w' : world) :
  _pending (self w0) = _pending (self w) -> futs w0 = futs w ->
  drained e w0 w' -> drained e w w'.
Proof. unfold drained. intros -> ->. done. Qed.







End Resolution.

(* ===================================================================== *)
(** * Responses are matched by id *)
(* ===================================================================== *)

Section Matching.
Context `{Env}.

(** A response that carries the id of a waiting call is delivered to the
    future of that call, and to nothing else. *)
Lemma response_delivered (w : world) (i : nat) (l : locals) (pc : send_pc) (c : wake)
    (t : tid) (r : conn) (n : Z) (data : list byte) (msg : json) :
  Inj (=) (=) uuid4 ->
  reachable w ->
  calls w !! i = Some (Call l pc c) -> unfinished pc = true ->
  futs w !! fut l = Some FPending ->
  tasks w !! t = Some (Task (TBody r n) false) ->
  Z.of_nat (length data) = n ->
  json_loads data = Ok msg ->
  get msg "id" = Ok (JStr (req_id l)) ->
  req_id l <> "" ->
  exists w',
    step w (EvRead t (RData data)) = Some w' /\
    futs w' = <[fut l := FResult msg]> (futs w) /\
    _pending (self w') = delete (req_id l) (_pending (self w)) /\
    calls w' = calls w.
Proof.
  intros Hinj Hr Hc Hu Hf Ht Hn Hl Hg Hne.
  pose proof (reachable_inv Hinj w Hr) as Hi.
  pose proof (inv_in _ Hi _ _ _ _ Hc Hu Hf) as Hp. cbn in Hp.
  destruct (reachable_wired w Hr) as [Hnil|[r0 Hr0]];
    [by rewrite Hnil in Ht|].
  cbn. unfold read_loop_resume. rewrite Ht.
  apply Z.eqb_eq in Hn. rewrite Hn. cbn [negb]. rewrite Hl.
  unfold route. rewrite Hg. cbn [truthy hashable negb].
  apply String.eqb_neq in Hne. rewrite Hne. cbn [negb on_self self _pending set_last_seen].
  rewrite Hp. cbn [futs on_self]. unfold set_result, fut_done. rewrite Hf. cbn [is_done].
  unfold read_loop_turn. cbn. rewrite Hr0. eauto.
Qed.

(** C2: provided [uuid4] never repeats a value, in every world the bridge
    can reach the request ids of the calls are pairwise distinct, one per
    call that passed the connection check; a future that holds a response
    holds one whose ["id"] is the id of the call that created the future,
    and a call that returned did return an envelope with its own id,
    whatever the order of the events before; and a response that arrives
    with the id of a waiting call resolves the future of that call and
    removes its entry, all other futures and entries left as they are. *)
Theorem responses_matched_by_id (w : world) :
  Inj (=) (=) uuid4 ->
  reachable w ->
  NoDup (omap id_of (calls w)) /\
  length (omap id_of (calls w)) = uuid_calls w /\
  (forall i l pc c msg,
      calls w !! i = Some (Call l pc c) -> futs w !! fut l = Some (FResult msg) ->
      get msg "id" = Ok (JStr (req_id l))) /\
  (forall i l v c,
      calls w !! i = Some (Call l (Returned v) c) -> get v "id" = Ok (JStr (req_id l))) /\
  (forall i l pc c t r n data msg,
      calls w !! i = Some (Call l pc c) -> unfinished pc = true ->
      futs w !! fut l = Some FPending ->
      tasks w !! t = Some (Task (TBody r n) false) ->
      Z.of_nat (length data) = n ->
      json_loads data = Ok msg ->
      get msg "id" = Ok (JStr (req_id l)) ->
      req_id l <> "" ->
      exists w',
        step w (EvRead t (RData data)) = Some w' /\
        futs w' = <[fut l := FResult msg]> (futs w) /\
        _pending (self w') = delete (req_id l) (_pending (self w)) /\
        calls w' = calls w).
Proof.
  intros Hinj Hr. pose proof (reachable_inv Hinj w Hr) as Hi.
  split; [exact (inv_ids_NoDup Hinj _ Hi)|].
  split; [pose proof (inv_ids _ Hi) as Hids; cbn in Hids;
          by rewrite Hids, length_fmap, length_seq|].
  split; [apply (inv_res _ Hi)|]. split; [apply (inv_ret _ Hi)|].
  intros. by eapply response_delivered.
Qed.

End Matching.

(* ===================================================================== *)
(** * Timeout, and the response that comes too late *)
(* ===================================================================== *)

Section Timeout.
Context `{Env}.

(** Line 161: the timer fires, [wait_for] cancels the future. *)
Lemma timeout_fires (w : world) (k : nat) (l : locals) :
  calls w !! k = Some (Call l AtWait NoCancel) ->
  futs w !! fut l = Some FPending ->
  step w (EvTimeoutFire k)
    = Some (set_call k (Call l AtWait ByTimeout) (set_futs (<[fut l := FCancelled]> (futs w)) w)).
Proof.
  intros Hk Hf. cbn. unfold timeout_fire. rewrite Hk.
  unfold cancel_fut, fut_done. by rewrite Hf.
Qed.

(** Lines 163-165: the call pops its entry and raises [TimeoutError]. *)
Lemma timeout_raises (w : world) (k : nat) (l : locals) :
  calls w !! k = Some (Call l AtWait ByTimeout) ->
  step w (EvWake k)
    = Some (set_call k (Call l (Raised (timed_out l)) NoCancel) (pop (req_id l) w)).
Proof. intros Hk. cbn. unfold wake_call. by rewrite Hk. Qed.

(** Lines 112-118: a response whose id is not in the table is logged and
    changes nothing else. *)
Lemma unmatched_response (w : world) (t : tid) (r : conn) (n : Z) (data : list byte)
    (msg : json) (id : string) :
  wired w ->
  tasks w !! t = Some (Task (TBody r n) false) ->
  Z.of_nat (length data) = n ->
  json_loads data = Ok msg ->
  get msg "id" = Ok (JStr id) ->
  _pending (self w) !! id = None ->
  exists w',
    step w (EvRead t (RData data)) = Some w' /\
    _pending (self w') = _pending (self w) /\
    futs w' = futs w /\
    calls w' = calls w /\
    log w' = log w ++ [LogUnmatched msg].
Proof.
  intros Hw Ht Hn Hl Hg Hp.
  destruct Hw as [Hnil|[r0 Hr0]]; [by rewrite Hnil in Ht|].
  cbn. unfold read_loop_resume. rewrite Ht.
  apply Z.eqb_eq in Hn. rewrite Hn. cbn [negb]. rewrite Hl.
  unfold route. rewrite Hg. cbn [truthy hashable negb on_self self _pending set_last_seen].
  rewrite Hp. unfold read_loop_turn.
  destruct (negb (id =? "")%string); cbn; rewrite Hr0; eauto 10.
Qed.

(** C3: provided [uuid4] never repeats a value: when the timer of
    [wait_for] fires on a call whose future is not done, the future is
    cancelled; when the call runs next it raises [TimeoutError] and its id
    is removed from the table, the other entries and the futures left as
    they are; and in every world the bridge reaches afterwards the id is
    still absent, so that a response arriving with that id is logged as
    unmatched and changes neither the table, nor any future, nor any
    call. *)
Theorem timeout_then_late_response (w : world) (k : nat) (l : locals) :
  Inj (=) (=) uuid4 ->
  reachable w ->
  calls w !! k = Some (Call l AtWait NoCancel) ->
  futs w !! fut l = Some FPending ->
  exists w1,
    step w (EvTimeoutFire k) = Some w1 /\
    calls w1 !! k = Some (Call l AtWait ByTimeout) /\
    futs w1 !! fut l = Some FCancelled /\
    forall evs1 w1',
      run evs1 w1 = Some w1' ->
      calls w1' !! k = Some (Call l AtWait ByTimeout) ->
      exists w2,
        step w1' (EvWake k) = Some w2 /\
        calls w2 !! k = Some (Call l (Raised (timed_out l)) NoCancel) /\
        isinstance (timed_out l) TimeoutError = true /\
        _pending (self w2) = delete (req_id l) (_pending (self w1')) /\
        futs w2 = futs w1' /\
        forall evs2 w3,
          run evs2 w2 = Some w3 ->
          _pending (self w3) !! req_id l = None /\
          forall t r n data msg,
            tasks w3 !! t = Some (Task (TBody r n) false) ->
            Z.of_nat (length data) = n ->
            json_loads data = Ok msg ->
            get msg "id" = Ok (JStr (req_id l)) ->
            exists w4,
              step w3 (EvRead t (RData data)) = Some w4 /\
              _pending (self w4) = _pending (self w3) /\
              futs w4 = futs w3 /\
              calls w4 = calls w3 /\
              log w4 = log w3 ++ [LogUnmatched msg].
Proof.
  intros Hinj Hr Hk Hf.
  assert (Hlt : k < length (calls w)) by (by eapply lookup_lt_Some).
  assert (Hlf : fut l < length (futs w)) by (by eapply lookup_lt_Some).
  eexists. split; [by apply timeout_fires|].
  split; [cbn; by apply list_lookup_insert_eq|].
  split; [cbn; by apply list_lookup_insert_eq|].
  intros evs1 w1' Hrun1 Hk1.
  assert (Hr1 : reachable w1').
  { eapply reachable_run; [|exact Hrun1]. eapply reachable_step; [exact Hr|].
    by apply timeout_fires. }
  eexists. split; [by apply timeout_raises|].
  split; [cbn; apply list_lookup_insert_eq; by eapply lookup_lt_Some|].
  split; [done|]. split; [done|]. split; [done|].
  intros evs2 w3 Hrun2.
  set (w2 := set_call k (Call l (Raised (timed_out l)) NoCancel) (pop (req_id l) w1')) in *.
  assert (Hr2 : reachable w2).
  { eapply reachable_step; [exact Hr1|]. by apply timeout_raises. }
  assert (Hr3 : reachable w3) by (by eapply reachable_run).
  assert (Hk3 : calls w3 !! k = Some (Call l (Raised (timed_out l)) NoCancel)).
  { apply (ops_finished_stable (core_of w2) (core_of w3)); [by eapply run_ops| |done].
    cbn. apply list_lookup_insert_eq. by eapply lookup_lt_Some. }
  assert (Hgone : _pending (self w3) !! req_id l = None).
  { by apply (inv_gone _ (reachable_inv Hinj w3 Hr3) k l (Raised (timed_out l)) NoCancel). }
  split; [done|]. intros t r n data msg Ht Hn Hl Hg.
  by eapply unmatched_response; [apply reachable_wired|..].
Qed.

End Timeout.

(* ===================================================================== *)
(** * Runs of the bridge on the reference environment *)
(* ===================================================================== *)

Lemma ref_uuid4_inj : Inj (=) (=) (@uuid4 Ref.env).
Proof.
  intros x y Heq. cbn in Heq. injection Heq as Heq. by apply (inj pretty).
Qed.

(** C2, witness: each of the two callers returns the response that carries
    its own id. *)
Lemma responses_matched_by_id_witness :
  exists w,
    @run Ref.env crossed init = Some w /\
    calls w !! 0 = Some (Call (Locals "uuid-0" 0 "account_info" 10)
                              (Returned (reply_to "uuid-0" 1)) NoCancel) /\
    calls w !! 1 = Some (Call (Locals "uuid-1" 1 "positions" 10)
                              (Returned (reply_to "uuid-1" 2)) NoCancel) /\
    NoDup (omap id_of (calls w)) /\
    length (omap id_of (calls w)) = uuid_calls w.
Proof.
  destruct (@run Ref.env crossed init) as [w|] eqn:Hw; [|by vm_compute in Hw].
  destruct (@responses_matched_by_id Ref.env w ref_uuid4_inj (ex_intro _ crossed Hw))
    as (Hnd & Hlen & _).
  exists w. split; [done|].
  vm_compute in Hw. injection Hw as <-. split; [done|]. split; [done|]. split; done.
Defined.

(** C3, witness: the scenario of the specification.  The peer never
    answers, the timer fires, the caller raises [TimeoutError] and the table
    no longer holds the id; the answer that comes later changes nothing. *)
Lemma timeout_then_late_response_witness :
  exists w w1 w2 w4,
    @run Ref.env one_pending init = Some w /\
    @step Ref.env w (EvTimeoutFire 0) = Some w1 /\
    @step Ref.env w1 (EvWake 0) = Some w2 /\
    calls w2 !! 0
      = Some (Call (Locals "uuid-0" 0 "account_info" 10)
                   (Raised (Exn TimeoutError "Command 'account_info' timed out after 10s"))
                   NoCancel) /\
    _pending (self w2) !! "uuid-0" = None /\
    @run Ref.env [EvRead 0 (RData (header_of reply_data)); EvRead 0 (RData (body_of reply_data))] w2
      = Some w4 /\
    _pending (self w4) = _pending (self w2) /\ futs w4 = futs w2 /\ calls w4 = calls w2.
Proof.
  destruct (@run Ref.env one_pending init) as [w|] eqn:Hw; [|by vm_compute in Hw].
  assert (Hw' := Hw). vm_compute in Hw'. injection Hw' as Hw'.
  destruct (@timeout_then_late_response Ref.env w 0 (Locals "uuid-0" 0 "account_info" 10)
              ref_uuid4_inj (ex_intro _ one_pending Hw))
    as (w1 & Hs1 & Hk1 & _ & Hnext); [by rewrite <- Hw'..|].
  destruct (Hnext [] w1 eq_refl Hk1) as (w2 & Hs2 & Hk2 & _ & Hp2 & _ & Hlate).
  destruct (@step Ref.env w2 (EvRead 0 (RData (header_of reply_data)))) as [w3|] eqn:Hs3.
  2: { exfalso. rewrite <- Hw' in Hs1. vm_compute in Hs1. injection Hs1 as <-.
       vm_compute in Hs2. injection Hs2 as <-. by vm_compute in Hs3. }
  destruct (Hlate [EvRead 0 (RData (header_of reply_data))] w3) as [Hgone Hdrop].
  { cbn [run]. by rewrite Hs3. }
  destruct (Hdrop 0 0 (Z.of_nat (length (body_of reply_data))) (body_of reply_data) reply_data)
    as (w4 & Hs4 & Hp4 & Hf4 & Hc4 & _); try done.
  { rewrite <- Hw' in Hs1. vm_compute in Hs1. injection Hs1 as <-.
    vm_compute in Hs2. injection Hs2 as <-. vm_compute in Hs3. injection Hs3 as <-.
    done. }
  assert (Hsame : _pending (self w3) = _pending (self w2) /\ futs w3 = futs w2 /\ calls w3 = calls w2).
  { rewrite <- Hw' in Hs1. vm_compute in Hs1. injection Hs1 as <-.
    vm_compute in Hs2. injection Hs2 as <-. vm_compute in Hs3. injection Hs3 as <-.
    done. }
  destruct Hsame as (Hp3 & Hf3 & Hc3).
  exists w, w1, w2, w4. split; [done|]. split; [done|]. split; [done|].
  split; [done|]. split.
  { rewrite Hp2. apply lookup_delete_eq. }
  split; [cbn [run]; by rewrite Hs3, Hs4|].
  split; [congruence|]. split; congruence.
Defined.


Example three_pending_disconnected :
  (@run Ref.env (three_pending ++ [EvRead 0 RIncomplete; EvWake 0; EvWake 1; EvWake 2]) init
     ≫= fun w => Some (Api.outcome <$> calls w, map_to_list (_pending (self w)), _connected (self w)))
  = Some ([Some (Raise (Exn ConnectionError "EA disconnected"));
           Some (Raise (Exn ConnectionError "EA disconnected"));
           Some (Raise (Exn ConnectionError "EA disconnected"))], [], false).
Proof. by vm_compute. Qed.

(** ** Cancellation of the caller (C10) *)

(** For every call that ended with an exception of class [Exception], and
    for every call that returned, the table holds no entry under the id of
    the call (provided [uuid4] never repeats a value). *)
Lemma settled_call_has_no_entry `{Env} (w : world) (k : nat) (l : locals) (pc : send_pc) (c : wake) :
  Inj (=) (=) uuid4 -> reachable w ->
  calls w !! k = Some (Call l pc c) -> settled pc = true ->
  _pending (self w) !! req_id l = None.
Proof. intros Hinj Hr. apply (inv_gone _ (reachable_inv Hinj w Hr)). Qed.

(** C10, at the failing input: the task that awaits [send_command] is
    cancelled while the call waits for the response.  [CancelledError] is
    not an [Exception], neither [except] clause of lines 163-168 runs, and
    the exception reaches the caller with the id still in the table. *)
Lemma cancelled_call_keeps_entry :
  (@run Ref.env (one_pending ++ [EvCancelCall 0; EvWake 0]) init
     ≫= fun w => Some (calls w !! 0, _pending (self w) !! "uuid-0", futs w !! 0))
  = Some (Some (Call (Locals "uuid-0" 0 "account_info" 10)
                     (Raised (Exn CancelledError "")) NoCancel),
          Some 0, Some FCancelled) /\
  isinstance (Exn CancelledError "") Exception = false /\
  isinstance (Exn CancelledError "") BaseException = true.
Proof. repeat split; by vm_compute. Qed.

(** ** Two connections accepted back to back (C5) *)

(** C5, at the failing input.  After [overlap], connection 2 is the current
    one and the facade is connected, although connection 1, which was
    current in between, was never closed and its read loop was never
    cancelled: two read loops are alive on one facade.  Both take their
    reader from [self._reader], that is connection 2; when a call has been
    registered under connection 2 and the current loop is refused by the
    reader, its [finally] block marks the facade disconnected and fails the
    call, while connection 2 stays open and current and the loop created
    for connection 1 goes on reading. *)
Lemma overlapping_handlers_leave_two_loops :
  (@run Ref.env overlap init
     ≫= fun w => Some (_writer (self w), _connected (self w), _read_task (self w),
                        socks w, tasks w))
  = Some (Some 2, true, Some 2,
          [Sock true []; Sock false []; Sock false []],
          [Task TDone false; Task TNew false; Task TNew false]) /\
  (@run Ref.env (overlap ++ [EvSend "account_info" None 10; EvDrainDone 0 None;
                             EvTaskStart 1; EvTaskStart 2; EvRead 2 (RError already_waiting);
                             EvWake 0]) init
     ≫= fun w => Some (_writer (self w), _connected (self w), s_closed <$> socks w,
                        tasks w, Api.outcome <$> calls w))
  = Some (Some 2, false, [true; false; false],
          [Task TDone false; Task (THeader 2) false; Task TDone false],
          [Some (Raise (Exn ConnectionError "EA disconnected"))]).
Proof. split; by vm_compute. Qed.

(* ===================================================================== *)
(** * The connection fields of a connected bridge *)
(* ===================================================================== *)

Section Connected.
Context `{Env}.

Lemma calm_refl (w : world) : calm w w.
Proof. by repeat split. Qed.

Lemma calm_trans (w1 w2 w3 : world) : calm w1 w2 -> calm w2 w3 -> calm w1 w3.
Proof.
  intros (? & ? & ? & ? & ?) (? & ? & ? & ? & ?).
  repeat split; try congruence; auto.
Qed.

Lemma calm_finally (final : task_state) (t : tid) (w : world) :
  calm w (read_loop_finally final t w).
Proof. unfold read_loop_finally, calm. by case_match. Qed.

Lemma calm_except (e : exn) (t : tid) (w : world) : calm w (read_loop_except e t w).
Proof.
  unfold read_loop_except.
  repeat case_match; (eapply calm_trans; [|apply calm_finally]); calm_same.
Qed.

Lemma calm_route (msg : json) (w : world) : calm w (fst (route msg w)).
Proof. unfold route. repeat case_match; calm_same. Qed.

Lemma calm_turn (t : tid) (w : world) : calm w (read_loop_turn t w).
Proof. unfold read_loop_turn. case_match; [calm_same | apply calm_except]. Qed.

Lemma calm_cancel_read_task (w : world) : calm w (cancel_read_task w).
Proof. unfold cancel_read_task. repeat case_match; calm_same. Qed.

Lemma calm_stop_finish (s : nat) (w : world) : calm w (stop_finish s w).
Proof. unfold stop_finish, calm. by case_match. Qed.

Lemma calm_stop_server (s : nat) (w : world) : calm w (stop_server s w).
Proof. unfold stop_server. case_match; [calm_same | apply calm_stop_finish]. Qed.

Lemma calm_raise_in_try (k : nat) (l : locals) (e : exn) (w : world) :
  calm w (raise_in_try k l e w).
Proof.
  unfold raise_in_try, send_except.
  destruct (isinstance e TimeoutError); [calm_same|].
  destruct (isinstance e Exception); calm_same.
Qed.

Lemma calm_wait_for (k : nat) (l : locals) (w : world) : calm w (wait_for k l w).
Proof.
  unfold wait_for. repeat case_match; first [apply calm_raise_in_try | calm_same].
Qed.

Lemma calm_write_frame (k : nat) (l : locals) (data : list byte) (w : world) :
  calm w (write_frame k l data w).
Proof.
  unfold write_frame. cbn. case_match; [calm_same|].
  eapply calm_trans; [|apply calm_raise_in_try]. calm_same.
Qed.

Lemma calm_send_command (cmd : string) (params : option json) (tmo : Z) (w : world) :
  calm w (send_command cmd params tmo w).
Proof.
  unfold send_command. repeat case_match; try calm_same.
  - eapply calm_trans; [|apply calm_write_frame]. calm_same.
  - eapply calm_trans; [|apply calm_raise_in_try]. calm_same.
Qed.

(** Every step leaves the connection fields alone or runs lines 85-91. *)
Lemma step_calm_or_install (w w' : world) (ev : event) :
  step w ev = Some w' ->
  calm w w' \/ exists c w0, calm (install c w0) w'.
Proof.
  destruct ev; cbn [step]; intros Hs.
  - injection Hs as <-. left. unfold start. case_match; calm_same.
  - injection Hs as <-. left. unfold stop. case_match.
    + eapply calm_trans; [apply calm_cancel_read_task|]. calm_same.
    + eapply calm_trans; [apply calm_cancel_read_task|].
      eapply calm_trans; [|apply calm_stop_server]. calm_same.
  - left. unfold stop_resume in Hs. repeat case_match; simplify_eq;
      first [apply calm_stop_server | apply calm_stop_finish | calm_same].
  - case_match; [|done]. injection Hs as <-. unfold handle_connection. case_match.
    + left. cbn. unfold close_sock.
      match goal with |- calm _ (set_handlers _ (set_socks _ (cancel_read_task ?w0))) =>
        apply (calm_trans _ w0); [calm_same|];
        apply (calm_trans _ (cancel_read_task w0)); [apply calm_cancel_read_task|calm_same] end.
    + right. eexists _, _. calm_same.
  - unfold handle_connection_resume in Hs. repeat case_match; simplify_eq;
      first [left; calm_same | right; eexists _, _; calm_same].
  - left. unfold read_loop_start in Hs. repeat case_match; simplify_eq;
      first [apply calm_turn | calm_same].
  - left. unfold read_loop_resume in Hs.
    repeat case_match; simplify_eq;
      try first [apply calm_except | apply calm_finally
                | eapply calm_trans; [|apply calm_finally]; calm_same
                | calm_same ].
    + match goal with Hr : route ?m ?w1 = _ |- _ =>
        pose proof (calm_route m w1) as Hq; rewrite Hr in Hq end.
      eapply calm_trans; [|apply calm_except].
      eapply calm_trans; [|exact Hq]. repeat split; cbn; eauto.
    + match goal with Hr : route ?m ?w1 = _ |- _ =>
        pose proof (calm_route m w1) as Hq; rewrite Hr in Hq end.
      eapply calm_trans; [|apply calm_turn].
      eapply calm_trans; [|exact Hq]. repeat split; cbn; eauto.
  - injection Hs as <-. left. apply calm_send_command.
  - left. unfold lock_granted in Hs. repeat case_match; simplify_eq.
    apply calm_write_frame.
  - left. unfold drain_done in Hs. repeat case_match; simplify_eq.
    + eapply calm_trans; [|apply calm_raise_in_try]. calm_same.
    + eapply calm_trans; [|apply calm_wait_for]. calm_same.
  - left. unfold timeout_fire in Hs. repeat case_match; simplify_eq. calm_same.
  - left. unfold cancel_call in Hs. repeat case_match; simplify_eq; calm_same.
  - left. unfold wake_call in Hs. repeat case_match; simplify_eq;
      first [apply calm_raise_in_try | apply calm_wait_for
            | eapply calm_trans; [|apply calm_raise_in_try]; calm_same].
  - injection Hs as <-. left. calm_same.
Qed.

Lemma installed_calm (w w' : world) : calm w w' -> installed w -> installed w'.
Proof.
  intros (Hw & Hr & Ht & Hl & _) (? & ? & ? & ?).
  repeat split; [by rewrite Hw | by rewrite Hr | by apply Hl | by rewrite Ht].
Qed.

Lemma installed_install (c : conn) (w : world) : installed (install c w).
Proof. repeat split; cbn; eauto. Qed.

Lemma step_connected (w w' : world) (ev : event) :
  step w ev = Some w' ->
  (_connected (self w) = true -> installed w) /\ _reader (self w) = _writer (self w) ->
  (_connected (self w') = true -> installed w') /\ _reader (self w') = _writer (self w').
Proof.
  intros Hs [Hj Hp]. destruct (step_calm_or_install _ _ _ Hs) as [Hq|(c & w0 & Hq)].
  - split.
    + intros Hc. apply (installed_calm _ _ Hq), Hj. by apply Hq.
    + destruct Hq as (Hw & Hr & _). by rewrite Hw, Hr.
  - split.
    + intros _. apply (installed_calm _ _ Hq), installed_install.
    + destruct Hq as (Hw & Hr & _). by rewrite Hw, Hr.
Qed.

Lemma reachable_connected (w : world) :
  reachable w ->
  (_connected (self w) = true -> installed w) /\ _reader (self w) = _writer (self w).
Proof.
  intros [evs Hr].
  assert (Hi : (_connected (self init) = true -> installed init) /\
               _reader (self init) = _writer (self init)) by done.
  revert Hr Hi. generalize init. induction evs as [|e evs IH]; intros w0; cbn.
  - by intros [= ->].
  - destruct (step w0 e) as [w1|] eqn:Hs; [|done]. intros Hr Hw.
    apply (IH w1 Hr). by eapply step_connected.
Qed.

Lemma raise_in_try_calls (k : nat) (l : locals) (e : exn) (w : world) :
  calls (raise_in_try k l e w)
    = <[k := Call l (Raised (snd (send_except l e w))) NoCancel]> (calls w).
Proof.
  unfold raise_in_try, send_except.
  destruct (isinstance e TimeoutError); [done|]. by destruct (isinstance e Exception).
Qed.

(** In every world the bridge reaches, a bridge marked connected has a
    writer, a reader, a read task and a time of last contact, and the
    reader and the writer are those of one connection.  The test
    [not self._writer] of line 138 therefore never decides: a call of
    [send_command] is refused with [ConnectionError("EA not connected")]
    exactly when [_connected] is false. *)
Theorem connected_has_writer (w : world) :
  reachable w ->
  (_connected (self w) = true -> installed w) /\
  _reader (self w) = _writer (self w) /\
  (forall cmd params tmo,
     last (calls (send_command cmd params tmo w))
       = Some (RaisedEarly (Exn ConnectionError "EA not connected"))
     <-> _connected (self w) = false).
Proof.
  intros Hr. destruct (reachable_connected w Hr) as [Hj Hp].
  split; [done|]. split; [done|].
  intros cmd params tmo. split.
  - intros Hlast. destruct (_connected (self w)) eqn:Hc; [|done]. exfalso.
    destruct (Hj eq_refl) as ([wr Hw] & _).
    revert Hlast. unfold send_command. rewrite Hc, Hw. cbn [negb orb].
    rewrite bool_decide_eq_true_2 by eauto. cbn [negb].
    destruct (encode _) as [data|e].
    + destruct (_lock _); unfold write_frame; cbn; rewrite ?Hw; cbn;
        by rewrite insert_snoc, last_snoc.
    + rewrite raise_in_try_calls. cbn. by rewrite insert_snoc, last_snoc.
  - intros Hc. unfold send_command. rewrite Hc. cbn. by rewrite last_snoc.
Qed.

End Connected.

(* ===================================================================== *)
(** * The write lock *)
(* ===================================================================== *)

Lemma drains_app (a b : list call) : drains (a ++ b) = drains a + drains b.
Proof. induction a as [|c a IH]; cbn; [done|]. rewrite IH. lia. Qed.

Lemma drains_insert (cs : list call) (k : nat) (c c' : call) :
  cs !! k = Some c ->
  drains (<[k := c']> cs) + (if in_drain c then 1 else 0)
    = drains cs + (if in_drain c' then 1 else 0).
Proof.
  revert k. induction cs as [|a cs IH]; intros [|k] Hk; try done; simpl in *.
  - injection Hk as ->. destruct (in_drain c), (in_drain c'); lia.
  - specialize (IH k Hk). revert IH. destruct (in_drain c), (in_drain c'), (in_drain a); lia.
Qed.

Lemma drains_lookup (cs : list call) (k : nat) (c : call) :
  cs !! k = Some c -> in_drain c = true -> 1 <= drains cs.
Proof.
  revert k. induction cs as [|a cs IH]; intros [|k] Hk Hd; try done; cbn in *.
  - injection Hk as ->. rewrite Hd. lia.
  - specialize (IH k Hk Hd). destruct (in_drain a); lia.
Qed.

Lemma drains_unique (cs : list call) (i j : nat) (a b : call) :
  drains cs <= 1 ->
  cs !! i = Some a -> in_drain a = true ->
  cs !! j = Some b -> in_drain b = true -> i = j.
Proof.
  revert i j. induction cs as [|c cs IH]; intros [|i] [|j] Hn Hi Ha Hj Hb;
    try done; cbn in *.
  - injection Hi as ->. rewrite Ha in Hn. pose proof (drains_lookup _ _ _ Hj Hb). lia.
  - injection Hj as ->. rewrite Hb in Hn. pose proof (drains_lookup _ _ _ Hi Ha). lia.
  - f_equal. apply IH; try done. destruct (in_drain c); lia.
Qed.

Lemma drains_positive (cs : list call) :
  1 <= drains cs -> exists k c, cs !! k = Some c /\ in_drain c = true.
Proof.
  induction cs as [|c cs IH]; cbn; [lia|]. intros Hn.
  destruct (in_drain c) eqn:Hc.
  - by exists 0, c.
  - destruct IH as (k & c' & Hk & Hd); [lia|]. by exists (S k), c'.
Qed.

Section WriteLock.
Context `{Env}.

Lemma aside_trans (w1 w2 w3 : world) : aside w1 w2 -> aside w2 w3 -> aside w1 w3.
Proof.
  intros (? & ? & ? & n & Hn) (? & ? & ? & m & Hm).
  split; [congruence|]. split; [congruence|]. split; [congruence|].
  exists (n + m). by rewrite Hm, Hn, replicate_add, app_assoc.
Qed.

Lemma outs_close_sock (c : conn) (w : world) : outs (close_sock c w) = outs w.
Proof.
  unfold outs, close_sock. cbn. generalize (socks w). intros ss. revert c.
  induction ss as [|s ss IH]; intros [|c]; cbn; try done. f_equal. apply IH.
Qed.

Lemma aside_close_sock (c : conn) (w : world) : aside w (close_sock c w).
Proof.
  split; [done|]. split; [done|]. split; [done|].
  exists 0. by rewrite outs_close_sock, app_nil_r.
Qed.

(** Line 71: the accepted connection has written nothing. *)
Lemma aside_accept (e : log_entry) (w : world) :
  aside w (logged e (set_socks (socks w ++ [Sock false []]) w)).
Proof.
  split; [done|]. split; [done|]. split; [done|].
  exists 1. unfold outs. cbn. by rewrite fmap_app.
Qed.

Lemma aside_finally (final : task_state) (t : tid) (w : world) :
  aside w (read_loop_finally final t w).
Proof. unfold read_loop_finally. case_match; aside_same. Qed.

Lemma aside_except (e : exn) (t : tid) (w : world) : aside w (read_loop_except e t w).
Proof.
  unfold read_loop_except.
  repeat case_match; (eapply aside_trans; [|apply aside_finally]); aside_same.
Qed.

Lemma aside_route (msg : json) (w : world) : aside w (fst (route msg w)).
Proof. unfold route. repeat case_match; aside_same. Qed.

Lemma aside_turn (t : tid) (w : world) : aside w (read_loop_turn t w).
Proof. unfold read_loop_turn. case_match; [aside_same | apply aside_except]. Qed.

Lemma aside_cancel_read_task (w : world) : aside w (cancel_read_task w).
Proof. unfold cancel_read_task. repeat case_match; aside_same. Qed.

Lemma aside_stop_finish (s : nat) (w : world) : aside w (stop_finish s w).
Proof. unfold stop_finish. case_match; aside_same. Qed.

Lemma aside_stop_server (s : nat) (w : world) : aside w (stop_server s w).
Proof. unfold stop_server. case_match; [aside_same | apply aside_stop_finish]. Qed.

(** The events of the read loop, of the handlers, of [start] and of [stop]
    move no call and leave the lock alone. *)
Lemma step_aside (w w' : world) (ev : event) :
  step w ev = Some w' ->
  match ev with
  | EvSend _ _ _ | EvLockGranted _ | EvDrainDone _ _
  | EvTimeoutFire _ | EvCancelCall _ | EvWake _ => True
  | _ => aside w w'
  end.
Proof.
  destruct ev; cbn [step]; intros Hs; try done.
  - injection Hs as <-. unfold start. case_match; aside_same.
  - injection Hs as <-. unfold stop. case_match.
    + eapply aside_trans; [apply aside_cancel_read_task|].
      eapply aside_trans; [apply aside_close_sock|]. aside_same.
    + eapply aside_trans; [apply aside_cancel_read_task|].
      eapply aside_trans; [|apply aside_stop_server]. aside_same.
  - unfold stop_resume in Hs. repeat case_match; simplify_eq;
      first [apply aside_stop_server | apply aside_stop_finish | aside_same].
  - case_match; [|done]. injection Hs as <-. unfold handle_connection.
    cbn zeta. eapply aside_trans; [apply (aside_accept (LogConnected (length (socks w))))|].
    case_match.
    + match goal with |- aside ?w1 (set_handlers _ (close_sock _ (cancel_read_task ?w0))) =>
        apply (aside_trans _ w0); [aside_same|];
        apply (aside_trans _ (cancel_read_task w0)); [apply aside_cancel_read_task|];
        eapply aside_trans; [apply aside_close_sock|]; aside_same end.
    + aside_same.
  - unfold handle_connection_resume in Hs. repeat case_match; simplify_eq; aside_same.
  - unfold read_loop_start in Hs. repeat case_match; simplify_eq;
      first [apply aside_turn | aside_same].
  - unfold read_loop_resume in Hs.
    repeat case_match; simplify_eq;
      try first [apply aside_except | apply aside_finally
                | eapply aside_trans; [|apply aside_finally]; aside_same
                | aside_same ].
    + match goal with Hr : route ?m ?w1 = _ |- _ =>
        pose proof (aside_route m w1) as Hq; rewrite Hr in Hq end.
      eapply aside_trans; [|apply aside_except].
      eapply aside_trans; [|exact Hq]. aside_same.
    + match goal with Hr : route ?m ?w1 = _ |- _ =>
        pose proof (aside_route m w1) as Hq; rewrite Hr in Hq end.
      eapply aside_trans; [|apply aside_turn].
      eapply aside_trans; [|exact Hq]. aside_same.
  - injection Hs as <-. aside_same.
Qed.

(** [send_command], with the world after lines 141-149 named. *)
Lemma send_command_eq (cmd : string) (params : option json) (tmo : Z) (w : world) :
  send_command cmd params tmo w =
    if negb (_connected (self w)) || negb (bool_decide (is_Some (_writer (self w))))
    then set_calls (calls w ++ [RaisedEarly (Exn ConnectionError "EA not connected")]) w
    else
      match encode (request (uuid4 (uuid_calls w)) cmd params) with
      | Raise e => raise_in_try (length (calls w)) (new_locals cmd tmo w) e (registered cmd tmo w)
      | Ok data =>
          if _lock (self w)
          then set_call (length (calls w)) (Call (new_locals cmd tmo w) (AtLock data) NoCancel)
                 (registered cmd tmo w)
          else write_frame (length (calls w)) (new_locals cmd tmo w) data (registered cmd tmo w)
      end.
Proof. reflexivity. Qed.

Lemma registered_call (cmd : string) (tmo : Z) (w : world) :
  calls (registered cmd tmo w) !! length (calls w)
    = Some (Call (new_locals cmd tmo w) AtWait NoCancel).
Proof. cbn. apply lookup_snoc. Qed.

Lemma counted_update (w w' : world) (k : nat) (c c' : call) :
  calls w !! k = Some c ->
  calls w' = <[k := c']> (calls w) ->
  drains (calls w') + (if in_drain c then 1 else 0)
    = drains (calls w) + (if in_drain c' then 1 else 0).
Proof. intros Hk ->. by apply drains_insert. Qed.

Lemma raise_in_try_lock (k : nat) (l : locals) (e : exn) (w : world) :
  _lock (self (raise_in_try k l e w)) = _lock (self w).
Proof.
  unfold raise_in_try, send_except.
  destruct (isinstance e TimeoutError); [done|]. by destruct (isinstance e Exception).
Qed.

(** A call that leaves [async with], or was never inside. *)
Lemma counted_raise_in_try (k : nat) (l : locals) (e : exn) (w : world) (c : call) (b : bool) :
  calls w !! k = Some c ->
  drains (calls w) = (if in_drain c then 1 else 0) + (if b then 1 else 0) ->
  _lock (self w) = b ->
  lock_counted (raise_in_try k l e w).
Proof.
  intros Hk Hn Hl. unfold lock_counted. rewrite raise_in_try_lock, Hl.
  pose proof (counted_update w (raise_in_try k l e w) k c _ Hk (raise_in_try_calls k l e w)) as Hu.
  cbn [in_drain] in Hu. repeat case_match; lia.
Qed.

Lemma counted_set_call (k : nat) (c c' : call) (w : world) (b : bool) :
  calls w !! k = Some c ->
  in_drain c' = false ->
  drains (calls w) = (if in_drain c then 1 else 0) + (if b then 1 else 0) ->
  _lock (self w) = b ->
  lock_counted (set_call k c' w).
Proof.
  intros Hk Hc' Hn Hl. unfold lock_counted.
  change (calls (set_call k c' w)) with (<[k := c']> (calls w)).
  change (_lock (self (set_call k c' w))) with (_lock (self w)). rewrite Hl.
  pose proof (drains_insert (calls w) k c c' Hk) as Hu. rewrite Hc' in Hu.
  repeat case_match; lia.
Qed.

Lemma counted_wait_for (k : nat) (l : locals) (w : world) (c : call) (b : bool) :
  calls w !! k = Some c ->
  drains (calls w) = (if in_drain c then 1 else 0) + (if b then 1 else 0) ->
  _lock (self w) = b ->
  lock_counted (wait_for k l w).
Proof.
  intros Hk Hn Hl. unfold wait_for.
  destruct (futs w !! fut l) as [[| | |]|];
    first [ eapply (counted_raise_in_try _ _ _ _ c b); [exact Hk|exact Hn|exact Hl]
          | eapply (counted_set_call _ c _ _ b); [exact Hk|reflexivity|exact Hn|exact Hl] ].
Qed.

Lemma counted_write_frame (k : nat) (l : locals) (data : list byte) (w : world) (c : call) :
  calls w !! k = Some c ->
  in_drain c = false ->
  drains (calls w) = 0 ->
  lock_counted (write_frame k l data w).
Proof.
  intros Hk Hc Hn. unfold write_frame. cbn [on_self self _writer set_lock].
  destruct (_writer (self w)) as [wr|].
  - unfold lock_counted. cbn.
    pose proof (drains_insert (calls w) k c (Call l AtDrain NoCancel) Hk) as Hu.
    rewrite Hc in Hu. cbn [in_drain] in Hu. lia.
  - eapply (counted_raise_in_try _ _ _ _ c false); [done| |done].
    cbn [calls on_self]. rewrite Hc. lia.
Qed.

Lemma lock_counted_aside (w w' : world) : aside w w' -> lock_counted w -> lock_counted w'.
Proof. intros (Hc & Hl & _). unfold lock_counted. by rewrite Hc, Hl. Qed.

Lemma step_lock_counted (w w' : world) (ev : event) :
  step w ev = Some w' -> lock_counted w -> lock_counted w'.
Proof.
  intros Hs Hn. pose proof (step_aside _ _ _ Hs) as Ha.
  destruct ev; try (by eapply lock_counted_aside); clear Ha; cbn [step] in Hs.
  - injection Hs as <-. rewrite send_command_eq.
    destruct (negb _ || negb _).
    { unfold lock_counted in *. cbn. rewrite drains_app. cbn. lia. }
    pose proof (registered_call cmd tmo w) as Hk.
    assert (Hd : drains (calls (registered cmd tmo w)) = drains (calls w))
      by (cbn; rewrite drains_app; cbn; lia).
    unfold lock_counted in Hn.
    destruct (encode _) as [data|e].
    + destruct (_lock (self w)) eqn:Hl.
      * eapply (counted_set_call _ _ _ _ true); [exact Hk|done| |done].
        by rewrite Hd, Hn.
      * eapply counted_write_frame; [exact Hk|done|]. by rewrite Hd, Hn.
    + eapply (counted_raise_in_try _ _ _ _ _ (_lock (self w))); [exact Hk| |done].
      rewrite Hd. exact Hn.
  - unfold lock_granted in Hs. repeat case_match; simplify_eq.
    eapply counted_write_frame; [done|done|].
    unfold lock_counted in Hn. by rewrite Hn; case_match.
  - unfold drain_done in Hs. destruct (calls w !! k) as [c|] eqn:Hk; [|done].
    assert (Hb : in_drain c = true -> _lock (self w) = true /\ drains (calls w) = 1).
    { intros Hc. pose proof (drains_lookup _ _ _ Hk Hc). unfold lock_counted in Hn.
      destruct (_lock (self w)); [done|lia]. }
    repeat case_match; simplify_eq; destruct (Hb eq_refl) as [Hl Hd].
    + eapply (counted_raise_in_try _ _ _ _ _ false); [exact Hk|exact Hd|done].
    + eapply (counted_wait_for _ _ _ _ false); [exact Hk|exact Hd|done].
  - unfold timeout_fire in Hs. repeat case_match; simplify_eq.
    eapply (counted_set_call _ _ _ _ (_lock (self w))); [done|done| |done].
    exact Hn.
  - unfold cancel_call in Hs. destruct (calls w !! k) as [c|] eqn:Hk; [|done].
    repeat case_match; simplify_eq;
      try (eapply (counted_set_call _ _ _ _ (_lock (self w))); [done|done|exact Hn|done]).
    unfold lock_counted in *. cbn.
    pose proof (drains_insert (calls w) k _ (Call l AtDrain ByCaller) Hk) as Hu.
    cbn [in_drain] in Hu. lia.
  - unfold wake_call in Hs. destruct (calls w !! k) as [c|] eqn:Hk; [|done].
    assert (Hb : in_drain c = true -> _lock (self w) = true /\ drains (calls w) = 1).
    { intros Hc. pose proof (drains_lookup _ _ _ Hk Hc). unfold lock_counted in Hn.
      destruct (_lock (self w)); [done|lia]. }
    repeat case_match; simplify_eq;
      try (eapply (counted_wait_for _ _ _ _ (_lock (self w))); [done|exact Hn|done]);
      try (eapply (counted_raise_in_try _ _ _ _ _ (_lock (self w))); [done|exact Hn|done]).
    destruct (Hb eq_refl) as [Hl Hd].
    eapply (counted_raise_in_try _ _ _ _ _ false); [exact Hk|exact Hd|done].
Qed.

Lemma reachable_lock_counted (w : world) : reachable w -> lock_counted w.
Proof.
  intros [evs Hr]. assert (Hi : lock_counted init) by done.
  revert Hr Hi. generalize init. induction evs as [|e evs IH]; intros w0; cbn.
  - by intros [= ->].
  - destruct (step w0 e) as [w1|] eqn:Hs; [|done]. intros Hr Hw.
    apply (IH w1 Hr). by eapply step_lock_counted.
Qed.

(** In every world the bridge reaches, at most one call of [send_command]
    is inside [async with self._lock] (between its [write] and the end of
    its [drain()]), and the lock is held exactly when there is one: a call
    that left the block by returning, by an exception or by cancellation
    has released the lock. *)
Theorem write_lock_exclusive (w : world) :
  reachable w ->
  (forall k k' l l' c c',
      calls w !! k = Some (Call l AtDrain c) ->
      calls w !! k' = Some (Call l' AtDrain c') -> k = k') /\
  (_lock (self w) = true <-> exists k l c, calls w !! k = Some (Call l AtDrain c)).
Proof.
  intros Hr. pose proof (reachable_lock_counted w Hr) as Hn. unfold lock_counted in Hn.
  split.
  - intros k k' l l' c c' Hk Hk'.
    eapply (drains_unique (calls w)); [|exact Hk|done|exact Hk'|done].
    rewrite Hn. case_match; lia.
  - split.
    + intros Hl. rewrite Hl in Hn.
      destruct (drains_positive (calls w)) as (k & c & Hk & Hc); [lia|].
      destruct c as [|l [] c]; try done. eauto.
    + intros (k & l & c & Hk).
      pose proof (drains_lookup _ _ _ Hk eq_refl).
      destruct (_lock (self w)); [done|lia].
Qed.

End WriteLock.

(* ===================================================================== *)
(** * The bytes on the wire *)
(* ===================================================================== *)

Section WireFacts.
Context `{Env}.

Lemma request_frame_mono (n m : nat) (d : list byte) :
  n <= m -> request_frame n d -> request_frame m d.
Proof. intros Hnm (i & cmd & params & Hi & He). exists i, cmd, params. split; [lia|done]. Qed.

Lemma framed_mono (n m : nat) (out : list byte) : n <= m -> framed n out -> framed m out.
Proof.
  intros Hnm (ds & -> & Hds). exists ds. split; [done|].
  eapply Forall_impl; [exact Hds|]. intros d. by apply request_frame_mono.
Qed.

Lemma framed_nil (n : nat) : framed n [].
Proof. by exists []. Qed.

Lemma framed_app (n : nat) (out d : list byte) :
  framed n out -> request_frame n d -> framed n (out ++ d).
Proof.
  intros (ds & -> & Hds) Hd. exists (ds ++ [d]). split.
  - rewrite concat_app. cbn. by rewrite app_nil_r.
  - apply Forall_app. by split; [|apply Forall_singleton].
Qed.

(** A frame is a header of four bytes that states the length of the body
    that follows it. *)
Lemma request_frame_parts (n : nat) (d : list byte) :
  request_frame n d ->
  exists i cmd params header body,
    i < n /\
    json_dumps (request (uuid4 i) cmd params) = Ok body /\
    d = header ++ body /\
    length header = 4 /\
    unpack_u32 header = Ok (Z.of_nat (length body)).
Proof.
  intros (i & cmd & params & Hi & He). unfold encode in He.
  destruct (json_dumps _) as [body|] eqn:Hb; [|done]. cbn in He.
  destruct (pack_u32 _) as [header|] eqn:Hp; [|done]. cbn in He. injection He as <-.
  destruct (unpack_pack _ _ Hp) as [Hl Hu].
  by exists i, cmd, params, header, body.
Qed.

Lemma outs_write_sock (n : nat) (c : conn) (data : list byte) (w : world) :
  Forall (framed n) (outs w) -> request_frame n data ->
  Forall (framed n) (outs (write_sock c data w)).
Proof.
  unfold outs, write_sock, write_sock_list. cbn. rewrite !Forall_fmap.
  intros Hf Hd. apply Forall_alter; [done|].
  intros s _ Hs. cbn in *. destruct (s_closed s); [done|]. cbn. by apply framed_app.
Qed.

Lemma waiting_ok_mono (n m : nat) (cs : list call) :
  n <= m -> waiting_ok n cs -> waiting_ok m cs.
Proof. intros Hnm Hw k l data c Hk. eapply request_frame_mono; [exact Hnm|]. by eapply Hw. Qed.

Lemma waiting_ok_insert (n : nat) (cs : list call) (k : nat) (c' : call) :
  waiting_ok n cs ->
  (forall l data c, c' = Call l (AtLock data) c -> request_frame n data) ->
  waiting_ok n (<[k := c']> cs).
Proof.
  intros Hw Hc' j l data c Hj.
  apply list_lookup_insert_Some in Hj as [(_ & Hx & _)|[_ Hj]]; [by eapply Hc'|by eapply Hw].
Qed.

Lemma waiting_ok_snoc (n : nat) (cs : list call) (c' : call) :
  waiting_ok n cs ->
  (forall l data c, c' = Call l (AtLock data) c -> request_frame n data) ->
  waiting_ok n (cs ++ [c']).
Proof.
  intros Hw Hc' j l data c Hj.
  apply lookup_app_Some in Hj as [Hj|[_ Hj]]; [by eapply Hw|].
  apply list_lookup_singleton_Some in Hj as [_ Hx]. by eapply Hc'.
Qed.

Lemma wire_set_call (k : nat) (c' : call) (w : world) :
  wire_ok w ->
  (forall l data c, c' = Call l (AtLock data) c -> request_frame (uuid_calls w) data) ->
  wire_ok (set_call k c' w).
Proof. intros [Ho Hw] Hc'. split; [done|]. by apply waiting_ok_insert. Qed.

Lemma wire_raise_in_try (k : nat) (l : locals) (e : exn) (w : world) :
  wire_ok w -> wire_ok (raise_in_try k l e w).
Proof.
  intros Hw. unfold raise_in_try, send_except.
  destruct (isinstance e TimeoutError); [by apply (wire_set_call _ _ (pop _ w))|].
  destruct (isinstance e Exception); [by apply (wire_set_call _ _ (pop _ w))|].
  by apply wire_set_call.
Qed.

Lemma wire_wait_for (k : nat) (l : locals) (w : world) : wire_ok w -> wire_ok (wait_for k l w).
Proof.
  intros Hw. unfold wait_for.
  destruct (futs w !! fut l) as [[| | |]|];
    first [by apply wire_raise_in_try | by apply wire_set_call].
Qed.

Lemma wire_unlock (w : world) (b : bool) : wire_ok w -> wire_ok (on_self (set_lock b) w).
Proof. done. Qed.

Lemma wire_write_frame (k : nat) (l : locals) (data : list byte) (w : world) :
  wire_ok w -> request_frame (uuid_calls w) data -> wire_ok (write_frame k l data w).
Proof.
  intros Hw Hd. unfold write_frame. cbn [on_self self _writer set_lock].
  destruct (_writer (self w)) as [wr|].
  - apply wire_set_call; [|done]. destruct Hw as [Ho Hc]. split; [|done].
    by apply (outs_write_sock _ _ _ (on_self (set_lock true) w)).
  - by apply wire_raise_in_try.
Qed.

Lemma wire_registered (cmd : string) (tmo : Z) (w : world) :
  wire_ok w -> wire_ok (registered cmd tmo w).
Proof.
  intros [Ho Hc]. split.
  - eapply Forall_impl; [exact Ho|]. intros out. apply framed_mono. cbn. lia.
  - apply waiting_ok_snoc; [|done]. eapply waiting_ok_mono; [|exact Hc]. cbn. lia.
Qed.

Lemma wire_aside (w w' : world) : aside w w' -> wire_ok w -> wire_ok w'.
Proof.
  intros (Hc & _ & Hu & n & Hn) [Ho Hw]. unfold wire_ok. rewrite Hc, Hu, Hn. split; [|done].
  apply Forall_app. split; [done|]. apply Forall_replicate, framed_nil.
Qed.

Lemma step_wire_ok (w w' : world) (ev : event) : step w ev = Some w' -> wire_ok w -> wire_ok w'.
Proof.
  intros Hs Hw. pose proof (step_aside _ _ _ Hs) as Ha.
  destruct ev; try (by eapply wire_aside); clear Ha; cbn [step] in Hs.
  - injection Hs as <-. rewrite send_command_eq.
    destruct (negb _ || negb _).
    { destruct Hw as [Ho Hc]. split; [done|]. by apply waiting_ok_snoc. }
    pose proof (wire_registered cmd tmo w Hw) as Hw2.
    destruct (encode _) as [data|e] eqn:He; [|by apply wire_raise_in_try].
    assert (Hd : request_frame (uuid_calls (registered cmd tmo w)) data).
    { exists (uuid_calls w), cmd, params. split; [cbn; lia|done]. }
    destruct (_lock (self w)); [|by apply wire_write_frame].
    apply wire_set_call; [done|]. by intros l0 data0 c0 [= _ <- _].
  - unfold lock_granted in Hs. destruct (calls w !! k) as [c|] eqn:Hk; [|done].
    repeat case_match; simplify_eq. apply wire_write_frame; [done|].
    destruct Hw as [_ Hc]. by eapply Hc.
  - unfold drain_done in Hs. repeat case_match; simplify_eq.
    + by apply wire_raise_in_try, wire_unlock.
    + by apply wire_wait_for, wire_unlock.
  - unfold timeout_fire in Hs. repeat case_match; simplify_eq.
    by apply (wire_set_call _ _ (set_futs _ w)).
  - unfold cancel_call in Hs. destruct (calls w !! k) as [c|] eqn:Hk; [|done].
    repeat case_match; simplify_eq;
      first [ by apply (wire_set_call _ _ (set_futs _ w)) | apply wire_set_call; [done|] ];
      try done.
    intros l0 data0 c0 [= _ <- _]. destruct Hw as [_ Hc]. by eapply Hc.
  - unfold wake_call in Hs. repeat case_match; simplify_eq;
      first [ by apply wire_wait_for | by apply wire_raise_in_try
            | by apply wire_raise_in_try, wire_unlock ].
Qed.

Lemma reachable_wire_ok (w : world) : reachable w -> wire_ok w.
Proof.
  intros [evs Hr]. assert (Hi : wire_ok init) by (split; [constructor|done]).
  revert Hr Hi. generalize init. induction evs as [|e evs IH]; intros w0; cbn.
  - by intros [= ->].
  - destruct (step w0 e) as [w1|] eqn:Hs; [|done]. intros Hr Hw.
    apply (IH w1 Hr). by eapply step_wire_ok.
Qed.

(** In every world the bridge reaches, the bytes handed to [write()] on a
    connection are a sequence of whole frames: each is a header of four
    bytes that states the length of the body after it, and the body is the
    serialization of a request [{"id", "command"[, "params"]}] whose id is
    one of the ids drawn so far.  No frame is cut short or interleaved with
    another, whatever the order in which calls, timeouts, cancellations and
    connections happen. *)
Theorem socket_output_is_frames (w : world) (c : conn) (s : sock) :
  reachable w ->
  socks w !! c = Some s ->
  exists ds,
    s_out s = concat ds /\
    Forall (fun d =>
      exists i cmd params header body,
        i < uuid_calls w /\
        json_dumps (request (uuid4 i) cmd params) = Ok body /\
        d = header ++ body /\
        length header = 4 /\
        unpack_u32 header = Ok (Z.of_nat (length body))) ds.
Proof.
  intros Hr Hc. destruct (reachable_wire_ok w Hr) as [Ho _].
  unfold outs in Ho. rewrite Forall_fmap in Ho.
  rewrite Forall_lookup in Ho. destruct (Ho c s Hc) as (ds & Hout & Hds).
  exists ds. split; [done|]. eapply Forall_impl; [exact Hds|].
  intros d. apply request_frame_parts.
Qed.

End WireFacts.

(* ===================================================================== *)
(** * Messages the read loop cannot use *)
(* ===================================================================== *)

Section BadMessages.
Context `{Env}.

(** Lines 124-132: an [Exception] inside the [try] is logged, and the loop
    leaves through the [finally] block. *)
Lemma except_logged (e : exn) (t : tid) (w : world) :
  isinstance e Exception = true ->
  read_loop_except e t w =
    read_loop_finally TDone t
      (logged (if isinstance e IncompleteReadError then LogIncompleteRead
               else LogReadLoopError e) w).
Proof.
  intros He. unfold read_loop_except. destruct (isinstance e IncompleteReadError); [done|].
  rewrite He. by destruct e as [[] ?|].
Qed.

(** The [finally] block assigns [_connected] and [_pending] only. *)
Lemma finally_fields (final : task_state) (t : tid) (w : world) :
  let w' := read_loop_finally final t w in
  _last_seen (self w') = _last_seen (self w) /\ _writer (self w') = _writer (self w) /\
  _reader (self w') = _reader (self w) /\ _read_task (self w') = _read_task (self w) /\
  _server (self w') = _server (self w) /\ _lock (self w') = _lock (self w).
Proof. cbn zeta. unfold read_loop_finally. by case_match. Qed.

(** What the loop leaves behind when an [Exception] ends it: the task is
    over, the bridge is marked disconnected and every pending request is
    failed; the connection is not closed. *)
Lemma loop_ended (e : exn) (t : tid) (tk : task) (w0 w : world) :
  isinstance e Exception = true ->
  tasks w !! t = Some tk ->
  _pending (self w0) = _pending (self w) -> futs w0 = futs w ->
  let w' := read_loop_except e t w in
  tasks w' !! t = Some (Task TDone false) /\
  drained (Exn ConnectionError "EA disconnected") w0 w' /\
  _last_seen (self w') = _last_seen (self w) /\
  _writer (self w') = _writer (self w) /\
  socks w' = socks w /\ calls w' = calls w /\
  log w' = log w ++ [if isinstance e IncompleteReadError then LogIncompleteRead
                     else LogReadLoopError e].
Proof.
  intros He Ht Hp Hf. cbn zeta. rewrite (except_logged _ _ _ He).
  match goal with |- context [read_loop_finally TDone t ?w1] =>
    destruct (read_loop_finally_drains TDone t w1) as (Hd & Hts & Hs & _ & Hc & Hl);
    destruct (finally_fields TDone t w1) as (Hls & Hwr & _) end.
  split; [rewrite Hts; cbn; by rewrite list_lookup_alter_eq, Ht|].
  split; [by apply (drained_same _ _ _ _ (eq_sym Hp) (eq_sym Hf)) in Hd|].
  by rewrite Hls, Hwr, Hs, Hc, Hl.
Qed.

(** A body that [json.loads] rejects (or that is not UTF-8) ends the read
    loop: the error is logged, the task is over, the bridge is marked
    disconnected, the table is emptied and every pending request is failed
    with [ConnectionError("EA disconnected")].  [_last_seen] is not
    updated, and the connection is left open: the writer is still the
    same socket and [close()] was not called on it. *)
Theorem unparsable_body_ends_loop
    (w : world) (t : tid) (r : conn) (n : Z) (data : list byte) (e : exn) :
  tasks w !! t = Some (Task (TBody r n) false) ->
  Z.of_nat (length data) = n ->
  json_loads data = Raise e ->
  isinstance e Exception = true ->
  exists w',
    step w (EvRead t (RData data)) = Some w' /\
    tasks w' !! t = Some (Task TDone false) /\
    drained (Exn ConnectionError "EA disconnected") w w' /\
    _last_seen (self w') = _last_seen (self w) /\
    _writer (self w') = _writer (self w) /\
    socks w' = socks w /\ calls w' = calls w /\
    log w' = log w ++ [if isinstance e IncompleteReadError then LogIncompleteRead
                       else LogReadLoopError e].
Proof.
  intros Ht Hn Hl He. eexists. split.
  - cbn. unfold read_loop_resume. rewrite Ht.
    apply Z.eqb_eq in Hn. rewrite Hn. cbn [negb]. by rewrite Hl.
  - by eapply loop_ended.
Qed.

(** A message that is not a JSON object ([msg.get] raises
    [AttributeError]), or whose ["id"] is a non-empty list or object (the
    test [req_id in self._pending] raises [TypeError]), ends the read loop
    in the same way, after [_last_seen] was set to the time of its
    arrival. *)
Theorem unroutable_message_ends_loop
    (w : world) (t : tid) (r : conn) (n : Z) (data : list byte) (msg : json) :
  tasks w !! t = Some (Task (TBody r n) false) ->
  Z.of_nat (length data) = n ->
  json_loads data = Ok msg ->
  (forall kv, msg <> JObj kv) \/
  (exists kv rid, msg = JObj kv /\ dict_get "id" kv = Some rid /\
                  truthy rid = true /\ hashable rid = false) ->
  exists w' e,
    step w (EvRead t (RData data)) = Some w' /\
    (class_of e = AttributeError \/ class_of e = TypeError) /\
    tasks w' !! t = Some (Task TDone false) /\
    drained (Exn ConnectionError "EA disconnected") w w' /\
    _last_seen (self w') = Some (now w) /\
    _writer (self w') = _writer (self w) /\
    socks w' = socks w /\ calls w' = calls w /\
    log w' = log w ++ [LogReadLoopError e].
Proof.
  intros Ht Hn Hl Hbad.
  assert (Hro : exists e, (class_of e = AttributeError \/ class_of e = TypeError) /\
            forall w1, route msg w1 = (w1, Some e)).
  { destruct Hbad as [Hno|(kv & rid & -> & Hid & Htr & Hh)].
    - destruct msg as [|b|z|f|s|l|kv];
        try (eexists; split; [|intros w1; reflexivity]; by left).
      by destruct (Hno kv).
    - eexists. split; [|intros w1; unfold route, get, get_default;
                          rewrite Hid; cbn; rewrite Htr, Hh; reflexivity].
      by right. }
  destruct Hro as (e & Hcls & Hro).
  assert (He : isinstance e Exception = true /\ isinstance e IncompleteReadError = false).
  { destruct e as [c ?|]; cbn in Hcls; destruct Hcls as [Hc|Hc]; try done; by subst c. }
  destruct He as [He Hinc].
  exists (read_loop_except e t (on_self (set_last_seen (Some (now w))) w)), e.
  split.
  - cbn. unfold read_loop_resume. rewrite Ht.
    apply Z.eqb_eq in Hn. rewrite Hn. cbn [negb]. by rewrite Hl, Hro.
  - split; [done|].
    destruct (loop_ended e t _ w (on_self (set_last_seen (Some (now w))) w) He Ht)
      as (H1 & H2 & H3 & H4 & H5 & H6 & H7); [done|done|].
    rewrite Hinc in H7. done.
Qed.

(** A message the loop cannot match is passed over: an object with no
    ["id"], with an ["id"] that is falsy ([None], [False], [0], the empty
    string, an empty list or dict), with a number or [True] as ["id"], or
    with a string that is no key of the table.  The message is logged as
    unmatched, [_last_seen] is set to the time of its arrival, and nothing
    else changes: the table, the futures, the calls and the sockets are as
    before, the bridge stays connected, and the loop asks for the next
    header. *)
Theorem message_without_id_is_ignored
    (w : world) (t : tid) (r : conn) (n : Z) (data : list byte) (kv : list (string * json)) :
  reachable w ->
  tasks w !! t = Some (Task (TBody r n) false) ->
  Z.of_nat (length data) = n ->
  json_loads data = Ok (JObj kv) ->
  truthy (default JNull (dict_get "id" kv)) = false \/
  (hashable (default JNull (dict_get "id" kv)) = true /\
   forall s, dict_get "id" kv = Some (JStr s) -> _pending (self w) !! s = None) ->
  exists w' r',
    step w (EvRead t (RData data)) = Some w' /\
    _reader (self w) = Some r' /\
    tasks w' !! t = Some (Task (THeader r') false) /\
    self w' = set_last_seen (Some (now w)) (self w) /\
    futs w' = futs w /\ calls w' = calls w /\ socks w' = socks w /\
    log w' = log w ++ [LogUnmatched (JObj kv)].
Proof.
  intros Hr Ht Hn Hl Hid.
  destruct (reachable_wired w Hr) as [Hnil|[r' Hr']]; [by rewrite Hnil in Ht|].
  set (w1 := on_self (set_last_seen (Some (now w))) w).
  assert (Hro : route (JObj kv) w1 = (logged (LogUnmatched (JObj kv)) w1, None)).
  { unfold route, get, get_default.
    destruct (dict_get "id" kv) as [rid|] eqn:Hk; [|done]. cbn in Hid |- *.
    destruct Hid as [Hf|[Hh Hs]]; [by rewrite Hf|].
    destruct (truthy rid); [|done]. rewrite Hh. cbn.
    destruct rid; try done. by rewrite (Hs _ eq_refl). }
  exists (read_loop_turn t (logged (LogUnmatched (JObj kv)) w1)), r'. split.
  - cbn. unfold read_loop_resume. rewrite Ht.
    apply Z.eqb_eq in Hn. rewrite Hn. cbn [negb]. rewrite Hl. fold w1. by rewrite Hro.
  - split; [done|]. unfold read_loop_turn. cbn. rewrite Hr'. cbn.
    split; [by rewrite list_lookup_alter_eq, Ht|]. done.
Qed.

End BadMessages.

(* ===================================================================== *)
(** * The table and the calls that own its entries *)
(* ===================================================================== *)

Section Owners.
Context `{Env}.



(** In every world the bridge reaches, an entry of the table belongs to
    exactly one call, the one that drew its id and created its future, and
    that call is still running or was ended by an exception that is not an
    [Exception] (a cancellation): a call that returned or raised an
    [Exception] has left no entry behind. *)
Theorem table_entry_has_live_owner (w : world) (id : string) (f : fid) :
  Inj (=) (=) uuid4 ->
  reachable w ->
  _pending (self w) !! id = Some f ->
  exists k l pc c,
    calls w !! k = Some (Call l pc c) /\ req_id l = id /\ fut l = f /\
    (unfinished pc = true \/ exists e, pc = Raised e /\ isinstance e Exception = false) /\
    (forall k' l' pc' c',
        calls w !! k' = Some (Call l' pc' c') -> req_id l' = id -> k' = k).
Proof.
  intros Hinj Hr Hp. pose proof (reachable_inv Hinj w Hr) as Hi.
  destruct (inv_own _ Hi _ _ Hp) as [(k & l & pc & c & Hc & Hid & Hf) _]. cbn in Hc.
  exists k, l, pc, c. repeat split; try done.
  - pose proof (inv_gone _ Hi k l pc c Hc) as Hg. cbn in Hg. rewrite Hid, Hp in Hg.
    destruct pc as [data| | |v|e]; cbn [unfinished settled] in *; auto.
    + by specialize (Hg eq_refl).
    + right. exists e. split; [done|]. destruct (isinstance e Exception); [|done].
      by specialize (Hg eq_refl).
  - intros k' l' pc' c' Hc' Hid'.
    eapply (same_id Hinj (core_of w)); [done|exact Hc'|exact Hc|congruence].
Qed.

End Owners.

(* ===================================================================== *)
(** * What the HTTP client sees when a waiting call fails *)
(* ===================================================================== *)

Section Statuses.
Context `{Env}.




End Statuses.

(* ===================================================================== *)
(** * A response in the window between the timer and the caller *)
(* ===================================================================== *)

Section Window.
Context `{Env}.


End Window.

(* ===================================================================== *)
(** * stop(), run to its end *)
(* ===================================================================== *)

Section StopFacts.
Context `{Env}.










End StopFacts.

(* ===================================================================== *)
(** * The endpoints of api.py *)
(* ===================================================================== *)

Section RouteFacts.
Context `{Env}.

(** [GET /history]: the request that reaches the wire carries exactly the
    bounds that were given.  A bound of [0] is given ([is not None]) and is
    sent; with no bound at all the dict of [get_history] is empty, so
    [send_command] ([if params:]) leaves ["params"] out of the message. *)
Theorem history_request_carries_given_bounds (rid : string) (from_ts to_ts : option Z) :
  exists kv,
    Routes.message rid (Routes.get_history from_ts to_ts) = JObj kv /\
    dict_get "id" kv = Some (JStr rid) /\
    dict_get "command" kv = Some (JStr "history") /\
    match from_ts, to_ts with
    | None, None => dict_get "params" kv = None
    | _, _ =>
        exists p,
          dict_get "params" kv = Some (JObj p) /\
          dict_get "from_ts" p = JInt <$> from_ts /\
          dict_get "to_ts" p = JInt <$> to_ts /\
          length p = length (option_list from_ts) + length (option_list to_ts)
    end.
Proof.
  unfold Routes.message, Routes.get_history, Routes.history_params, request.
  destruct from_ts as [a|], to_ts as [b|]; cbn; eexists; (split; [reflexivity|]);
    cbn; repeat split; eauto.
Qed.

(** [GET /health] in a world the bridge can reach.  A failure of the
    [pgrep] call that is an [Exception] is absorbed (MT5 is reported as not
    running); the status repeats the bridge's [connected] and [last_seen];
    and a status that reports the EA connected always carries a time of
    last contact. *)
Theorem health_reports_last_seen_when_connected
    (w : world) (pgrep : result Z) (start_time : Z) :
  reachable w ->
  (forall e, pgrep = Raise e -> isinstance e Exception = false ->
             Routes.health pgrep start_time w = Raise e) /\
  ((forall e, pgrep = Raise e -> isinstance e Exception = true) ->
   exists h,
     Routes.health pgrep start_time w = Ok h /\
     Routes.server h = "running" /\
     Routes.ea_connected h = _connected (self w) /\
     Routes.ea_last_seen h = _last_seen (self w) /\
     (Routes.ea_connected h = true -> is_Some (Routes.ea_last_seen h)) /\
     (Routes.mt5_running h = true <-> pgrep = Ok 0%Z) /\
     Routes.uptime h = (now w - start_time)%Z).
Proof.
  intros Hr. split.
  - intros e -> He. unfold Routes.health. by rewrite He.
  - intros Hex. unfold Routes.health. destruct pgrep as [rc|e].
    + eexists. split; [reflexivity|]. cbn. repeat split; try done.
      * intros Hc. by destruct (proj1 (reachable_connected w Hr) Hc) as (_ & _ & Hl & _).
      * intros Hrc. apply Z.eqb_eq in Hrc. by subst.
      * intros [= ->]. done.
    + rewrite (Hex e eq_refl). eexists. split; [reflexivity|]. cbn. repeat split; try done.
      intros Hc. by destruct (proj1 (reachable_connected w Hr) Hc) as (_ & _ & Hl & _).
Qed.

End RouteFacts.

(* ===================================================================== *)
(** * The further properties on the reference environment *)
(* ===================================================================== *)

(** After the first connection the bridge is connected and has its
    writer. *)
Lemma connected_has_writer_witness :
  exists w,
    @run Ref.env connect init = Some w /\
    _connected (self w) = true /\ installed w.
Proof.
  destruct (@run Ref.env connect init) as [w|] eqn:Hw; [|by vm_compute in Hw].
  assert (Hw' := Hw). vm_compute in Hw'. injection Hw' as Hw'.
  assert (Hc : _connected (self w) = true) by (by rewrite <- Hw').
  exists w. split; [done|]. split; [done|].
  by apply (proj1 (@connected_has_writer Ref.env w (ex_intro _ connect Hw))).
Defined.

(** A call in [drain()] holds the lock. *)
Lemma write_lock_exclusive_witness :
  exists w,
    @run Ref.env sending init = Some w /\
    _lock (self w) = true /\
    exists k l c, calls w !! k = Some (Call l AtDrain c).
Proof.
  destruct (@run Ref.env sending init) as [w|] eqn:Hw; [|by vm_compute in Hw].
  assert (Hw' := Hw). vm_compute in Hw'. injection Hw' as Hw'.
  assert (Hl : _lock (self w) = true) by (by rewrite <- Hw').
  exists w. split; [done|]. split; [done|].
  by apply (proj2 (@write_lock_exclusive Ref.env w (ex_intro _ sending Hw))).
Defined.

(** The connection of [one_pending] was handed one frame. *)
Lemma socket_output_is_frames_witness :
  exists w s ds,
    @run Ref.env one_pending init = Some w /\
    socks w !! 0 = Some s /\
    s_out s = frame_of account_info /\
    s_out s = concat ds.
Proof.
  destruct (@run Ref.env one_pending init) as [w|] eqn:Hw; [|by vm_compute in Hw].
  assert (Hw' := Hw). vm_compute in Hw'. injection Hw' as Hw'.
  destruct (socks w !! 0) as [s|] eqn:Hs; [|by rewrite <- Hw' in Hs].
  destruct (@socket_output_is_frames Ref.env w 0 s (ex_intro _ one_pending Hw) Hs)
    as (ds & Hout & _).
  exists w, s, ds. split; [done|]. split; [done|]. split; [|done].
  rewrite <- Hw' in Hs. vm_compute in Hs. injection Hs as <-. by vm_compute.
Defined.

(** An empty frame (a header that declares no byte): [json.loads] rejects
    the empty body and the loop ends. *)
Lemma unparsable_body_ends_loop_witness :
  exists w w',
    @run Ref.env (body_awaited 0) init = Some w /\
    @step Ref.env w (EvRead 0 (RData [])) = Some w' /\
    tasks w' !! 0 = Some (Task TDone false) /\
    drained (Exn ConnectionError "EA disconnected") w w'.
Proof.
  destruct (@run Ref.env (body_awaited 0) init) as [w|] eqn:Hw; [|by vm_compute in Hw].
  assert (Hw' := Hw). vm_compute in Hw'. injection Hw' as Hw'.
  destruct (@unparsable_body_ends_loop Ref.env w 0 0 0 []
              (Exn ValueError "no JSON value of the reference fragment"))
    as (w' & Hs & Ht & Hd & _); try (by rewrite <- Hw'); try done.
  by exists w, w'.
Defined.

(** The message [[]] is JSON and not an object. *)
Lemma unroutable_message_ends_loop_witness :
  exists w w',
    @run Ref.env (body_awaited 2) init = Some w /\
    @step Ref.env w (EvRead 0 (RData (Ref.bytes "[]"))) = Some w' /\
    tasks w' !! 0 = Some (Task TDone false) /\
    drained (Exn ConnectionError "EA disconnected") w w'.
Proof.
  destruct (@run Ref.env (body_awaited 2) init) as [w|] eqn:Hw; [|by vm_compute in Hw].
  assert (Hw' := Hw). vm_compute in Hw'. injection Hw' as Hw'.
  destruct (@unroutable_message_ends_loop Ref.env w 0 0 2 (Ref.bytes "[]") (JArr []))
    as (w' & e & Hs & _ & Ht & Hd & _); try (by rewrite <- Hw'); try done.
  { by left. }
  by exists w, w'.
Defined.

(** The message [{}] has no id. *)
Lemma message_without_id_is_ignored_witness :
  exists w w',
    @run Ref.env (body_awaited 2) init = Some w /\
    @step Ref.env w (EvRead 0 (RData (Ref.bytes "{}"))) = Some w' /\
    tasks w' !! 0 = Some (Task (THeader 0) false) /\
    futs w' = futs w /\ calls w' = calls w /\
    _pending (self w') = _pending (self w).
Proof.
  destruct (@run Ref.env (body_awaited 2) init) as [w|] eqn:Hw; [|by vm_compute in Hw].
  assert (Hw' := Hw). vm_compute in Hw'. injection Hw' as Hw'.
  destruct (@message_without_id_is_ignored Ref.env w 0 0 2 (Ref.bytes "{}") [])
    as (w' & r' & Hs & Hr & Ht & Hself & Hf & Hc & _);
    try (by rewrite <- Hw'); try done; [by exists (body_awaited 2)|by left|].
  assert (r' = 0) as -> by (rewrite <- Hw' in Hr; by injection Hr).
  exists w, w'. split; [done|]. split; [done|]. split; [done|].
  split; [done|]. split; [done|]. by rewrite Hself.
Defined.


(** The entry of the waiting call of [one_pending]. *)
Lemma table_entry_has_live_owner_witness :
  exists w k l pc c,
    @run Ref.env one_pending init = Some w /\
    _pending (self w) !! "uuid-0" = Some 0 /\
    calls w !! k = Some (Call l pc c) /\ req_id l = "uuid-0" /\ fut l = 0.
Proof.
  destruct (@run Ref.env one_pending init) as [w|] eqn:Hw; [|by vm_compute in Hw].
  assert (Hw' := Hw). vm_compute in Hw'. injection Hw' as Hw'.
  assert (Hp : _pending (self w) !! "uuid-0" = Some 0) by (by rewrite <- Hw').
  destruct (@table_entry_has_live_owner Ref.env w "uuid-0" 0 ref_uuid4_inj
              (ex_intro _ one_pending Hw) Hp)
    as (k & l & pc & c & Hc & Hid & Hf & _).
  by exists w, k, l, pc, c.
Defined.



(** [GET /health] after the first connection, with MT5 running. *)
Lemma health_reports_last_seen_when_connected_witness :
  exists w h,
    @run Ref.env connect init = Some w /\
    Routes.health (Ok 0%Z) 0 w = Ok h /\
    Routes.ea_connected h = true /\
    Routes.mt5_running h = true /\
    is_Some (Routes.ea_last_seen h).
Proof.
  destruct (@run Ref.env connect init) as [w|] eqn:Hw; [|by vm_compute in Hw].
  assert (Hw' := Hw). vm_compute in Hw'. injection Hw' as Hw'.
  destruct (@health_reports_last_seen_when_connected Ref.env w (Ok 0%Z) 0
              (ex_intro _ connect Hw)) as [_ Hh].
  destruct Hh as (h & Hh & _ & Hc & _ & Hl & Hrun & _); [done|].
  assert (Hc' : Routes.ea_connected h = true) by (rewrite Hc; by rewrite <- Hw').
  exists w, h. split; [done|]. split; [done|]. split; [done|].
  split; [by apply Hrun|by apply Hl].
Defined.

(* ===================================================================== *)
(** * Texts *)
(* ===================================================================== *)

Lemma startswith_spec (p s : list ascii) :
  Text.startswith p s = true <-> exists r, s = p ++ r.
Proof.
  revert s. induction p as [|a p IH]; intros s; cbn.
  - split; [eauto|done].
  - destruct s as [|b s]; [split; [done|by intros [? ?]]|].
    rewrite andb_true_iff, Ascii.eqb_eq, IH. split.
    + intros [-> [r ->]]. eauto.
    + intros [r [= -> ->]]. eauto.
Qed.

Lemma startswith_app (p r : list ascii) : Text.startswith p (p ++ r) = true.
Proof. apply startswith_spec. eauto. Qed.

Lemma contains_spec (sub s : list ascii) :
  Text.contains sub s = true <-> exists a b, s = a ++ sub ++ b.
Proof.
  induction s as [|c s IH]; cbn.
  - rewrite orb_false_r, startswith_spec. split.
    + intros [r Hr]. by exists [], r.
    + intros (a & b & Hs). symmetry in Hs.
      apply app_eq_nil in Hs as [-> Hs]. apply app_eq_nil in Hs as [-> ->]. by exists [].
  - rewrite orb_true_iff, startswith_spec, IH. split.
    + intros [[r Hr]|(a & b & ->)]; [by exists [], r | by exists (c :: a), b].
    + intros ([|c' a] & b & Hs); cbn in Hs.
      * left. eauto.
      * injection Hs as -> ->. right. eauto.
Qed.

Lemma contains_app (a sub b : list ascii) : Text.contains sub (a ++ sub ++ b) = true.
Proof. apply contains_spec. eauto. Qed.

Lemma lower_app (a b : list ascii) : Text.lower (a ++ b) = Text.lower a ++ Text.lower b.
Proof. apply map_app. Qed.

(** [rfind_from]: the index found is the last one at which [sub] occurs. *)
Lemma rfind_from_Some (i j : nat) (sub s : list ascii) :
  Text.rfind_from i sub s = Some j ->
  i <= j /\ j - i <= length s /\
  Text.startswith sub (drop (j - i) s) = true /\
  forall k, j - i < k -> k <= length s -> Text.startswith sub (drop k s) = false.
Proof.
  revert i j. induction s as [|c s IH]; intros i j; cbn [Text.rfind_from].
  - destruct (Text.startswith sub []) eqn:Hp; [|done]. intros [= <-].
    rewrite Nat.sub_diag. cbn. split; [lia|]. split; [lia|]. split; [done|].
    intros k ? ?. lia.
  - destruct (Text.rfind_from (S i) sub s) as [j'|] eqn:Hr.
    + intros [= ->]. destruct (IH _ _ Hr) as (Hle & Hlen & Hpre & Hlast).
      replace (j - i) with (S (j - S i)) by lia. cbn [drop length].
      split; [lia|]. split; [lia|]. split; [done|].
      intros [|k] Hk Hkl; [lia|]. cbn [drop]. apply Hlast; lia.
    + destruct (Text.startswith sub (c :: s)) eqn:Hp; [|done]. intros [= <-].
      rewrite Nat.sub_diag. cbn [drop]. split; [lia|]. split; [lia|]. split; [done|].
      intros [|k] Hk Hkl; [lia|]. cbn [drop length] in *.
      clear Hp Hk. revert i Hr k Hkl. clear IH. induction s as [|d s IHs]; intros i Hr k Hkl.
      * cbn in Hr. destruct k; [|cbn in Hkl; lia]. cbn.
        by destruct (Text.startswith sub []).
      * cbn [Text.rfind_from] in Hr.
        destruct (Text.rfind_from (S (S i)) sub s) eqn:Hr'; [done|].
        destruct (Text.startswith sub (d :: s)) eqn:Hp; [done|].
        destruct k as [|k]; [exact Hp|]. cbn [drop]. eapply IHs; [exact Hr'|]. cbn in Hkl. lia.
Qed.

Lemma rfind_from_None (i : nat) (sub s : list ascii) :
  Text.rfind_from i sub s = None -> Text.contains sub s = false.
Proof.
  revert i. induction s as [|c s IH]; intros i; cbn.
  - by destruct (Text.startswith sub []).
  - destruct (Text.rfind_from (S i) sub s) eqn:Hr; [done|].
    destruct (Text.startswith sub (c :: s)); [done|]. intros _. cbn. by eapply IH.
Qed.

Lemma contains_false (sub s : list ascii) :
  (forall k, k <= length s -> Text.startswith sub (drop k s) = false) ->
  Text.contains sub s = false.
Proof.
  induction s as [|c s IH]; intros Hk; cbn.
  - pose proof (Hk 0 ltac:(done)) as H0. cbn in H0. by rewrite H0.
  - pose proof (Hk 0 ltac:(cbn; lia)) as H0. cbn in H0. rewrite H0. cbn.
    apply IH. intros k Hkl. apply (Hk (S k)). cbn. lia.
Qed.

(** The result of [inject_expert] holds the expert section. *)
Lemma inject_expert_shape (text host port : list ascii) :
  exists a b,
    Chart.inject_expert text host port
      = a ++ Chart.EXPERT_SECTION Chart.EA_NAME host port ++ b.
Proof.
  unfold Chart.inject_expert. cbn zeta. case_match.
  - exists (text ++ Text.nl), (Text.nl ++ Text.txt "</chart>" ++ Text.nl).
    by rewrite <- app_assoc.
  - by eexists _, _.
Qed.

(* ===================================================================== *)
(** * setup_bridge_chart.py: attaching the expert to a chart *)
(* ===================================================================== *)

(** [inject_expert] puts the expert section, followed by a newline, right
    before the last [</chart>] of the text and changes nothing else; when
    the text has no [</chart>], it appends a newline, the section, a
    newline and a closing tag of its own. *)
Theorem inject_expert_before_last_close_tag (text host port : list ascii) :
  (Text.contains (Text.txt "</chart>") text = false /\
   Chart.inject_expert text host port
     = text ++ Text.nl ++ Chart.EXPERT_SECTION Chart.EA_NAME host port ++ Text.nl
         ++ Text.txt "</chart>" ++ Text.nl)
  \/
  (exists before after,
     text = before ++ Text.txt "</chart>" ++ after /\
     Text.contains (Text.txt "</chart>") (drop 1 (Text.txt "</chart>" ++ after)) = false /\
     Chart.inject_expert text host port
       = before ++ Chart.EXPERT_SECTION Chart.EA_NAME host port ++ Text.nl
           ++ Text.txt "</chart>" ++ after).
Proof.
  unfold Chart.inject_expert, Text.rfind. cbn zeta.
  destruct (Text.rfind_from 0 (Text.txt "</chart>") text) as [j|] eqn:Hr.
  - right. destruct (rfind_from_Some _ _ _ _ Hr) as (_ & Hlen & Hpre & Hlast).
    rewrite Nat.sub_0_r in *. apply startswith_spec in Hpre as [after Hafter].
    exists (take j text), after.
    assert (Htext : text = take j text ++ Text.txt "</chart>" ++ after)
      by (by rewrite <- Hafter, take_drop).
    assert (Hj : j + 8 <= length text).
    { apply (f_equal length) in Hafter. rewrite length_drop, length_app in Hafter.
      cbn in Hafter. lia. }
    split; [exact Htext|]. split.
    + rewrite <- Hafter. rewrite drop_drop. apply contains_false. intros k Hk.
      rewrite drop_drop. rewrite length_drop in Hk. apply Hlast; lia.
    + replace (Z.of_nat j <? 0)%Z with false by (symmetry; apply Z.ltb_ge; lia).
      by rewrite Nat2Z.id, Hafter.
  - left. split; [by eapply rfind_from_None|]. done.
Qed.

(** After [inject_expert] the text names the expert, whatever the spelling
    of the rest: [has_bridge_ea] holds of the result, so a second run of
    the script finds the chart configured and injects nothing more.  (The
    test ignores case: it holds of every text that contains the name in
    some mix of capitals and small letters.) *)
Theorem injected_chart_has_bridge_ea (text host port : list ascii) :
  Chart.has_bridge_ea (Chart.inject_expert text host port) = true /\
  forall a name b,
    Text.lower name = Text.lower Chart.EA_NAME ->
    Chart.has_bridge_ea (a ++ name ++ b) = true.
Proof.
  assert (Hany : forall a name b, Text.lower name = Text.lower Chart.EA_NAME ->
                                  Chart.has_bridge_ea (a ++ name ++ b) = true).
  { intros a name b Hn. unfold Chart.has_bridge_ea. rewrite !lower_app, Hn.
    apply contains_app. }
  split; [|exact Hany].
  assert (Hsec : forall a b,
    Chart.has_bridge_ea (a ++ Chart.EXPERT_SECTION Chart.EA_NAME host port ++ b) = true).
  { intros a b. unfold Chart.EXPERT_SECTION.
    rewrite <- !app_assoc.
    rewrite (app_assoc a), (app_assoc (a ++ _)), (app_assoc ((a ++ _) ++ _)).
    by apply Hany. }
  destruct (inject_expert_shape text host port) as (a & b & ->). apply Hsec.
Qed.

(* ===================================================================== *)
(** * parse_report.py: the table parser *)
(* ===================================================================== *)


Lemma handle_ok (tk : Report.token) (p p' : Report.parser) :
  Report.handle tk p = Ok p' -> parser_ok p -> parser_ok p'.
Proof.
  intros Hh (Hcell & Htabs & Hcur). destruct tk as [tag attrs|tag|data]; cbn in Hh.
  - unfold Report.handle_starttag in Hh.
    repeat case_match; simplify_eq; try (by split).
    + split; [done|]. split; [done|]. cbn. by intros t [= <-].
    + destruct (Report.int_of_attr _); cbn in Hh; simplify_eq.
      split; [intros _; by eexists|]. by split.
  - unfold Report.handle_endtag in Hh.
    repeat case_match; simplify_eq; try (by split).
    + split; [done|]. split; [done|]. cbn. intros t' [= <-].
      apply Forall_app. split; [by apply Hcur|]. by apply Forall_singleton.
    + split; [done|]. split; [|done]. cbn.
      apply Forall_app. split; [done|]. apply Forall_singleton. by apply Hcur.
    + split; [done|]. split; [done|]. intros t Ht. congruence.
  - injection Hh as <-. unfold Report.handle_data.
    destruct (Report._current_cell p) as [cell|] eqn:Hc; [|by rewrite <- Hc in Hcell].
    destruct (Report._in_cell p); [|by rewrite <- Hc in Hcell].
    split; [intros _; by eexists|]. by split.
Qed.

Lemma feed_ok (tks : list Report.token) (p p' : Report.parser) :
  Report.feed tks p = Ok p' -> parser_ok p -> parser_ok p'.
Proof.
  revert p. induction tks as [|tk tks IH]; intros p; cbn.
  - by intros [= ->].
  - destruct (Report.handle tk p) as [p1|] eqn:Hh; cbn; [|done].
    intros Hf Hp. apply (IH p1 Hf). by eapply handle_ok.
Qed.

(** An exception of [handle_endtag] is an [append] on [None]: by the
    invariant the [strip] of line 43 always has a text. *)
Lemma handle_raise (tk : Report.token) (p : Report.parser) (e : exn) :
  parser_ok p -> Report.handle tk p = Raise e ->
  e = Report.none_has_no "append" \/ exists v, Report.int_of_attr v = Raise e.
Proof.
  intros (Hcell & _) Hh. destruct tk as [tag attrs|tag|data]; cbn in Hh; [| |done].
  - unfold Report.handle_starttag in Hh. repeat case_match; simplify_eq.
    destruct (Report.int_of_attr _) eqn:Hi; cbn in Hh; simplify_eq. eauto.
  - unfold Report.handle_endtag in Hh. repeat case_match; simplify_eq; auto.
    match goal with Hc : _ && Report._in_cell p = true |- _ =>
      apply andb_prop in Hc as [_ Hc]; destruct (Hcell Hc) as [? ?]; congruence end.
Qed.

(** Whatever tokens the parser is fed, from its initial state: while a
    cell is open its text is set, so that [handle_data]'s second test and
    the [strip()] of line 43 never meet [None]; no table that was collected
    holds an empty row; and the only exceptions that can leave [feed] are
    the [append] on [None] of lines 44 and 51 (an end tag of a cell or of a
    row whose row or table is already closed) and what [int()] raises on a
    [colspan]. *)
Theorem parser_keeps_cell_text (tks : list Report.token) :
  match Report.feed tks Report.new_parser with
  | Ok p =>
      (Report._in_cell p = true -> is_Some (Report._current_cell p)) /\
      Forall (Forall (fun row => row <> [])) (Report.tables p)
  | Raise e =>
      e = Report.none_has_no "append" \/ exists v, Report.int_of_attr v = Raise e
  end.
Proof.
  assert (Hgen : forall p, parser_ok p ->
            match Report.feed tks p with
            | Ok p' => parser_ok p'
            | Raise e => e = Report.none_has_no "append" \/
                         exists v, Report.int_of_attr v = Raise e
            end).
  { induction tks as [|tk tks IH]; intros p Hp; cbn; [done|].
    destruct (Report.handle tk p) as [p1|e] eqn:Hh; cbn.
    - apply IH. by eapply handle_ok.
    - by eapply handle_raise. }
  specialize (Hgen Report.new_parser).
  destruct (Report.feed tks Report.new_parser) as [p|e].
  - destruct Hgen as (H1 & H2 & _); [|done]. by repeat split.
  - apply Hgen. by repeat split.
Qed.













(* ===================================================================== *)
(** * parse_report.py: find_metric *)
(* ===================================================================== *)

Lemma first_value_Some (cells : list (list ascii)) (v : list ascii) :
  Report.first_value cells = Some v ->
  exists mid right, cells = mid ++ v :: right /\ Forall blank mid /\ ~ blank v.
Proof.
  induction cells as [|c cells IH]; cbn; [done|].
  case_bool_decide as Hc.
  - intros Hv. destruct (IH Hv) as (mid & right & -> & Hmid & Hnb).
    exists (c :: mid), right. split; [done|]. split; [by constructor|done].
  - intros [= ->]. by exists [], cells.
Qed.

Lemma first_value_None (cells : list (list ascii)) :
  Report.first_value cells = None <-> Forall blank cells.
Proof.
  induction cells as [|c cells IH]; cbn; [split; [constructor|done]|].
  case_bool_decide as Hc.
  - rewrite IH. split; [by constructor|by inversion 1].
  - split; [done|]. by inversion 1.
Qed.

Lemma find_in_row_None (row : list (list ascii)) (label : list ascii) :
  Report.find_in_row row label = None <->
  forall left cell right,
    row = left ++ cell :: right -> Report.is_label cell label = true -> Forall blank right.
Proof.
  induction row as [|c row IH]; cbn.
  - split; [|done]. intros _ [|? ?] ? ? ?; done.
  - destruct (Report.is_label c label) eqn:Hl.
    + destruct (Report.first_value row) as [v|] eqn:Hv.
      * split; [done|]. intros Hall.
        pose proof (Hall [] c row eq_refl Hl) as Hb.
        apply first_value_None in Hb. congruence.
      * rewrite IH. apply first_value_None in Hv. split.
        -- intros Hall [|c' left] cell right Hrow Hlab; cbn in Hrow; simplify_eq; [done|].
           by eapply Hall.
        -- intros Hall left cell right -> Hlab. by apply (Hall (c :: left) cell right).
    + rewrite IH. split.
      * intros Hall [|c' left] cell right Hrow Hlab; cbn in Hrow; simplify_eq; [congruence|].
        by eapply Hall.
      * intros Hall left cell right -> Hlab. by apply (Hall (c :: left) cell right).
Qed.

Lemma find_in_row_Some (row : list (list ascii)) (label v : list ascii) :
  Report.find_in_row row label = Some v ->
  exists left cell mid right,
    row = left ++ cell :: mid ++ v :: right /\
    Forall (fun c => Report.is_label c label = false) left /\
    Report.is_label cell label = true /\
    Forall blank mid /\ ~ blank v.
Proof.
  induction row as [|c row IH]; cbn; [done|].
  destruct (Report.is_label c label) eqn:Hl.
  - destruct (Report.first_value row) as [v'|] eqn:Hv.
    + intros [= ->]. destruct (first_value_Some _ _ Hv) as (mid & right & -> & Hmid & Hnb).
      by exists [], c, mid, right.
    + intros Hf. exfalso. destruct (IH Hf) as (left & cell & mid & right & -> & _ & _ & _ & Hnb).
      apply first_value_None in Hv. apply Forall_app in Hv as [_ Hv].
      apply Forall_cons in Hv as [_ Hv]. apply Forall_app in Hv as [_ Hv].
      by apply Forall_cons in Hv as [Hv _].
  - intros Hf. destruct (IH Hf) as (left & cell & mid & right & -> & Hleft & Hlab & Hmid & Hnb).
    exists (c :: left), cell, mid, right. split; [done|]. split; [by constructor|done].
Qed.

(** [find_metric] returns the first value to the right of the label: in
    the first row that has one, the cell that is not blank and comes after
    a cell naming the label with only blank cells in between, no cell to
    the left of that one naming the label; in the rows before, every cell
    that names the label has only blank cells to its right.  It returns
    [None] exactly when no row has a value to the right of the label. *)
Theorem find_metric_first_value_right_of_label
    (rows : list (list (list ascii))) (label : list ascii) :
  match Report.find_metric rows label with
  | Some v =>
      exists before left cell mid right after,
        rows = before ++ (left ++ cell :: mid ++ v :: right) :: after /\
        Report.is_label cell label = true /\
        Forall blank mid /\ ~ blank v /\
        Forall (fun c => Report.is_label c label = false) left /\
        Forall (fun row => forall l c r, row = l ++ c :: r ->
                  Report.is_label c label = true -> Forall blank r) before
  | None =>
      Forall (fun row => forall l c r, row = l ++ c :: r ->
                Report.is_label c label = true -> Forall blank r) rows
  end.
Proof.
  induction rows as [|row rows IH]; cbn; [constructor|].
  destruct (Report.find_in_row row label) as [v|] eqn:Hrow.
  - destruct (find_in_row_Some _ _ _ Hrow) as (left & cell & mid & right & -> & Hl & Hc & Hm & Hv).
    by exists [], left, cell, mid, right, rows.
  - pose proof (proj1 (find_in_row_None _ _) Hrow) as Hrow'.
    destruct (Report.find_metric rows label) as [v|].
    + destruct IH as (before & left & cell & mid & right & after & -> & Hc & Hm & Hv & Hl & Hb).
      exists (row :: before), left, cell, mid, right, after.
      split; [done|]. repeat split; try done. by constructor.
    + by constructor.
Qed.

(* ===================================================================== *)
(** * parse_report.py: clean_number and extract_pct *)
(* ===================================================================== *)

Lemma span_run (f : ascii -> bool) (run rest : list ascii) :
  Forall (fun c => f c = true) run ->
  (forall c, head rest = Some c -> f c = false) ->
  Report.span f (run ++ rest) = (run, rest).
Proof.
  intros Hrun Hrest. induction Hrun as [|c run Hc _ IH]; cbn.
  - destruct rest as [|d rest]; [done|]. cbn. by rewrite (Hrest d eq_refl).
  - by rewrite Hc, IH.
Qed.

Lemma span_stops_in_prefix (f : ascii -> bool) (pre : list ascii) (l : ascii) (tail : list ascii) :
  f l = false ->
  exists a d b, Report.span f (pre ++ l :: tail) = (a, d :: b) /\ d ∈ pre ++ [l].
Proof.
  intros Hl. induction pre as [|c pre IH]; cbn.
  - rewrite Hl. exists [], l, tail. split; [done|]. apply list_elem_of_here.
  - destruct (f c) eqn:Hc.
    + destruct IH as (a & d & b & -> & Hd). exists (c :: a), d, b. split; [done|].
      by apply list_elem_of_further.
    + exists [], c, (pre ++ l :: tail). split; [done|]. apply list_elem_of_here.
Qed.

Lemma search_percent_none (s : list ascii) :
  "%"%char ∉ s -> Report.search_percent s = None.
Proof.
  induction s as [|c s IH]; [done|]. intros Hs.
  assert (Hs' : "%"%char ∉ s) by (intros ?; apply Hs; by apply list_elem_of_further). specialize (IH Hs').
  cbn [Report.search_percent]. destruct (Report.is_number_char c); [|done].
  destruct (Report.span Report.is_number_char (c :: s)) as [a [|d b]] eqn:Hsp; [done|].
  destruct (Ascii.eqb_spec d "%"); [|done]. subst d. exfalso.
  clear IH Hs'. revert a b Hsp. generalize (c :: s) Hs. clear.
  intros s. induction s as [|c s IH]; intros Hs a b; cbn; [done|].
  destruct (Report.is_number_char c).
  - destruct (Report.span Report.is_number_char s) as [a' b'] eqn:Hsp.
    intros [= <- ->]. eapply IH; [|done]. intros ?. apply Hs. by apply list_elem_of_further.
  - intros [= _ Hc _]. subst c. apply Hs. apply list_elem_of_here.
Qed.

Lemma search_percent_first (pre run post : list ascii) :
  "%"%char ∉ pre ->
  (forall c, last pre = Some c -> Report.is_number_char c = false) ->
  run <> [] ->
  Forall (fun c => Report.is_number_char c = true) run ->
  Report.search_percent (pre ++ run ++ "%"%char :: post) = Some run.
Proof.
  intros Hpre Hlast Hne Hrun. induction pre as [|c pre IH].
  - destruct run as [|r run]; [done|]. cbn [app Report.search_percent].
    rewrite (Forall_inv Hrun).
    change (r :: run ++ "%"%char :: post) with ((r :: run) ++ "%"%char :: post).
    rewrite span_run; [done|done|]. by intros ? [= <-].
  - assert (IH' : Report.search_percent (pre ++ run ++ "%"%char :: post) = Some run).
    { apply IH; [intros ?; apply Hpre; by apply list_elem_of_further|].
      intros d Hd. apply Hlast.
      destruct pre; [done|]. done. }
    cbn [app Report.search_percent]. destruct (Report.is_number_char c) eqn:Hc; [|done].
    destruct (exists_last (l := c :: pre)) as (p0 & l & Hp); [done|].
    assert (Hl : Report.is_number_char l = false).
    { apply Hlast. rewrite Hp. by rewrite last_snoc. }
    destruct (span_stops_in_prefix Report.is_number_char p0 l (run ++ "%"%char :: post) Hl)
      as (a & d & b & Hsp & Hd).
    change (c :: pre ++ run ++ "%"%char :: post) with ((c :: pre) ++ run ++ "%"%char :: post).
    rewrite Hp, <- app_assoc. cbn [app]. rewrite Hsp.
    destruct (Ascii.eqb_spec d "%"); [|done]. subst d. rewrite <- Hp in Hd. done.
Qed.

(** [clean_number] reads the number at the start of the text and nothing
    else: with the blanks and no-break spaces taken out, if the text is an
    optional minus sign, a run of digits and dots, and a rest that does not
    go on with a digit or a dot, the result is [float] of the sign and the
    run, whatever the rest is. *)
Theorem clean_number_reads_leading_number
    (float_of_text : list ascii -> result float) (s sign run rest : list ascii)
    (Hs : Text.remove_char " " (Text.remove_char (ascii_of_nat 160) s) = sign ++ run ++ rest)
    (Hsign : sign = [] \/ sign = ["-"%char])
    (Hne : run <> [])
    (Hrun : Forall (fun c => Report.is_number_char c = true) run)
    (Hrest : forall c, head rest = Some c -> Report.is_number_char c = false) :
  Report.clean_number float_of_text s = float_of_text (sign ++ run).
Proof.
  destruct s as [|c0 s0]; [by destruct Hsign as [-> | ->], run|].
  unfold Report.clean_number. cbv zeta. rewrite Hs.
  destruct run as [|r run]; [done|]. pose proof (Forall_inv Hrun) as Hr.
  destruct Hsign as [-> | ->]; cbn [app Report.match_number].
  - assert (Ascii.eqb r "-" = false) as ->.
    { destruct (Ascii.eqb_spec r "-"); [by subst|done]. }
    change (r :: run ++ rest) with ((r :: run) ++ rest). by rewrite span_run.
  - change (r :: run ++ rest) with ((r :: run) ++ rest). by rewrite span_run.
Qed.

(** [extract_pct] returns the first run of digits and dots that a percent
    sign follows: when the text before the run has no percent sign and does
    not end with a digit or a dot, the result is [float] of the run, and
    the text before alone has no percentage. *)
Theorem extract_pct_reads_first_percentage
    (float_of_text : list ascii -> result float) (pre run post : list ascii)
    (Hpre : "%"%char ∉ pre)
    (Hlast : forall c, last pre = Some c -> Report.is_number_char c = false)
    (Hne : run <> [])
    (Hrun : Forall (fun c => Report.is_number_char c = true) run) :
  Report.extract_pct float_of_text (pre ++ run ++ "%"%char :: post)
    = (v <- float_of_text run ;; Ok (Some v)) /\
  Report.extract_pct float_of_text pre = Ok None.
Proof.
  split.
  - unfold Report.extract_pct. rewrite search_percent_first by done.
    destruct pre; [by destruct run|done].
  - unfold Report.extract_pct. rewrite search_percent_none by done. by destruct pre.
Qed.

(* ===================================================================== *)
(** * Examples for the scripts *)
(* ===================================================================== *)


(** [-2 949 USD], with a no-break space after the minus sign's digit. *)
Lemma clean_number_reads_leading_number_witness :
  Report.clean_number whole_float
    (Text.txt "-2" ++ ascii_of_nat 160 :: Text.txt "949 USD") = Ok (-2949)%float.
Proof.
  rewrite (clean_number_reads_leading_number whole_float
             (Text.txt "-2" ++ ascii_of_nat 160 :: Text.txt "949 USD")
             ["-"%char] (Text.txt "2949") (Text.txt "USD")).
  - reflexivity.
  - reflexivity.
  - by right.
  - done.
  - repeat constructor.
  - by intros ? [= <-].
Defined.

(** [33 (60%)]: the percentage is 60, not the 33 before it. *)
Lemma extract_pct_reads_first_percentage_witness :
  Report.extract_pct whole_float (Text.txt "33 (60%)") = Ok (Some 60%float) /\
  Report.extract_pct whole_float (Text.txt "33 (") = Ok None.
Proof.
  apply (extract_pct_reads_first_percentage whole_float
           (Text.txt "33 (") (Text.txt "60") (Text.txt ")")).
  - intros H. repeat (apply elem_of_cons in H as [H|H]; [discriminate|]).
    by apply elem_of_nil in H.
  - by intros ? [= <-].
  - done.
  - repeat constructor.
Defined.
